(** * hash_index: a hash table of array indexes (hash_index.hpp)

    Shallow embedding of the class template [hash_index] at its default
    template arguments, [hash_index<>]:
      - [IndexType = unsigned int]   (32 bits, arithmetic modulo 2^32),
      - [KeyType   = std::size_t]    (64 bits),
      - [SizeType  = std::size_t]    (64 bits, arithmetic modulo 2^64),
      - [Allocator = std::allocator<unsigned int>].

    The two arrays are lists of [Z]; the static one-element array
    [m_invalid_index_dummy] that both pointers designate in the empty state
    is the constructor [Dummy].  Every method returns a [result]: a failed
    [HASH_INDEX_ASSERT], an access outside an array, a division by zero and
    a loop that has not finished within its fuel are the four ways not to
    return a value. *)

From Stdlib Require Import ZArith Lia List Bool.
From stdpp Require Import base tactics option list numbers.

Local Open Scope Z_scope.

(** ** Results of fallible code *)

Inductive error : Type :=
| AssertionFailed   (* HASH_INDEX_ASSERT(cond) with cond false *)
| OutOfBounds       (* read or write outside an array *)
| DivisionByZero    (* x % 0 *)
| OutOfFuel.        (* the loop needs more steps than the fuel given *)

Inductive result (A : Type) : Type :=
| Ok (a : A)
| Fault (e : error).

Arguments Ok {A} a.
Arguments Fault {A} e.

Definition bind {A B : Type} (r : result A) (k : A -> result B) : result B :=
  match r with
  | Ok a => k a
  | Fault e => Fault e
  end.

Notation "'let*' x ':=' r 'in' k" := (bind r (fun x => k))
  (at level 10, x name, r at level 100, k at level 200).

Definition assert (cond : bool) : result unit :=
  if cond then Ok tt else Fault AssertionFailed.

(** ** Integer types of the default instantiation *)

Definition index_modulus : Z := 2 ^ 32.
Definition size_modulus : Z := 2 ^ 64.

(** Arithmetic on [unsigned int] and on [std::size_t] wraps around. *)
Definition wrap_index (z : Z) : Z := z mod index_modulus.
Definition wrap_size (z : Z) : Z := z mod size_modulus.

(** Conversion of a 64-bit pattern to [long] (two's complement). *)
Definition to_long (z : Z) : Z :=
  let u := z mod size_modulus in
  if u <? 2 ^ 63 then u else u - size_modulus.

(** [null_index = ~static_cast<index_type>(0)] *)
Definition null_index : Z := index_modulus - 1.

Definition sizeof_index_type : Z := 4.

Definition default_initial_size : Z := 1024.
Definition default_granularity : Z := 1024.

(** ** Arrays *)

(** The value of one of the pointers [m_hash_buckets] and [m_index_chain],
    with the array it designates.  Both members are initialised to
    [nullptr], but every constructor runs [internal_init] (or copies the
    pointers of an object that did), so that no method ever sees
    [nullptr]. *)
Inductive buffer : Type :=
| Dummy                   (* the pointer equals m_invalid_index_dummy *)
| Heap (data : list Z).   (* an array obtained from Allocator::allocate *)

(** [b[i]] as an rvalue.  [m_invalid_index_dummy] has the single element
    [null_index]. *)
Definition buf_read (b : buffer) (i : Z) : result Z :=
  if i <? 0 then Fault OutOfBounds else
  match b with
  | Dummy => if i =? 0 then Ok null_index else Fault OutOfBounds
  | Heap l =>
      match l !! Z.to_nat i with
      | Some v => Ok v
      | None => Fault OutOfBounds
      end
  end.

(** [b[i] = v].  No method writes through a pointer to the dummy: each one
    tests [is_allocated] (or the pointer itself) first. *)
Definition buf_write (b : buffer) (i : Z) (v : Z) : result buffer :=
  if i <? 0 then Fault OutOfBounds else
  match b with
  | Dummy => Fault OutOfBounds
  | Heap l =>
      if Z.to_nat i <? length l then Ok (Heap (<[Z.to_nat i := v]> l))
      else Fault OutOfBounds
  end%nat.

(** [Allocator::allocate(n)] followed by [std::fill_n(p, n, null_index)]. *)
Definition allocate_filled (n : Z) : buffer :=
  Heap (replicate (Z.to_nat n) null_index).

(** ** The object *)

Record hash_index : Type := mk_hash_index {
  m_hash_buckets : buffer;
  m_index_chain : buffer;
  m_hash_buckets_size : Z;
  m_index_chain_size : Z;
  m_hash_mask : Z;
  m_lookup_mask : Z;
  m_granularity : Z
}.

Definition set_hash_buckets (h : hash_index) (b : buffer) : hash_index :=
  mk_hash_index b (m_index_chain h) (m_hash_buckets_size h)
    (m_index_chain_size h) (m_hash_mask h) (m_lookup_mask h) (m_granularity h).

Definition set_index_chain (h : hash_index) (c : buffer) : hash_index :=
  mk_hash_index (m_hash_buckets h) c (m_hash_buckets_size h)
    (m_index_chain_size h) (m_hash_mask h) (m_lookup_mask h) (m_granularity h).

(** ** Loops with a known trip count *)

(** [for (i = lo; n times; ++i) s = body(i, s)] *)
Fixpoint for_up {S : Type} (n : nat) (i : Z) (body : Z -> S -> result S)
    (s : S) : result S :=
  match n with
  | O => Ok s
  | Datatypes.S n' => let* s' := body i s in for_up n' (i + 1) body s'
  end.

(** [for (i = hi; n times; --i) s = body(i, s)] *)
Fixpoint for_down {S : Type} (n : nat) (i : Z) (body : Z -> S -> result S)
    (s : S) : result S :=
  match n with
  | O => Ok s
  | Datatypes.S n' => let* s' := body i s in for_down n' (i - 1) body s'
  end.

Module HashIndex.

(** *** Private helpers *)

Definition is_power_of_two (num : Z) : bool :=
  (0 <? num) && (Z.land num (num - 1) =? 0).

Definition is_allocated (h : hash_index) : bool :=
  match m_hash_buckets h with
  | Dummy => false
  | Heap _ => true
  end.

(** [internal_init] runs on the object under construction, whose pointers
    still hold their in-class initialiser [nullptr]; the second assertion,
    [!is_allocated()], therefore holds. *)
Definition internal_init (initial_hash_buckets_size initial_index_chain_size : Z)
    : result hash_index :=
  let* _ := assert (is_power_of_two initial_hash_buckets_size) in
  Ok {| m_hash_buckets := Dummy;
        m_index_chain := Dummy;
        m_hash_buckets_size := initial_hash_buckets_size;
        m_index_chain_size := initial_index_chain_size;
        m_hash_mask := wrap_size (initial_hash_buckets_size - 1);
        m_lookup_mask := 0;
        m_granularity := default_granularity |}.

(** [hash_index()] *)
Definition hash_index_default : result hash_index :=
  internal_init default_initial_size default_initial_size.

(** [hash_index(initial_hash_buckets_size, initial_index_chain_size)] *)
Definition hash_index_sized (initial_hash_buckets_size initial_index_chain_size : Z)
    : result hash_index :=
  internal_init initial_hash_buckets_size initial_index_chain_size.

Definition clear_and_free (h : hash_index) : hash_index :=
  let buckets :=
    match m_hash_buckets h with
    | Dummy => Dummy
    | Heap _ => Dummy      (* deallocate, then point at the dummy *)
    end in
  let chain :=
    match m_index_chain h with
    | Dummy => Dummy
    | Heap _ => Dummy
    end in
  {| m_hash_buckets := buckets;
     m_index_chain := chain;
     m_hash_buckets_size := m_hash_buckets_size h;
     m_index_chain_size := m_index_chain_size h;
     m_hash_mask := m_hash_mask h;
     m_lookup_mask := 0;
     m_granularity := m_granularity h |}.

Definition internal_allocate (h : hash_index)
    (new_hash_buckets_size new_index_chain_size : Z) : result hash_index :=
  let* _ := assert (is_power_of_two new_hash_buckets_size) in
  let h := if is_allocated h then clear_and_free h else h in
  Ok {| m_hash_buckets := allocate_filled new_hash_buckets_size;
        m_index_chain := allocate_filled new_index_chain_size;
        m_hash_buckets_size := new_hash_buckets_size;
        m_index_chain_size := new_index_chain_size;
        m_hash_mask := wrap_size (new_hash_buckets_size - 1);
        m_lookup_mask := size_modulus - 1;
        m_granularity := m_granularity h |}.

(** *** Memory management *)

Definition clear (h : hash_index) : hash_index :=
  match m_hash_buckets h with
  | Dummy => h
  | Heap l =>
      set_hash_buckets h
        (Heap (replicate (Z.to_nat (m_hash_buckets_size h)) null_index
               ++ drop (Z.to_nat (m_hash_buckets_size h)) l))
  end.

Definition clear_and_resize (h : hash_index)
    (new_hash_buckets_size new_index_chain_size : Z) : result hash_index :=
  let* _ := assert (is_power_of_two new_hash_buckets_size) in
  let h := clear_and_free h in
  Ok {| m_hash_buckets := m_hash_buckets h;
        m_index_chain := m_index_chain h;
        m_hash_buckets_size := new_hash_buckets_size;
        m_index_chain_size := new_index_chain_size;
        m_hash_mask := m_hash_mask h;
        m_lookup_mask := m_lookup_mask h;
        m_granularity := m_granularity h |}.

Definition set_granularity (h : hash_index) (new_granularity : Z)
    : result hash_index :=
  let* _ := assert (0 <? new_granularity) in
  Ok {| m_hash_buckets := m_hash_buckets h;
        m_index_chain := m_index_chain h;
        m_hash_buckets_size := m_hash_buckets_size h;
        m_index_chain_size := m_index_chain_size h;
        m_hash_mask := m_hash_mask h;
        m_lookup_mask := m_lookup_mask h;
        m_granularity := new_granularity |}.

Definition resize_index_chain (h : hash_index) (new_index_chain_size : Z)
    : result hash_index :=
  if new_index_chain_size <=? m_index_chain_size h then Ok h else
  if m_granularity h =? 0 then Fault DivisionByZero else
  let mod_ := new_index_chain_size mod m_granularity h in
  let new_size :=
    if mod_ =? 0 then new_index_chain_size
    else wrap_size (new_index_chain_size + m_granularity h - mod_) in
  match m_index_chain h with
  | Dummy =>      (* Not allocated yet; Defer. *)
      Ok {| m_hash_buckets := m_hash_buckets h;
            m_index_chain := Dummy;
            m_hash_buckets_size := m_hash_buckets_size h;
            m_index_chain_size := new_size;
            m_hash_mask := m_hash_mask h;
            m_lookup_mask := m_lookup_mask h;
            m_granularity := m_granularity h |}
  | Heap old_index_chain =>
      let old_index_chain_size := m_index_chain_size h in
      (* std::copy of old_index_chain_size elements into new_size slots,
         then std::fill_n of the (unsigned) difference *)
      if (new_size <? old_index_chain_size)
         || (Z.of_nat (length old_index_chain) <? old_index_chain_size)
      then Fault OutOfBounds
      else
        let new_index_chain :=
          take (Z.to_nat old_index_chain_size) old_index_chain
          ++ replicate (Z.to_nat (new_size - old_index_chain_size)) null_index in
        Ok {| m_hash_buckets := m_hash_buckets h;
              m_index_chain := Heap new_index_chain;
              m_hash_buckets_size := m_hash_buckets_size h;
              m_index_chain_size := new_size;
              m_hash_mask := m_hash_mask h;
              m_lookup_mask := m_lookup_mask h;
              m_granularity := m_granularity h |}
  end.

(** *** Lookup *)

Definition first (h : hash_index) (key : Z) : result Z :=
  buf_read (m_hash_buckets h)
    (Z.land (Z.land key (m_hash_mask h)) (m_lookup_mask h)).

Definition next (h : hash_index) (index : Z) : result Z :=
  let* _ := assert (index <? m_index_chain_size h) in
  buf_read (m_index_chain h) (Z.land index (m_lookup_mask h)).

(** The loop of [find], from the current candidate [i].  The collection and
    the needle are only ever used through [pred(needle, collection[i])],
    which is the argument [pred] here. *)
Fixpoint find_from (fuel : nat) (h : hash_index) (pred : Z -> bool) (i : Z)
    : result Z :=
  match fuel with
  | O => Fault OutOfFuel
  | S fuel' =>
      if i =? null_index then Ok null_index
      else if pred i then Ok i
      else let* i' := next h i in find_from fuel' h pred i'
  end.

Definition find (fuel : nat) (h : hash_index) (key : Z) (pred : Z -> bool)
    : result Z :=
  let* i := first h key in find_from fuel h pred i.

(** *** Insertion / removal *)

Definition insert (h : hash_index) (key index : Z) : result hash_index :=
  let* h := (if negb (is_allocated h) then
          let index_chain_size :=
            if index >=? m_index_chain_size h then wrap_index (index + 1)
            else m_index_chain_size h in
          internal_allocate h (m_hash_buckets_size h) index_chain_size
        else if index >=? m_index_chain_size h then
          resize_index_chain h (wrap_index (index + 1))
        else Ok h) in
  let k := Z.land key (m_hash_mask h) in
  let* head := buf_read (m_hash_buckets h) k in
  let* chain := buf_write (m_index_chain h) index head in
  let* buckets := buf_write (m_hash_buckets h) k index in
  Ok (set_hash_buckets (set_index_chain h chain) buckets).

(** The [for] loop in the [else] branch of [erase]; [i] is the loop
    variable, the result is the index chain after the loop. *)
Fixpoint erase_walk (fuel : nat) (chain : buffer) (i index : Z)
    : result buffer :=
  match fuel with
  | O => Fault OutOfFuel
  | S fuel' =>
      if i =? null_index then Ok chain
      else
        let* ci := buf_read chain i in
        if ci =? index then
          let* v := buf_read chain index in
          buf_write chain i v             (* break *)
        else erase_walk fuel' chain ci index
  end.

Definition erase (fuel : nat) (h : hash_index) (key index : Z)
    : result hash_index :=
  let* _ := assert (index <? m_index_chain_size h) in
  if negb (is_allocated h) then Ok h else
  let k := Z.land key (m_hash_mask h) in
  let* head := buf_read (m_hash_buckets h) k in
  let* h := (if head =? index then
          let* v := buf_read (m_index_chain h) index in
          let* buckets := buf_write (m_hash_buckets h) k v in
          Ok (set_hash_buckets h buckets)
        else
          let* chain := erase_walk fuel (m_index_chain h) head index in
          Ok (set_index_chain h chain)) in
  let* chain := buf_write (m_index_chain h) index null_index in
  Ok (set_index_chain h chain).

(** One iteration of the first two loops of [insert_at_index], on the
    array [arr] (the hash buckets, then the index chain): the state is the
    array and the local [max]. *)
Definition increase_from (index : Z) (i : Z) (s : buffer * Z)
    : result (buffer * Z) :=
  let (arr, max) := s in
  let* v := buf_read arr i in
  if v >=? index then
    let v' := wrap_index (v + 1) in                (* arr[i]++ *)
    let* arr := buf_write arr i v' in
    Ok (arr, if v' >? max then v' else max)
  else Ok (arr, max).

Definition insert_at_index (h : hash_index) (key index : Z)
    : result hash_index :=
  if negb (is_allocated h) then Ok h else
  let max := index in
  let* s := for_up (Z.to_nat (m_hash_buckets_size h)) 0
              (increase_from index) (m_hash_buckets h, max) in
  let (buckets, max) := s in
  let* s := for_up (Z.to_nat (m_index_chain_size h)) 0
              (increase_from index) (m_index_chain h, max) in
  let (chain, max) := s in
  let h := set_index_chain (set_hash_buckets h buckets) chain in
  let* h := (if max >=? m_index_chain_size h then
               resize_index_chain h (wrap_index (max + 1))
             else Ok h) in
  let* chain := for_down (Z.to_nat (max - index)) max
                  (fun i chain =>
                     let* v := buf_read chain (i - 1) in
                     buf_write chain i v)
                  (m_index_chain h) in
  let* chain := buf_write chain index null_index in
  insert (set_index_chain h chain) key index.

(** One iteration of the first two loops of [erase_and_remove_index]. *)
Definition decrease_from (index : Z) (i : Z) (s : buffer * Z)
    : result (buffer * Z) :=
  let (arr, max) := s in
  let* v := buf_read arr i in
  if v >=? index then
    let max := if v >? max then v else max in
    let* arr := buf_write arr i (wrap_index (v - 1)) in   (* arr[i]-- *)
    Ok (arr, max)
  else Ok (arr, max).

Definition erase_and_remove_index (fuel : nat) (h : hash_index)
    (key index : Z) : result hash_index :=
  let* _ := assert (index <? m_index_chain_size h) in
  if negb (is_allocated h) then Ok h else
  let* h := erase fuel h key index in
  let max := index in
  let* s := for_up (Z.to_nat (m_hash_buckets_size h)) 0
              (decrease_from index) (m_hash_buckets h, max) in
  let (buckets, max) := s in
  let* s := for_up (Z.to_nat (m_index_chain_size h)) 0
              (decrease_from index) (m_index_chain h, max) in
  let (chain, max) := s in
  let* chain := for_up (Z.to_nat (max - index)) index
                  (fun i chain =>
                     let* v := buf_read chain (i + 1) in
                     buf_write chain i v)
                  chain in
  let* chain := buf_write chain max null_index in
  Ok (set_index_chain (set_hash_buckets h buckets) chain).

(** *** Queries *)

(** The inner loop of [compute_distribution_percentage]: the number of
    steps from [index] to [null_index], added to [count]. *)
Fixpoint count_chain (fuel : nat) (chain : buffer) (index count : Z)
    : result Z :=
  match fuel with
  | O => Fault OutOfFuel
  | S fuel' =>
      if index =? null_index then Ok count
      else
        let* index' := buf_read chain index in
        count_chain fuel' chain index' (count + 1)
  end.

(** The values of type [long] below are counts of array slots and small
    multiples of them; they are kept as mathematical integers.  [/] on
    non-negative operands is [Z.quot]; the returned [long] is converted to
    [size_type]. *)
Definition compute_distribution_percentage (fuel : nat) (h : hash_index)
    : result Z :=
  if negb (is_allocated h) then Ok 100 else
  let* s := for_up (Z.to_nat (m_hash_buckets_size h)) 0
              (fun i (s : list Z * Z) =>
                 let (hash_items_count, total_items) := s in
                 let* head := buf_read (m_hash_buckets h) i in
                 let* c := count_chain fuel (m_index_chain h) head 0 in
                 Ok (hash_items_count ++ [c], total_items + c))
              ([], 0) in
  let (hash_items_count, total_items) := s in
  if total_items <=? 1 then Ok 100 else
  let average := to_long (Z.quot total_items (m_hash_buckets_size h)) in
  let* error :=
    for_up (Z.to_nat (m_hash_buckets_size h)) 0
      (fun i error =>
         match hash_items_count !! Z.to_nat i with
         | None => Fault OutOfBounds
         | Some c =>
             let e := c - average in
             let e := if e <? 0 then - e else e in
             Ok (if e >? 1 then error + (e - 1) else error)
         end)
      0 in
  Ok (wrap_size (100 - Z.quot (error * 100) total_items)).

Definition allocated_bytes (h : hash_index) : Z :=
  if negb (is_allocated h) then 0
  else wrap_size (m_hash_buckets_size h * sizeof_index_type
                  + m_index_chain_size h * sizeof_index_type).

Definition hash_buckets_size (h : hash_index) : Z := m_hash_buckets_size h.
Definition index_chain_size (h : hash_index) : Z := m_index_chain_size h.
Definition granularity (h : hash_index) : Z := m_granularity h.

(** *** Deep comparison *)

(** [a[i] != b[i]]: both cells are read.  When a pointer equals
    [m_invalid_index_dummy], only cell 0 exists. *)
Definition cell_differs (a b : buffer) (i : Z) : result bool :=
  let* x := buf_read a i in
  let* y := buf_read b i in
  Ok (negb (x =? y)).

(** [for (i = lo; n times; ++i) if (a[i] != b[i]) return false;] *)
Fixpoint same_cells (n : nat) (i : Z) (a b : buffer) : result bool :=
  match n with
  | O => Ok true
  | S n' =>
      let* d := cell_differs a b i in
      if d then Ok false else same_cells n' (i + 1) a b
  end.

(** [this->operator==(other)]; [same_object] is [this == &other]. *)
Definition operator_eq (same_object : bool) (this other : hash_index)
    : result bool :=
  if same_object then Ok true else
  if negb (m_hash_buckets_size this =? m_hash_buckets_size other) then Ok false else
  if negb (m_index_chain_size this =? m_index_chain_size other) then Ok false else
  if negb (m_hash_mask this =? m_hash_mask other) then Ok false else
  if negb (m_lookup_mask this =? m_lookup_mask other) then Ok false else
  if negb (m_granularity this =? m_granularity other) then Ok false else
  if is_allocated this && negb (is_allocated other) then Ok false else
  if negb (is_allocated this) && is_allocated other then Ok false else
  let* same := same_cells (Z.to_nat (m_hash_buckets_size this)) 0
                 (m_hash_buckets this) (m_hash_buckets other) in
  if negb same then Ok false else
  let* same := same_cells (Z.to_nat (m_index_chain_size this)) 0
                 (m_index_chain this) (m_index_chain other) in
  if negb same then Ok false else
  Ok true.

(** *** Swap and move construction *)

(** [swap(lhs, rhs)]: the pair of the two objects afterwards. *)
Definition swap (lhs rhs : hash_index) : hash_index * hash_index :=
  ({| m_hash_buckets := m_hash_buckets rhs;
      m_index_chain := m_index_chain rhs;
      m_hash_buckets_size := m_hash_buckets_size rhs;
      m_index_chain_size := m_index_chain_size rhs;
      m_hash_mask := m_hash_mask rhs;
      m_lookup_mask := m_lookup_mask rhs;
      m_granularity := m_granularity rhs |},
   {| m_hash_buckets := m_hash_buckets lhs;
      m_index_chain := m_index_chain lhs;
      m_hash_buckets_size := m_hash_buckets_size lhs;
      m_index_chain_size := m_index_chain_size lhs;
      m_hash_mask := m_hash_mask lhs;
      m_lookup_mask := m_lookup_mask lhs;
      m_granularity := m_granularity lhs |}).

(** [hash_index(hash_index && other)]: the new object and [other]
    afterwards. *)
Definition hash_index_move (other : hash_index)
    : result (hash_index * hash_index) :=
  let* this := hash_index_default in
  Ok (swap this other).

(** *** Copy construction and assignment *)

(** [std::copy(p, p + n, q)] into a fresh array [q] of [n] elements: the
    array read through [p] must have [n] elements. *)
Definition copy_cells (p : buffer) (n : Z) : result buffer :=
  match p with
  | Dummy =>
      if n <=? 0 then Ok (Heap [])
      else if n =? 1 then Ok (Heap [null_index])
      else Fault OutOfBounds
  | Heap l =>
      if Z.of_nat (length l) <? n then Fault OutOfBounds
      else Ok (Heap (take (Z.to_nat n) l))
  end.

(** [hash_index(const hash_index & other)] *)
Definition hash_index_copy (other : hash_index) : result hash_index :=
  let* arrays :=
    (if m_lookup_mask other =? 0 then Ok (Dummy, Dummy)
     else
       let* _ := assert (is_allocated other) in
       let* _ := assert (is_power_of_two (m_hash_buckets_size other)) in
       let* buckets :=
         copy_cells (m_hash_buckets other) (m_hash_buckets_size other) in
       let* chain :=
         copy_cells (m_index_chain other) (m_index_chain_size other) in
       Ok (buckets, chain)) in
  Ok {| m_hash_buckets := fst arrays;
        m_index_chain := snd arrays;
        m_hash_buckets_size := m_hash_buckets_size other;
        m_index_chain_size := m_index_chain_size other;
        m_hash_mask := m_hash_mask other;
        m_lookup_mask := m_lookup_mask other;
        m_granularity := m_granularity other |}.

(** [this->operator=(other)], called with an lvalue [source]: the parameter
    [other] is a copy of [source], which [swap] exchanges with [*this]; the
    former contents of [*this] are destroyed with the parameter.  The result
    is [*this] afterwards. *)
Definition operator_assign (this source : hash_index) : result hash_index :=
  let* other := hash_index_copy source in
  Ok (fst (swap this other)).

(** [this->operator!=(other)] *)
Definition operator_ne (same_object : bool) (this other : hash_index)
    : result bool :=
  let* eq := operator_eq same_object this other in
  Ok (negb eq).

End HashIndex.

(** * Specification-level definitions *)

Import HashIndex.

(** ** Well-formed objects

    What every constructor establishes and every method keeps: the sizes
    are values of [size_type], the bucket count is a power of two, the
    granularity is positive, and the two pointers are either both the dummy
    (with a zero lookup mask) or both heap arrays of the recorded sizes
    holding values of [index_type] (with an all-ones lookup mask and the
    hash mask of the bucket count). *)

Definition is_index_value (v : Z) : Prop := 0 <= v < index_modulus.

Record wf (h : hash_index) : Prop := {
  wf_buckets_size :
    is_power_of_two (m_hash_buckets_size h) = true
    /\ m_hash_buckets_size h < size_modulus;
  wf_chain_size : 0 <= m_index_chain_size h < size_modulus;
  wf_granularity : 0 < m_granularity h < size_modulus;
  wf_storage :
    match m_hash_buckets h, m_index_chain h with
    | Dummy, Dummy => m_lookup_mask h = 0
    | Heap buckets, Heap chain =>
        Z.of_nat (length buckets) = m_hash_buckets_size h
        /\ Z.of_nat (length chain) = m_index_chain_size h
        /\ m_lookup_mask h = size_modulus - 1
        /\ m_hash_mask h = m_hash_buckets_size h - 1
        /\ Forall is_index_value buckets
        /\ Forall is_index_value chain
    | _, _ => False
    end
}.

(** ** Growth of the index chain *)

(** [n] rounded up to a multiple of [g], as [resize_index_chain] computes it
    when the sum does not wrap. *)
Definition round_up (n g : Z) : Z :=
  if n mod g =? 0 then n else n + g - n mod g.

(** The chain capacity once [insert(key, index)] has returned, on an
    allocated object. *)
Definition capacity_after_insert (h : hash_index) (index : Z) : Z :=
  if index >=? m_index_chain_size h then round_up (index + 1) (m_granularity h)
  else m_index_chain_size h.

(** The capacity that claim C2 announces for capacity [c], granularity [g]
    and position [p]. *)
Definition C2_announced_capacity (c g p : Z) : Z :=
  if (p + 1 - c) mod g =? 0 then p + 1 else c + g - (p + 1 - c) mod g.

(** ** Sequences of insertions and erasures *)

Inductive operation : Type :=
| Insert (key index : Z)
| Erase (key index : Z).

Definition apply_operation (fuel : nat) (h : hash_index) (op : operation)
    : result hash_index :=
  match op with
  | Insert key index => insert h key index
  | Erase key index => erase fuel h key index
  end.

Fixpoint run (fuel : nat) (h : hash_index) (ops : list operation)
    : result hash_index :=
  match ops with
  | [] => Ok h
  | op :: ops => let* h := apply_operation fuel h op in run fuel h ops
  end.

(** ** Traversals

    The traversal of a bucket is the loop of [find]: start at [first(hash)],
    follow [next], stop at [null_index].  It reaches [position] before the
    sentinel when [find] with the predicate "is [position]" returns
    [position]; it ends at the sentinel without meeting [position] when that
    [find] returns [null_index]. *)

Definition reaches (fuel : nat) (h : hash_index) (hash position : Z) : Prop :=
  find fuel h hash (Z.eqb position) = Ok position.

Definition never_reaches (fuel : nat) (h : hash_index) (hash position : Z)
    : Prop :=
  find fuel h hash (Z.eqb position) = Ok null_index.

(** [chain_from chain i l]: following the slots of [chain] from [i] visits
    the positions [l], in this order, and then meets [null_index]. *)
Inductive chain_from (chain : list Z) : Z -> list Z -> Prop :=
| chain_from_null : chain_from chain null_index []
| chain_from_step (i i' : Z) (l : list Z) :
    i <> null_index -> 0 <= i ->
    chain !! Z.to_nat i = Some i' ->
    chain_from chain i' l ->
    chain_from chain i (i :: l).

(** The positions that the traversal of the bucket of [hash] visits before
    it meets [null_index]. *)
Fixpoint positions_from (fuel : nat) (h : hash_index) (i : Z)
    : result (list Z) :=
  match fuel with
  | O => Fault OutOfFuel
  | S fuel' =>
      if i =? null_index then Ok []
      else
        let* i' := next h i in
        let* l := positions_from fuel' h i' in
        Ok (i :: l)
  end.

Definition positions (fuel : nat) (h : hash_index) (hash : Z)
    : result (list Z) :=
  let* i := first h hash in positions_from fuel h i.

(** The object after [erase(key, index)] on an allocated object with the
    arrays [bl] and [cl], when the chain of the bucket of [key] is
    [pre ++ index :: post] and slot [index] holds [nxt]: the head of the
    bucket (when [pre] is empty) or the slot of the last position of [pre]
    now holds [nxt], and slot [index] holds [null_index]. *)
Definition erased (h : hash_index) (bl cl : list Z) (key index nxt : Z)
    (pre : list Z) : hash_index :=
  match pre with
  | [] =>
      set_index_chain
        (set_hash_buckets h
           (Heap (<[Z.to_nat (Z.land key (m_hash_mask h)) := nxt]> bl)))
        (Heap (<[Z.to_nat index := null_index]> cl))
  | _ :: _ =>
      set_index_chain h
        (Heap (<[Z.to_nat index := null_index]>
                 (<[Z.to_nat (List.last pre 0) := nxt]> cl)))
  end.

(** The pairs inserted by [ops] (on top of [stored]) and not erased
    afterwards, most recent first. *)
Definition same_pair (a b : Z * Z) : bool :=
  (fst a =? fst b) && (snd a =? snd b).

Fixpoint stored_after (stored : list (Z * Z)) (ops : list operation)
    : list (Z * Z) :=
  match ops with
  | [] => stored
  | Insert key index :: ops => stored_after ((key, index) :: stored) ops
  | Erase key index :: ops =>
      stored_after
        (List.filter (fun p => negb (same_pair p (key, index))) stored) ops
  end.

(** Disciplined use: a position (other than [null_index]) is inserted only
    while it is not stored, and [erase] names a stored pair. *)
Fixpoint disciplined (stored : list (Z * Z)) (ops : list operation) : Prop :=
  match ops with
  | [] => True
  | Insert key index :: ops =>
      0 <= index < null_index
      /\ ~ In index (map snd stored)
      /\ disciplined ((key, index) :: stored) ops
  | Erase key index :: ops =>
      In (key, index) stored
      /\ disciplined
           (List.filter (fun p => negb (same_pair p (key, index))) stored) ops
  end.

(** The bucket of a key, as an array index. *)
Definition bucket_of (h : hash_index) (key : Z) : nat :=
  Z.to_nat (Z.land key (m_hash_mask h)).

(** [consistent h stored]: the object [h] holds exactly the pairs [stored].
    No position is stored twice, and the chain of every bucket ends at the
    sentinel after the stored positions whose key falls in that bucket. *)
Definition consistent (h : hash_index) (stored : list (Z * Z)) : Prop :=
  wf h
  /\ m_granularity h + index_modulus <= size_modulus
  /\ m_hash_mask h = m_hash_buckets_size h - 1
  /\ List.NoDup (map snd stored)
  /\ (forall key p, In (key, p) stored -> 0 <= p < null_index)
  /\ match m_hash_buckets h, m_index_chain h with
     | Heap bl, Heap cl =>
         forall (j : nat) (head : Z),
           bl !! j = Some head ->
           exists l,
             chain_from cl head l
             /\ forall p, In p l <->
                          exists key, In (key, p) stored /\ bucket_of h key = j
     | _, _ => stored = []
     end.

(** ** The distribution score in terms of chain lengths *)

Definition sumZ (l : list Z) : Z := fold_right Z.add 0 l.

(** The contribution of a bucket with [count] items to the error, for a
    given [average]. *)
Definition excess (average count : Z) : Z :=
  let e := count - average in
  let e := if e <? 0 then - e else e in
  if e >? 1 then e - 1 else 0.

(** The score of a table whose buckets hold [counts] items. *)
Definition distribution_score (counts : list Z) : Z :=
  let total_items := sumZ counts in
  if total_items <=? 1 then 100
  else
    let average := total_items / Z.of_nat (length counts) in
    wrap_size (100 - sumZ (map (excess average) counts) * 100 / total_items).

Definition chain_lengths (chains : list (list Z)) : list Z :=
  map (fun l => Z.of_nat (length l)) chains.

(** ** The order of a traversal *)

(** The positions of the pairs of [stored] (most recent first) whose key
    falls in the bucket of [key], for [b] buckets. *)
Definition stored_in_bucket (b key : Z) (stored : list (Z * Z)) : list Z :=
  map snd
    (List.filter (fun q => fst q mod b =? key mod b) stored).

(** [ordered h stored]: the chain of every bucket of an allocated [h]
    visits the stored positions of that bucket, most recent first. *)
Definition ordered (h : hash_index) (stored : list (Z * Z)) : Prop :=
  forall bl cl,
    m_hash_buckets h = Heap bl -> m_index_chain h = Heap cl ->
    forall key head,
      bl !! bucket_of h key = Some head ->
      chain_from cl head
        (stored_in_bucket (m_hash_buckets_size h) key stored).

(** * Properties *)

(** ** Arrays and masks *)

Lemma land_mask_bound (key mask : Z) :
  0 <= mask -> 0 <= Z.land key mask <= mask.
Proof.
  intros Hmask. apply Z.ldiff_le; [assumption|].
  apply Z.bits_inj'. intros n _.
  rewrite Z.ldiff_spec, Z.land_spec, Z.bits_0.
  destruct (Z.testbit key n), (Z.testbit mask n); reflexivity.
Qed.

Lemma buf_read_Heap (l : list Z) (i v : Z) :
  0 <= i -> l !! Z.to_nat i = Some v -> buf_read (Heap l) i = Ok v.
Proof.
  intros Hi Hl. unfold buf_read.
  destruct (Z.ltb_spec i 0); [lia|]. rewrite Hl. reflexivity.
Qed.

Lemma buf_write_Heap (l : list Z) (i v : Z) :
  0 <= i < Z.of_nat (length l) ->
  buf_write (Heap l) i v = Ok (Heap (<[Z.to_nat i := v]> l)).
Proof.
  intros Hi. unfold buf_write.
  destruct (Z.ltb_spec i 0); [lia|].
  destruct (Nat.ltb_spec (Z.to_nat i) (length l)); [reflexivity|lia].
Qed.

Lemma is_power_of_two_pos (n : Z) : is_power_of_two n = true -> 0 < n.
Proof.
  unfold is_power_of_two. intros H.
  apply andb_true_iff in H as [H _]. lia.
Qed.

Lemma wf_internal_init (b c : Z) (h : hash_index) :
  b < size_modulus -> 0 <= c < size_modulus ->
  internal_init b c = Ok h -> wf h.
Proof.
  intros Hb Hc. unfold internal_init, assert.
  destruct (is_power_of_two b) eqn:Hp; simpl; [|discriminate].
  intros [= <-]. split; simpl; auto.
  unfold default_granularity, size_modulus. lia.
Qed.

(** ** C5: the hash mask after [clear_and_resize] *)

(** C5 (the code departs from the claim): on [hash_index(4, 4)],
    [clear_and_resize(8, 8)] succeeds and leaves a bucket count of 8 with
    the hash mask 3 of the former count, not 8 - 1. *)
Theorem C5_clear_and_resize_keeps_old_mask :
  exists h0 h,
    hash_index_sized 4 4 = Ok h0
    /\ clear_and_resize h0 8 8 = Ok h
    /\ hash_buckets_size h = 8
    /\ is_power_of_two (hash_buckets_size h) = true
    /\ m_hash_mask h = 3
    /\ m_hash_mask h <> hash_buckets_size h - 1.
Proof.
  eexists _, _. repeat split; try reflexivity. vm_compute. discriminate.
Qed.
Lemma wrap_index_small (z : Z) : 0 <= z < index_modulus -> wrap_index z = z.
Proof. intros H. unfold wrap_index. apply Z.mod_small. assumption. Qed.

Lemma wrap_size_small (z : Z) : 0 <= z < size_modulus -> wrap_size z = z.
Proof. intros H. unfold wrap_size. apply Z.mod_small. assumption. Qed.

Lemma round_up_bounds (n g : Z) :
  0 <= n -> 0 < g -> n <= round_up n g < n + g.
Proof.
  intros Hn Hg. unfold round_up.
  pose proof (Z.mod_pos_bound n g Hg).
  destruct (Z.eqb_spec (n mod g) 0); lia.
Qed.

Lemma resize_index_chain_grow (h : hash_index) (cl : list Z) (n : Z) :
  wf h -> m_index_chain h = Heap cl ->
  m_index_chain_size h < n -> n + m_granularity h < size_modulus ->
  resize_index_chain h n =
    Ok {| m_hash_buckets := m_hash_buckets h;
          m_index_chain :=
            Heap (cl ++ replicate
                    (Z.to_nat (round_up n (m_granularity h) - m_index_chain_size h))
                    null_index);
          m_hash_buckets_size := m_hash_buckets_size h;
          m_index_chain_size := round_up n (m_granularity h);
          m_hash_mask := m_hash_mask h;
          m_lookup_mask := m_lookup_mask h;
          m_granularity := m_granularity h |}.
Proof.
  intros Hwf Hcl Hn Hov. destruct Hwf as [_ Hc Hg Hst].
  rewrite Hcl in Hst. destruct (m_hash_buckets h) eqn:Hb; [contradiction|].
  destruct Hst as (_ & Hlen & _).
  pose proof (round_up_bounds n (m_granularity h) ltac:(lia) ltac:(lia)) as Hr.
  unfold resize_index_chain. rewrite Hcl.
  destruct (Z.leb_spec n (m_index_chain_size h)); [lia|].
  destruct (Z.eqb_spec (m_granularity h) 0); [lia|].
  assert (Hsize : (if n mod m_granularity h =? 0 then n
                   else wrap_size (n + m_granularity h - n mod m_granularity h))
                  = round_up n (m_granularity h)).
  { unfold round_up in *. destruct (Z.eqb_spec (n mod m_granularity h) 0);
      [reflexivity|]. apply wrap_size_small. lia. }
  rewrite Hsize.
  destruct (Z.ltb_spec (round_up n (m_granularity h)) (m_index_chain_size h));
    [lia|].
  destruct (Z.ltb_spec (Z.of_nat (length cl)) (m_index_chain_size h)); [lia|].
  simpl. rewrite take_ge by lia. rewrite ?Hb. reflexivity.
Qed.

Lemma bucket_index_bound (h : hash_index) (bl : list Z) (key : Z) :
  wf h -> m_hash_buckets h = Heap bl ->
  0 <= Z.land key (m_hash_mask h) < Z.of_nat (length bl).
Proof.
  intros [[Hp _] _ _ Hst] Hb. rewrite Hb in Hst.
  destruct (m_index_chain h); [contradiction|].
  destruct Hst as (Hlen & _ & _ & Hmask & _).
  apply is_power_of_two_pos in Hp.
  pose proof (land_mask_bound key (m_hash_mask h)). lia.
Qed.

Lemma insert_allocated (h : hash_index) (bl cl : list Z) (key index : Z) :
  wf h -> m_hash_buckets h = Heap bl -> m_index_chain h = Heap cl ->
  0 <= index < null_index ->
  index + 1 + m_granularity h < size_modulus ->
  exists head,
    bl !! Z.to_nat (Z.land key (m_hash_mask h)) = Some head
    /\ insert h key index =
       Ok {| m_hash_buckets :=
               Heap (<[Z.to_nat (Z.land key (m_hash_mask h)) := index]> bl);
             m_index_chain :=
               Heap (<[Z.to_nat index := head]>
                       (cl ++ replicate
                          (Z.to_nat (capacity_after_insert h index
                                     - m_index_chain_size h))
                          null_index));
             m_hash_buckets_size := m_hash_buckets_size h;
             m_index_chain_size := capacity_after_insert h index;
             m_hash_mask := m_hash_mask h;
             m_lookup_mask := m_lookup_mask h;
             m_granularity := m_granularity h |}.
Proof.
  intros Hwf Hb Hc Hidx Hov.
  pose proof (bucket_index_bound h bl key Hwf Hb) as Hk.
  destruct (lookup_lt_is_Some_2 bl (Z.to_nat (Z.land key (m_hash_mask h))))
    as [head Hhead]; [lia|].
  exists head. split; [assumption|].
  pose proof Hwf as [_ Hcs Hg Hst]. rewrite Hb, Hc in Hst.
  destruct Hst as (_ & Hlen & _).
  unfold insert, is_allocated, capacity_after_insert. rewrite Hb. simpl negb. cbv iota.
  unfold null_index, index_modulus in Hidx.
  destruct (Z.geb_spec index (m_index_chain_size h)) as [Hge|Hlt].
  - rewrite wrap_index_small by (unfold index_modulus; lia).
    rewrite (resize_index_chain_grow h cl) by (assumption || lia).
    pose proof (round_up_bounds (index + 1) (m_granularity h)
                  ltac:(lia) ltac:(lia)) as Hr.
    simpl. rewrite Hb. erewrite buf_read_Heap by (eassumption || lia). simpl.
    rewrite buf_write_Heap by (rewrite length_app, length_replicate; lia).
    simpl. rewrite buf_write_Heap by lia. reflexivity.
  - simpl. rewrite Hb, Hc. erewrite buf_read_Heap by (eassumption || lia). simpl.
    rewrite buf_write_Heap by lia. simpl.
    rewrite buf_write_Heap by lia.
    rewrite Z.sub_diag. simpl. rewrite app_nil_r. reflexivity.
Qed.
Lemma is_index_value_null : is_index_value null_index.
Proof. unfold is_index_value, null_index, index_modulus. lia. Qed.

Lemma is_index_value_position (index : Z) :
  0 <= index < null_index -> is_index_value index.
Proof. unfold is_index_value, null_index. lia. Qed.

Lemma capacity_after_insert_bounds (h : hash_index) (index : Z) :
  wf h -> 0 <= index -> index + 1 + m_granularity h < size_modulus ->
  m_index_chain_size h <= capacity_after_insert h index < size_modulus
  /\ index < capacity_after_insert h index.
Proof.
  intros [_ Hc Hg _] Hi Hov. unfold capacity_after_insert.
  pose proof (round_up_bounds (index + 1) (m_granularity h)
                ltac:(lia) ltac:(lia)).
  destruct (Z.geb_spec index (m_index_chain_size h)); lia.
Qed.

Lemma insert_allocated_wf (h h' : hash_index) (key index : Z) :
  wf h -> is_allocated h = true ->
  0 <= index < null_index ->
  index + 1 + m_granularity h < size_modulus ->
  insert h key index = Ok h' ->
  wf h' /\ is_allocated h' = true.
Proof.
  intros Hwf Ha Hidx Hov Hins.
  unfold is_allocated in Ha.
  destruct (m_hash_buckets h) as [|bl] eqn:Hb; [discriminate|].
  pose proof Hwf as [Hbs Hcs Hg Hst]. rewrite Hb in Hst.
  destruct (m_index_chain h) as [|cl] eqn:Hc; [contradiction|].
  destruct Hst as (Hlb & Hlc & Hlm & Hm & Hvb & Hvc).
  destruct (insert_allocated h bl cl key index Hwf Hb Hc Hidx Hov)
    as (head & Hhead & Heq).
  rewrite Heq in Hins. injection Hins as <-.
  pose proof (capacity_after_insert_bounds h index Hwf ltac:(lia) Hov).
  split; [|reflexivity].
  split; simpl; auto; try lia.
  rewrite !length_insert, length_app, length_replicate.
  do 2 (split; [lia|]). do 2 (split; [assumption|]). split.
  - apply Forall_insert.
    + exact Hvb.
    + apply is_index_value_position. exact Hidx.
  - apply Forall_insert.
    + apply Forall_app. split; [assumption|].
      apply Forall_replicate. exact is_index_value_null.
    + exact (Forall_lookup_1 is_index_value bl _ _ Hvb Hhead).
Qed.

Lemma insert_unallocated (h : hash_index) (key index : Z) :
  wf h -> is_allocated h = false -> 0 <= index < null_index ->
  insert h key index =
    Ok {| m_hash_buckets :=
            Heap (<[Z.to_nat (Z.land key (m_hash_buckets_size h - 1)) := index]>
                    (replicate (Z.to_nat (m_hash_buckets_size h)) null_index));
          m_index_chain :=
            Heap (<[Z.to_nat index := null_index]>
                    (replicate
                       (Z.to_nat (if index >=? m_index_chain_size h
                                  then index + 1 else m_index_chain_size h))
                       null_index));
          m_hash_buckets_size := m_hash_buckets_size h;
          m_index_chain_size :=
            (if index >=? m_index_chain_size h then index + 1
             else m_index_chain_size h);
          m_hash_mask := m_hash_buckets_size h - 1;
          m_lookup_mask := size_modulus - 1;
          m_granularity := m_granularity h |}.
Proof.
  intros [[Hp Hbs] Hcs Hg _] Ha Hidx.
  pose proof (is_power_of_two_pos _ Hp) as Hpos.
  pose proof (land_mask_bound key (m_hash_buckets_size h - 1) ltac:(lia)) as Hk.
  unfold null_index, index_modulus in Hidx.
  unfold insert, internal_allocate, allocate_filled. rewrite Ha, Hp. simpl.
  rewrite wrap_index_small by (unfold index_modulus; lia).
  rewrite wrap_size_small by lia.
  erewrite buf_read_Heap;
    [|lia|apply lookup_replicate_2; lia].
  simpl.
  rewrite buf_write_Heap.
  2:{ rewrite length_replicate.
      destruct (Z.geb_spec index (m_index_chain_size h)); lia. }
  simpl. rewrite buf_write_Heap by (rewrite length_replicate; lia).
  reflexivity.
Qed.

Lemma insert_unallocated_wf (h h' : hash_index) (key index : Z) :
  wf h -> is_allocated h = false -> 0 <= index < null_index ->
  insert h key index = Ok h' ->
  wf h' /\ is_allocated h' = true.
Proof.
  intros Hwf Ha Hidx Hins.
  rewrite (insert_unallocated h key index Hwf Ha Hidx) in Hins.
  injection Hins as <-. destruct Hwf as [[Hp Hbs] Hcs Hg _].
  pose proof (is_power_of_two_pos _ Hp) as Hpos.
  unfold null_index, index_modulus in Hidx.
  split; [|reflexivity].
  split; simpl; auto.
  - unfold size_modulus.
    destruct (Z.geb_spec index (m_index_chain_size h));
      [lia | unfold size_modulus in Hcs; lia].
  - rewrite !length_insert, !length_replicate.
    split; [lia|].
    split; [destruct (Z.geb_spec index (m_index_chain_size h)); lia|].
    do 2 (split; [reflexivity|]). split.
    + apply Forall_insert;
        [apply Forall_replicate; exact is_index_value_null|].
      apply is_index_value_position. unfold null_index, index_modulus. lia.
    + apply Forall_insert; apply Forall_replicate || idtac;
        exact is_index_value_null.
Qed.

(** Well-formedness of an object given by its fields. *)
Ltac wf_concrete :=
  split; simpl;
  [ vm_compute; intuition congruence
  | vm_compute; intuition congruence
  | vm_compute; intuition congruence
  | repeat split; try reflexivity;
    repeat constructor; vm_compute; congruence ].

(** ** C2: growth of the chain on insertion *)

(** C2 (as the code has it): on an allocated object with chain capacity [c]
    and granularity [g], inserting a position [p >= c] (with [p + 1 + g]
    representable in [size_type]) returns, and the new capacity is [p + 1]
    rounded up to a multiple of [g]: [p + 1 + g - (p + 1) mod g] when
    [(p + 1) mod g <> 0], and [p + 1] otherwise. *)
Theorem C2_insert_rounds_up_requested_capacity
    (h : hash_index) (key p : Z) :
  wf h -> is_allocated h = true ->
  index_chain_size h <= p -> p < null_index ->
  p + 1 + granularity h < size_modulus ->
  exists h',
    insert h key p = Ok h'
    /\ index_chain_size h' =
       (if (p + 1) mod granularity h =? 0 then p + 1
        else p + 1 + granularity h - (p + 1) mod granularity h).
Proof.
  unfold index_chain_size, granularity.
  intros Hwf Ha Hge Hlt Hov.
  unfold is_allocated in Ha.
  destruct (m_hash_buckets h) as [|bl] eqn:Hb; [discriminate|].
  pose proof Hwf as [_ Hcs _ Hst]. rewrite Hb in Hst.
  destruct (m_index_chain h) as [|cl] eqn:Hc; [contradiction|].
  destruct (insert_allocated h bl cl key p Hwf Hb Hc ltac:(lia) Hov)
    as (head & _ & Heq).
  eexists. split; [exact Heq|]. simpl.
  unfold capacity_after_insert, round_up.
  destruct (Z.geb_spec p (m_index_chain_size h)); [reflexivity|lia].
Qed.

Lemma C2_insert_rounds_up_requested_capacity_witness :
  exists h h',
    (let* h0 := hash_index_sized 4 4 in
     let* h0 := set_granularity h0 4 in insert h0 0 0) = Ok h
    /\ insert h 0 4 = Ok h'
    /\ index_chain_size h' = 8.
Proof.
  eexists.
  match goal with
  | |- exists h', ?run = Ok ?h /\ _ =>
      let r := eval vm_compute in run in
      match r with
      | Ok ?s =>
          unify h s;
          destruct (C2_insert_rounds_up_requested_capacity s 0 4)
            as (h' & Hins & Hcap)
      end
  end.
  - wf_concrete.
  - reflexivity.
  - vm_compute. congruence.
  - vm_compute. reflexivity.
  - vm_compute. reflexivity.
  - exists h'. split; [vm_compute; reflexivity|].
    split; [exact Hins|exact Hcap].
Defined.

(** C2, as announced, fails: on [hash_index(4, 4)] with the granularity set
    to 4, after [insert(0, 0)] the capacity is 4; [insert(0, 4)] gives
    capacity 8 (5 rounded up to a multiple of 4), where the announced
    formula gives 4 + 4 - ((4 + 1 - 4) mod 4) = 7. *)
Lemma C2_counterexample :
  exists h h',
    (let* h0 := hash_index_sized 4 4 in
     let* h0 := set_granularity h0 4 in insert h0 0 0) = Ok h
    /\ is_allocated h = true
    /\ index_chain_size h = 4
    /\ granularity h = 4
    /\ insert h 0 4 = Ok h'
    /\ index_chain_size h' = 8
    /\ C2_announced_capacity (index_chain_size h) (granularity h) 4 = 7.
Proof.
  eexists _, _.
  split; [vm_compute; reflexivity|].
  repeat split; vm_compute; reflexivity.
Qed.

(** ** C10: [insert_at_index] before the first allocation *)

Lemma land_lookup_mask (x : Z) :
  0 <= x < size_modulus -> Z.land x (size_modulus - 1) = x.
Proof.
  intros Hx. change (size_modulus - 1) with (Z.ones 64).
  rewrite Z.land_ones by lia. apply Z.mod_small. exact Hx.
Qed.

(** C10: on an object that was never allocated, [insert_at_index] returns
    and leaves the object as it was: nothing is allocated and the pair is
    not recorded ([first] still gives [null_index]); [insert] with the same
    arguments allocates and records the pair. *)
Theorem C10_insert_at_index_unallocated_is_noop
    (h : hash_index) (key index : Z) :
  wf h -> is_allocated h = false -> 0 <= index < null_index ->
  insert_at_index h key index = Ok h
  /\ first h key = Ok null_index
  /\ exists h',
       insert h key index = Ok h'
       /\ is_allocated h' = true
       /\ first h' key = Ok index.
Proof.
  intros Hwf Ha Hidx. split; [|split].
  - unfold insert_at_index. rewrite Ha. reflexivity.
  - unfold first. unfold is_allocated in Ha.
    destruct Hwf as [_ _ _ Hst].
    destruct (m_hash_buckets h); [|discriminate].
    destruct (m_index_chain h); [|contradiction].
    rewrite Hst, Z.land_0_r. reflexivity.
  - eexists. split; [apply insert_unallocated; assumption|].
    split; [reflexivity|].
    destruct Hwf as [[Hp Hbs] _ _ _].
    pose proof (is_power_of_two_pos _ Hp) as Hpos.
    pose proof (land_mask_bound key (m_hash_buckets_size h - 1) ltac:(lia)) as Hk.
    unfold first. simpl.
    rewrite land_lookup_mask by lia.
    apply buf_read_Heap; [lia|].
    apply list_lookup_insert_eq. rewrite length_replicate. lia.
Qed.

Lemma C10_insert_at_index_unallocated_is_noop_witness :
  exists h,
    hash_index_default = Ok h
    /\ insert_at_index h 5 3 = Ok h
    /\ first h 5 = Ok null_index
    /\ exists h',
         insert h 5 3 = Ok h'
         /\ is_allocated h' = true
         /\ first h' 5 = Ok 3.
Proof.
  eexists. split; [reflexivity|].
  apply C10_insert_at_index_unallocated_is_noop.
  - apply (wf_internal_init default_initial_size default_initial_size);
      [vm_compute; reflexivity | vm_compute; intuition congruence | reflexivity].
  - reflexivity.
  - vm_compute. intuition congruence.
Defined.

(** ** C9: move construction *)

(** C9 (the code departs from the claim): a default-constructed
    [hash_index] records 1024 buckets and holds no arrays, and so do its
    copy and the object move-constructed from it: the pointers of all three
    are [m_invalid_index_dummy], an array of one element.  The move leaves
    the source with [is_allocated() == false] and [allocated_bytes() == 0],
    but [operator==] between the destination and the copy of the former
    value, in either order, passes the tests of the sizes and of the
    allocation state and then reads cell 1 of the dummy array, past its
    end, where the claim has it return [true]. *)
Theorem C9_move_of_unallocated_reads_past_dummy :
  exists source copy destination source',
    hash_index_default = Ok source
    /\ hash_index_copy source = Ok copy
    /\ hash_index_move source = Ok (destination, source')
    /\ destination = source
    /\ is_allocated source' = false
    /\ allocated_bytes source' = 0
    /\ operator_eq false destination copy = Fault OutOfBounds
    /\ operator_eq false copy destination = Fault OutOfBounds.
Proof.
  eexists _, _, _, _.
  split; [reflexivity|]. split; [reflexivity|]. split; [reflexivity|].
  split; [reflexivity|]. split; [reflexivity|]. split; [reflexivity|].
  split; vm_compute; reflexivity.
Qed.

(** ** C6: three colliding insertions *)

Lemma first_Heap (h : hash_index) (bl : list Z) (key v : Z) :
  m_hash_buckets h = Heap bl ->
  m_lookup_mask h = size_modulus - 1 ->
  0 <= m_hash_mask h < size_modulus ->
  bl !! Z.to_nat (Z.land key (m_hash_mask h)) = Some v ->
  first h key = Ok v.
Proof.
  intros Hb Hm Hmask Hv. unfold first. rewrite Hb, Hm.
  pose proof (land_mask_bound key (m_hash_mask h) ltac:(lia)).
  rewrite land_lookup_mask by lia.
  apply buf_read_Heap; [lia|assumption].
Qed.

Lemma next_Heap (h : hash_index) (cl : list Z) (i v : Z) :
  m_index_chain h = Heap cl ->
  m_lookup_mask h = size_modulus - 1 ->
  0 <= i < m_index_chain_size h -> m_index_chain_size h <= size_modulus ->
  cl !! Z.to_nat i = Some v ->
  next h i = Ok v.
Proof.
  intros Hc Hm Hi Hs Hv. unfold next, assert.
  destruct (Z.ltb_spec i (m_index_chain_size h)); [|lia]. simpl.
  rewrite Hc, Hm, land_lookup_mask by lia.
  apply buf_read_Heap; [lia|assumption].
Qed.

(** C6: for every initial chain capacity [c], on [hash_index(4, c)] (hash
    mask 3) the calls [insert(0, 0)], [insert(4, 1)], [insert(8, 2)] return
    and then [first(0) == 2], [next(2) == 1], [next(1) == 0] and
    [next(0) == null_index]. *)
Theorem C6_colliding_inserts_prepend (c : Z) :
  0 <= c < size_modulus ->
  exists h0 h1 h2 h3,
    hash_index_sized 4 c = Ok h0
    /\ hash_buckets_size h0 = 4 /\ m_hash_mask h0 = 3
    /\ insert h0 0 0 = Ok h1
    /\ insert h1 4 1 = Ok h2
    /\ insert h2 8 2 = Ok h3
    /\ first h3 0 = Ok 2
    /\ next h3 2 = Ok 1
    /\ next h3 1 = Ok 0
    /\ next h3 0 = Ok null_index.
Proof.
  intros Hc.
  assert (Hni : null_index = 4294967295) by reflexivity.
  assert (Hsm : size_modulus = 18446744073709551616) by reflexivity.
  (* construction *)
  destruct (hash_index_sized 4 c) as [h0|] eqn:H0; [|discriminate].
  assert (Hwf0 : wf h0)
    by (apply (wf_internal_init 4 c); [rewrite Hsm; lia | exact Hc | exact H0]).
  injection H0 as H0.
  assert (Ha0 : is_allocated h0 = false) by (rewrite <- H0; reflexivity).
  assert (Hb0 : m_hash_buckets_size h0 = 4) by (rewrite <- H0; reflexivity).
  assert (Hg0 : m_granularity h0 = 1024) by (rewrite <- H0; reflexivity).
  assert (Hc0 : m_index_chain_size h0 = c) by (rewrite <- H0; reflexivity).
  (* insert(0, 0) *)
  pose proof (insert_unallocated h0 0 0 Hwf0 Ha0 ltac:(lia)) as H1.
  destruct (insert_unallocated_wf h0 _ 0 0 Hwf0 Ha0 ltac:(lia) H1) as [Hwf1 Ha1].
  rewrite Hb0, Hg0, Hc0 in *.
  change (Z.to_nat (Z.land 0 (4 - 1))) with 0%nat in *.
  change (Z.to_nat 4) with 4%nat in *. change (Z.to_nat 0) with 0%nat in *.
  simpl replicate in *. simpl (<[0%nat:=0]> _) in *.
  set (c1 := if 0 >=? c then 0 + 1 else c) in *.
  assert (Hc1 : 1 <= c1 < size_modulus)
    by (subst c1; destruct (Z.geb_spec 0 c); lia).
  match type of H1 with _ = Ok ?s => set (h1 := s) in * end.
  (* insert(4, 1) *)
  destruct (insert_allocated h1 _ _ 4 1 Hwf1 eq_refl eq_refl
              ltac:(lia) ltac:(simpl; lia)) as (head1 & Hh1 & H2).
  injection Hh1 as <-.
  pose proof (capacity_after_insert_bounds h1 1 Hwf1 ltac:(lia)
                ltac:(simpl; lia)) as [Hcap2 Hlt2].
  destruct (insert_allocated_wf h1 _ 4 1 Hwf1 Ha1 ltac:(lia)
              ltac:(simpl; lia) H2) as [Hwf2 Ha2].
  set (c2 := capacity_after_insert h1 1) in *.
  change (m_index_chain_size h1) with c1 in *.
  match type of H2 with _ = Ok ?s => set (h2 := s) in * end.
  (* insert(8, 2) *)
  destruct (insert_allocated h2 _ _ 8 2 Hwf2 eq_refl eq_refl
              ltac:(lia) ltac:(simpl; lia)) as (head2 & Hh2 & H3).
  injection Hh2 as <-.
  pose proof (capacity_after_insert_bounds h2 2 Hwf2 ltac:(lia)
                ltac:(simpl; lia)) as [Hcap3 Hlt3].
  set (c3 := capacity_after_insert h2 2) in *.
  change (m_index_chain_size h2) with c2 in *.
  match type of H3 with _ = Ok ?s => set (h3 := s) in * end.
  assert (Hl1 : length (<[Z.to_nat 0 := null_index]>
                          (replicate (Z.to_nat c1) null_index)) = Z.to_nat c1)
    by (rewrite length_insert, length_replicate; reflexivity).
  clearbody c1 c2 c3.
  subst h0. eexists _, h1, h2, h3.
  do 3 (split; [reflexivity|]).
  do 3 (split; [assumption|]).
  split; [|split; [|split]].
  - reflexivity.
  - eapply next_Heap; [reflexivity|reflexivity|simpl; lia|simpl; lia|].
    apply list_lookup_insert_eq.
    rewrite length_app, length_insert, length_app, length_insert,
      !length_replicate. lia.
  - eapply next_Heap; [reflexivity|reflexivity|simpl; lia|simpl; lia|].
    rewrite list_lookup_insert_ne by lia.
    rewrite lookup_app_l
      by (rewrite length_insert, length_app, length_insert, !length_replicate; lia).
    apply list_lookup_insert_eq.
    rewrite length_app, length_insert, !length_replicate. lia.
  - eapply next_Heap; [reflexivity|reflexivity|simpl; lia|simpl; lia|].
    rewrite list_lookup_insert_ne by lia.
    rewrite lookup_app_l
      by (rewrite length_insert, length_app, length_insert, !length_replicate; lia).
    rewrite list_lookup_insert_ne by lia.
    rewrite lookup_app_l by (rewrite length_insert, length_replicate; lia).
    apply list_lookup_insert_eq. rewrite length_replicate. lia.
Qed.

Lemma C6_colliding_inserts_prepend_witness :
  exists h0 h1 h2 h3,
    hash_index_sized 4 4 = Ok h0
    /\ hash_buckets_size h0 = 4 /\ m_hash_mask h0 = 3
    /\ insert h0 0 0 = Ok h1
    /\ insert h1 4 1 = Ok h2
    /\ insert h2 8 2 = Ok h3
    /\ first h3 0 = Ok 2
    /\ next h3 2 = Ok 1
    /\ next h3 1 = Ok 0
    /\ next h3 0 = Ok null_index.
Proof.
  apply (C6_colliding_inserts_prepend 4). vm_compute. intuition congruence.
Defined.
(** ** C4: the distribution percentage can leave [0, 100] *)

(** C4 (the code departs from the claim): on [hash_index(4, 16)] with the
    twelve positions 0..11 inserted under hash 0, the bucket lengths are
    12, 0, 0, 0, the average is 3, the error is 8 + 2 + 2 + 2 = 14 and
    [compute_distribution_percentage] returns 100 - 1400 / 12 = -16
    converted to [size_type], which is 2^64 - 16, not a value of
    [0, 100]. *)
Theorem C4_distribution_percentage_above_100 :
  exists h0 h,
    hash_index_sized 4 16 = Ok h0
    /\ run 0 h0 (map (Insert 0) [0; 1; 2; 3; 4; 5; 6; 7; 8; 9; 10; 11]) = Ok h
    /\ (forall n : nat,
          compute_distribution_percentage (13 + n) h
          = Ok 18446744073709551600)
    /\ ~ (0 <= 18446744073709551600 <= 100).
Proof.
  eexists _, _. split; [reflexivity|].
  split; [vm_compute; reflexivity|].
  split; [intros n; reflexivity|lia].
Qed.

(** ** C7: [insert_at_index] then [erase_and_remove_index] *)

(** C7 (the code departs from the claim): on [hash_index(4, 4)] holding the
    single pair (0, 0), [insert_at_index(1, 1)] also increments every
    [null_index] (which is [>= index] as an [unsigned int]) to 0, so that
    the empty bucket 2 gets the head 0 and slot 0 points to itself;
    [erase_and_remove_index(1, 1)] then takes [null_index] for [max] and
    its last loop leaves the chain array. *)
Theorem C7_round_trip_fails :
  exists h0 h h1,
    hash_index_sized 4 4 = Ok h0
    /\ insert h0 0 0 = Ok h
    /\ first h 2 = Ok null_index
    /\ next h 0 = Ok null_index
    /\ insert_at_index h 1 1 = Ok h1
    /\ first h1 2 = Ok 0
    /\ next h1 0 = Ok 0
    /\ forall fuel : nat,
         erase_and_remove_index fuel h1 1 1 = Fault OutOfBounds.
Proof.
  eexists _, _, _. split; [reflexivity|].
  split; [vm_compute; reflexivity|].
  split; [reflexivity|]. split; [reflexivity|].
  split; [vm_compute; reflexivity|].
  split; [reflexivity|]. split; [reflexivity|].
  intros fuel. reflexivity.
Qed.
(** ** Chains *)

Section Chains.

Variable chain : list Z.

Lemma chain_from_functional (i : Z) (l1 l2 : list Z) :
  chain_from chain i l1 -> chain_from chain i l2 -> l1 = l2.
Proof.
  intros H1. revert l2.
  induction H1 as [|i i' l Hn Hi Hl H IH]; intros l2 H2.
  - inversion H2; [reflexivity|congruence].
  - inversion H2 as [|? i'' l' ? ? Hl' H']; subst; [congruence|].
    rewrite Hl in Hl'. injection Hl' as <-.
    f_equal. apply IH. assumption.
Qed.

Lemma chain_from_head (i : Z) (l : list Z) :
  chain_from chain i l -> (i = null_index /\ l = []) \/ (exists l', l = i :: l').
Proof. intros H. destruct H; eauto. Qed.

Lemma chain_from_suffix (i j : Z) (l : list Z) :
  chain_from chain i l -> In j l ->
  exists l', chain_from chain j l' /\ (length l' <= length l)%nat.
Proof.
  induction 1 as [|i i' l Hn Hi Hl H IH]; intros Hin; [destruct Hin|].
  destruct Hin as [<-|Hin].
  - exists (i :: l). split; [econstructor; eassumption|reflexivity].
  - destruct (IH Hin) as (l' & Hl' & Hlen). exists l'. simpl. split; [assumption|lia].
Qed.

Lemma chain_from_NoDup (i : Z) (l : list Z) :
  chain_from chain i l -> List.NoDup l.
Proof.
  induction 1 as [|i i' l Hn Hi Hl H IH]; constructor; [|assumption].
  intros Hin.
  destruct (chain_from_suffix i' i l H Hin) as (l' & Hl' & Hlen).
  assert (l' = i :: l)
    by (eapply chain_from_functional; [eassumption|econstructor; eassumption]).
  subst l'. simpl in Hlen. lia.
Qed.

Lemma chain_from_In (i j : Z) (l : list Z) :
  chain_from chain i l -> In j l ->
  j <> null_index /\ 0 <= j /\ (Z.to_nat j < length chain)%nat.
Proof.
  induction 1 as [|i i' l Hn Hi Hl H IH]; intros Hin; [destruct Hin|].
  destruct Hin as [<-|Hin]; [|auto].
  apply lookup_lt_Some in Hl. auto.
Qed.

Lemma chain_from_insert (i j v : Z) (l : list Z) :
  chain_from chain i l -> 0 <= j -> ~ In j l ->
  chain_from (<[Z.to_nat j := v]> chain) i l.
Proof.
  induction 1 as [|i i' l Hn Hi Hl H IH]; intros Hj Hnin; [constructor|].
  apply (chain_from_step _ i i'); auto.
  - rewrite list_lookup_insert_ne; [assumption|].
    intros Heq. apply Hnin. left. lia.
  - apply IH; [assumption|]. intros Hin. apply Hnin. right. assumption.
Qed.

Lemma chain_from_app (pad : list Z) (i : Z) (l : list Z) :
  chain_from chain i l -> chain_from (chain ++ pad) i l.
Proof.
  induction 1 as [|i i' l Hn Hi Hl H IH]; [constructor|].
  apply (chain_from_step _ i i'); auto.
  apply lookup_app_l_Some. assumption.
Qed.

End Chains.

(** Unlinking [index] from the chain [pre ++ index :: post]. *)
Lemma chain_from_unlink_head (chain : list Z) (index : Z) (post : list Z) :
  chain_from chain index (index :: post) ->
  exists nxt,
    chain !! Z.to_nat index = Some nxt
    /\ chain_from (<[Z.to_nat index := null_index]> chain) nxt post.
Proof.
  intros H. pose proof (chain_from_NoDup _ _ _ H) as Hnd.
  inversion H as [|? nxt ? Hn Hi Hl Hrest]; subst.
  exists nxt. split; [assumption|].
  apply chain_from_insert; [assumption|assumption|].
  apply List.NoDup_cons_iff in Hnd as [Hnin _]. exact Hnin.
Qed.

Lemma chain_from_unlink (chain : list Z) (i index nxt : Z)
    (pre post : list Z) :
  chain_from chain i (pre ++ index :: post) -> pre <> [] ->
  chain !! Z.to_nat index = Some nxt ->
  chain_from
    (<[Z.to_nat index := null_index]>
       (<[Z.to_nat (List.last pre 0) := nxt]> chain))
    i (pre ++ post).
Proof.
  revert i. induction pre as [|a pre IH]; intros i H Hne Hnxt; [congruence|].
  pose proof (chain_from_NoDup _ _ _ H) as Hnd.
  simpl in H. inversion H as [|? i' ? Hn Hi Hl Hrest]; subst.
  simpl in Hnd. apply List.NoDup_cons_iff in Hnd as [Hnin Hnd].
  rewrite in_app_iff in Hnin. simpl in Hnin.
  destruct pre as [|b pre].
  - (* [a] is the predecessor of [index] *)
    simpl in *. 
    inversion Hrest as [|? nxt' ? Hn' Hi' Hl' Hrest']; subst.
    rewrite Hnxt in Hl'. injection Hl' as <-.
    apply List.NoDup_cons_iff in Hnd as [Hnin' _].
    assert (Hlen : (Z.to_nat a < length chain)%nat)
      by (eapply lookup_lt_Some; eassumption).
    apply (chain_from_step _ a nxt); auto.
    + rewrite list_lookup_insert_ne by (intros Heq; apply Hnin; right; left; lia).
      apply list_lookup_insert_eq. assumption.
    + apply chain_from_insert; [|assumption|assumption].
      apply chain_from_insert; [assumption|assumption|tauto].
  - specialize (IH i' Hrest ltac:(discriminate) Hnxt).
    change (List.last (a :: b :: pre) 0) with (List.last (b :: pre) 0).
    assert (Hlast : In (List.last (b :: pre) 0) (b :: pre)).
    { clear. generalize b. induction pre as [|c pre IHp]; intros b'.
      - left. reflexivity.
      - right. apply IHp. }
    simpl app. apply (chain_from_step _ a i'); auto.
    rewrite !list_lookup_insert_ne; [assumption| |].
    + intros Heq. apply Hnin. left.
      assert (0 <= List.last (b :: pre) 0).
      { eapply (chain_from_In chain i' _ ((b :: pre) ++ index :: post));
          [exact Hrest|]. apply in_or_app. left. exact Hlast. }
      replace a with (List.last (b :: pre) 0) by lia. exact Hlast.
    + intros Heq. apply Hnin. right. left.
      assert (0 <= index).
      { eapply (chain_from_In chain i' _ ((b :: pre) ++ index :: post));
          [exact Hrest|]. apply in_or_app. right. left. reflexivity. }
      lia.
Qed.
(** ** Traversals of an allocated object *)

Lemma wf_allocated (h : hash_index) :
  wf h -> is_allocated h = true ->
  exists bl cl,
    m_hash_buckets h = Heap bl /\ m_index_chain h = Heap cl
    /\ Z.of_nat (length bl) = m_hash_buckets_size h
    /\ Z.of_nat (length cl) = m_index_chain_size h
    /\ m_lookup_mask h = size_modulus - 1
    /\ m_hash_mask h = m_hash_buckets_size h - 1
    /\ Forall is_index_value bl /\ Forall is_index_value cl.
Proof.
  intros [_ _ _ Hst] Ha. unfold is_allocated in Ha.
  destruct (m_hash_buckets h) as [|bl]; [discriminate|].
  destruct (m_index_chain h) as [|cl]; [contradiction|].
  exists bl, cl. tauto.
Qed.

Lemma is_index_value_size (v : Z) : is_index_value v -> 0 <= v < size_modulus.
Proof. unfold is_index_value, index_modulus, size_modulus. lia. Qed.

Lemma next_inv (h : hash_index) (cl : list Z) (i i' : Z) :
  m_index_chain h = Heap cl -> m_lookup_mask h = size_modulus - 1 ->
  0 <= i < size_modulus ->
  next h i = Ok i' -> cl !! Z.to_nat i = Some i'.
Proof.
  intros Hc Hm Hi. unfold next, assert.
  destruct (i <? m_index_chain_size h); simpl; [|discriminate].
  rewrite Hc, Hm, land_lookup_mask by assumption.
  unfold buf_read. destruct (Z.ltb_spec i 0); [discriminate|].
  destruct (cl !! Z.to_nat i); [|discriminate]. congruence.
Qed.

Section Traversal.

Variables (h : hash_index) (bl cl : list Z).
Hypothesis Hwf : wf h.
Hypothesis Hb : m_hash_buckets h = Heap bl.
Hypothesis Hc : m_index_chain h = Heap cl.

Let Hfacts :
    Z.of_nat (length bl) = m_hash_buckets_size h
    /\ Z.of_nat (length cl) = m_index_chain_size h
    /\ m_lookup_mask h = size_modulus - 1
    /\ m_hash_mask h = m_hash_buckets_size h - 1
    /\ Forall is_index_value bl /\ Forall is_index_value cl.
Proof. destruct Hwf as [_ _ _ Hst]. rewrite Hb, Hc in Hst. exact Hst. Qed.

Lemma first_allocated (key : Z) :
  exists head,
    bl !! Z.to_nat (Z.land key (m_hash_mask h)) = Some head
    /\ first h key = Ok head /\ is_index_value head.
Proof.
  destruct Hfacts as (Hlb & Hlc & Hlm & Hm & Hvb & Hvc).
  pose proof (bucket_index_bound h bl key Hwf Hb) as Hk.
  destruct (lookup_lt_is_Some_2 bl (Z.to_nat (Z.land key (m_hash_mask h))))
    as [head Hhead]; [lia|].
  exists head. split; [assumption|]. split.
  - destruct Hwf as [[Hp Hbs] _ _ _]. apply is_power_of_two_pos in Hp.
    eapply first_Heap; eauto. lia.
  - exact (Forall_lookup_1 is_index_value bl _ _ Hvb Hhead).
Qed.

Lemma next_chain (i i' : Z) :
  0 <= i -> cl !! Z.to_nat i = Some i' -> next h i = Ok i'.
Proof.
  intros Hi Hl. destruct Hfacts as (Hlb & Hlc & Hlm & Hm & Hvb & Hvc).
  pose proof (lookup_lt_Some _ _ _ Hl).
  destruct Hwf as [_ Hcs _ _].
  eapply next_Heap; eauto; lia.
Qed.

Lemma positions_from_chain (fuel : nat) (i : Z) (l : list Z) :
  is_index_value i ->
  positions_from fuel h i = Ok l ->
  chain_from cl i l /\ (length l < fuel)%nat.
Proof.
  destruct Hfacts as (Hlb & Hlc & Hlm & Hm & Hvb & Hvc).
  revert i l. induction fuel as [|fuel IH]; intros i l Hi; simpl; [discriminate|].
  destruct (Z.eqb_spec i null_index) as [->|Hn].
  - intros [= <-]. split; [constructor|simpl; lia].
  - destruct (next h i) as [i'|] eqn:Hnext; simpl; [|discriminate].
    apply (next_inv h cl) in Hnext;
      [|assumption|assumption|apply is_index_value_size; assumption].
    destruct (positions_from fuel h i') as [l'|] eqn:Hrest; simpl; [|discriminate].
    intros [= <-].
    destruct (IH i' l') as [Hch Hlen];
      [exact (Forall_lookup_1 is_index_value cl _ _ Hvc Hnext)|assumption|].
    split; [|simpl; lia].
    apply (chain_from_step _ i i'); auto. destruct Hi. assumption.
Qed.

Lemma chain_positions_from (fuel : nat) (i : Z) (l : list Z) :
  chain_from cl i l -> (length l < fuel)%nat ->
  positions_from fuel h i = Ok l.
Proof.
  intros Hch. revert fuel.
  induction Hch as [|i i' l Hn Hi Hl H IH]; intros fuel Hlen;
    (destruct fuel as [|fuel]; [simpl in Hlen; lia|]); simpl.
  - reflexivity.
  - destruct (Z.eqb_spec i null_index); [contradiction|].
    rewrite (next_chain i i' Hi Hl). simpl.
    rewrite IH by (simpl in Hlen; lia). reflexivity.
Qed.

Lemma find_from_chain (fuel : nat) (pred : Z -> bool) (i : Z) (l : list Z) :
  chain_from cl i l -> (length l < fuel)%nat ->
  find_from fuel h pred i =
    Ok (match List.find pred l with Some p => p | None => null_index end).
Proof.
  intros Hch. revert fuel.
  induction Hch as [|i i' l Hn Hi Hl H IH]; intros fuel Hlen;
    (destruct fuel as [|fuel]; [simpl in Hlen; lia|]); simpl.
  - reflexivity.
  - destruct (Z.eqb_spec i null_index); [contradiction|].
    destruct (pred i); [reflexivity|].
    rewrite (next_chain i i' Hi Hl). simpl.
    apply IH. simpl in Hlen. lia.
Qed.

End Traversal.

Lemma find_eqb_In (p : Z) (l : list Z) :
  In p l -> List.find (Z.eqb p) l = Some p.
Proof.
  induction l as [|a l IH]; intros Hin; [destruct Hin|]. simpl.
  destruct (Z.eqb_spec p a) as [->|Hne]; [reflexivity|].
  apply IH. destruct Hin; [congruence|assumption].
Qed.

Lemma find_eqb_not_In (p : Z) (l : list Z) :
  ~ In p l -> List.find (Z.eqb p) l = None.
Proof.
  induction l as [|a l IH]; intros Hnin; [reflexivity|]. simpl.
  destruct (Z.eqb_spec p a) as [->|Hne]; [exfalso; apply Hnin; left; reflexivity|].
  apply IH. intros Hin. apply Hnin. right. assumption.
Qed.

Lemma reaches_chain (h : hash_index) (bl cl : list Z) (fuel : nat)
    (hash position head : Z) (l : list Z) :
  wf h -> m_hash_buckets h = Heap bl -> m_index_chain h = Heap cl ->
  bl !! Z.to_nat (Z.land hash (m_hash_mask h)) = Some head ->
  chain_from cl head l -> (length l < fuel)%nat ->
  In position l -> reaches fuel h hash position.
Proof.
  intros Hwf Hb Hc Hhead Hch Hlen Hin. unfold reaches, find.
  destruct (first_allocated h bl cl Hwf Hb Hc hash) as (head' & Hh' & Hfirst & _).
  rewrite Hhead in Hh'. injection Hh' as <-.
  rewrite Hfirst. simpl.
  rewrite (find_from_chain h bl cl Hwf Hb Hc fuel _ head l Hch Hlen).
  rewrite find_eqb_In by assumption. reflexivity.
Qed.

Lemma never_reaches_chain (h : hash_index) (bl cl : list Z) (fuel : nat)
    (hash position head : Z) (l : list Z) :
  wf h -> m_hash_buckets h = Heap bl -> m_index_chain h = Heap cl ->
  bl !! Z.to_nat (Z.land hash (m_hash_mask h)) = Some head ->
  chain_from cl head l -> (length l < fuel)%nat ->
  ~ In position l -> never_reaches fuel h hash position.
Proof.
  intros Hwf Hb Hc Hhead Hch Hlen Hin. unfold never_reaches, find.
  destruct (first_allocated h bl cl Hwf Hb Hc hash) as (head' & Hh' & Hfirst & _).
  rewrite Hhead in Hh'. injection Hh' as <-.
  rewrite Hfirst. simpl.
  rewrite (find_from_chain h bl cl Hwf Hb Hc fuel _ head l Hch Hlen).
  rewrite find_eqb_not_In by assumption. reflexivity.
Qed.
(** ** [erase] on a chain that ends *)

Lemma erase_walk_absent (cl : list Z) (fuel : nat) (i index : Z) (l : list Z) :
  chain_from cl i l -> ~ In index l -> index <> null_index ->
  (length l < fuel)%nat ->
  erase_walk fuel (Heap cl) i index = Ok (Heap cl).
Proof.
  intros Hch. revert fuel.
  induction Hch as [|i i' l Hn Hi Hl H IH]; intros fuel Hnin Hidx Hlen;
    (destruct fuel as [|fuel]; [simpl in Hlen; lia|]); simpl.
  - reflexivity.
  - destruct (Z.eqb_spec i null_index); [contradiction|].
    rewrite (buf_read_Heap cl i i' Hi Hl). simpl.
    destruct (Z.eqb_spec i' index) as [->|Hne].
    + exfalso. destruct (chain_from_head _ _ _ H) as [[? _]|[l' ->]];
        [contradiction|]. apply Hnin. right. left. reflexivity.
    + apply IH; [|assumption|simpl in Hlen; lia].
      intros Hin. apply Hnin. right. assumption.
Qed.

Lemma erase_walk_present (cl : list Z) (fuel : nat) (i index nxt : Z)
    (pre post : list Z) :
  chain_from cl i (pre ++ index :: post) -> pre <> [] ->
  cl !! Z.to_nat index = Some nxt ->
  (length pre <= fuel)%nat ->
  erase_walk fuel (Heap cl) i index =
    Ok (Heap (<[Z.to_nat (List.last pre 0) := nxt]> cl)).
Proof.
  revert i fuel. induction pre as [|a pre IH]; intros i fuel H Hne Hnxt Hlen;
    [congruence|].
  pose proof (chain_from_NoDup _ _ _ H) as Hnd.
  pose proof (chain_from_In cl i index _ H
                ltac:(apply in_or_app; right; left; reflexivity))
    as (_ & Hidx0 & _).
  simpl in H. inversion H as [|? i' ? Hn Hi Hl Hrest]; subst.
  destruct fuel as [|fuel]; [simpl in Hlen; lia|]. simpl.
  destruct (Z.eqb_spec a null_index); [contradiction|].
  rewrite (buf_read_Heap cl a i' Hi Hl). simpl.
  destruct pre as [|b pre].
  - simpl in Hrest. inversion Hrest; subst.
    rewrite Z.eqb_refl.
    rewrite (buf_read_Heap cl index nxt Hidx0 Hnxt). simpl.
    apply buf_write_Heap. apply lookup_lt_Some in Hl. lia.
  - simpl in Hrest. inversion Hrest; subst.
    destruct (Z.eqb_spec b index) as [->|Hbne].
    + exfalso. simpl in Hnd. apply List.NoDup_cons_iff in Hnd as [_ Hnd].
      apply List.NoDup_cons_iff in Hnd as [Hnin _]. apply Hnin.
      apply in_or_app. right. left. reflexivity.
    + change (List.last (a :: b :: pre) 0) with (List.last (b :: pre) 0).
      apply IH; [assumption|discriminate|assumption|simpl in *; lia].
Qed.

Section Erase.

Variables (h : hash_index) (bl cl : list Z) (key index head : Z).
Hypothesis Hwf : wf h.
Hypothesis Hb : m_hash_buckets h = Heap bl.
Hypothesis Hc : m_index_chain h = Heap cl.
Hypothesis Hhead : bl !! Z.to_nat (Z.land key (m_hash_mask h)) = Some head.

Lemma erase_absent (fuel : nat) (l : list Z) :
  0 <= index < m_index_chain_size h -> index <> null_index ->
  chain_from cl head l -> ~ In index l -> (length l < fuel)%nat ->
  erase fuel h key index =
    Ok (set_index_chain h (Heap (<[Z.to_nat index := null_index]> cl))).
Proof.
  intros Hidx Hn Hch Hnin Hlen.
  pose proof (bucket_index_bound h bl key Hwf Hb) as Hk.
  pose proof Hwf as [_ _ _ Hst]. rewrite Hb, Hc in Hst.
  destruct Hst as (_ & Hlc & _).
  unfold erase, assert, is_allocated. rewrite Hb, Hc.
  destruct (Z.ltb_spec index (m_index_chain_size h)); [|lia]. simpl.
  rewrite (buf_read_Heap bl (Z.land key (m_hash_mask h)) head ltac:(lia) Hhead).
  simpl.
  destruct (Z.eqb_spec head index) as [->|Hne].
  - exfalso. destruct (chain_from_head _ _ _ Hch) as [[? _]|[l' ->]];
      [contradiction|]. apply Hnin. left. reflexivity.
  - rewrite (erase_walk_absent cl fuel head index l) by assumption.
    simpl. rewrite buf_write_Heap by lia. reflexivity.
Qed.

Lemma erase_present (fuel : nat) (pre post : list Z) :
  chain_from cl head (pre ++ index :: post) -> (length pre <= fuel)%nat ->
  exists nxt,
    cl !! Z.to_nat index = Some nxt
    /\ erase fuel h key index = Ok (erased h bl cl key index nxt pre).
Proof.
  intros Hch Hlen.
  pose proof (bucket_index_bound h bl key Hwf Hb) as Hk.
  pose proof Hwf as [_ _ _ Hst]. rewrite Hb, Hc in Hst.
  destruct Hst as (_ & Hlc & _).
  pose proof (chain_from_NoDup _ _ _ Hch) as Hnd.
  destruct (chain_from_In cl head index _ Hch
              ltac:(apply in_or_app; right; left; reflexivity))
    as (Hn & Hidx0 & Hidxlen).
  destruct (lookup_lt_is_Some_2 cl (Z.to_nat index) Hidxlen) as [nxt Hnxt].
  exists nxt. split; [assumption|].
  unfold erase, assert, is_allocated. rewrite Hb, Hc.
  destruct (Z.ltb_spec index (m_index_chain_size h)); [|lia]. simpl.
  rewrite (buf_read_Heap bl (Z.land key (m_hash_mask h)) head ltac:(lia) Hhead).
  simpl.
  destruct pre as [|a pre].
  - simpl in Hch. inversion Hch; subst.
    rewrite Z.eqb_refl.
    rewrite (buf_read_Heap cl index nxt Hidx0 Hnxt). simpl.
    rewrite buf_write_Heap by lia. simpl. rewrite Hc.
    rewrite buf_write_Heap by lia. reflexivity.
  - assert (head = a) by (simpl in Hch; inversion Hch; reflexivity). subst a.
    destruct (Z.eqb_spec head index) as [->|Hne].
    + exfalso. simpl in Hnd. apply List.NoDup_cons_iff in Hnd as [Hnin _].
      apply Hnin. apply in_or_app. right. left. reflexivity.
    + rewrite (erase_walk_present cl fuel head index nxt (head :: pre) post)
        by (assumption || discriminate).
      simpl bind. unfold set_index_chain at 2. simpl m_index_chain.
      rewrite buf_write_Heap by (rewrite length_insert; lia).
      reflexivity.
Qed.

End Erase.
Lemma last_In (a : Z) (l : list Z) : In (List.last (a :: l) 0) (a :: l).
Proof.
  revert a. induction l as [|b l IH]; intros a; [left; reflexivity|].
  right. apply IH.
Qed.

Lemma remove_middle (index : Z) (pre post : list Z) :
  ~ In index pre -> ~ In index post ->
  List.remove Z.eq_dec index (pre ++ index :: post) = pre ++ post.
Proof.
  intros Hpre Hpost. rewrite remove_app. simpl.
  destruct (Z.eq_dec index index); [|contradiction].
  rewrite !notin_remove by assumption. reflexivity.
Qed.

Lemma NoDup_middle (index : Z) (pre post : list Z) :
  List.NoDup (pre ++ index :: post) -> ~ In index pre /\ ~ In index post.
Proof.
  intros Hnd. apply List.NoDup_remove_2 in Hnd.
  rewrite in_app_iff in Hnd. tauto.
Qed.

Section Erased.

Variables (h : hash_index) (bl cl : list Z) (key index head nxt : Z).
Variables (pre post : list Z).
Hypothesis Hwf : wf h.
Hypothesis Hb : m_hash_buckets h = Heap bl.
Hypothesis Hc : m_index_chain h = Heap cl.
Hypothesis Hhead : bl !! Z.to_nat (Z.land key (m_hash_mask h)) = Some head.
Hypothesis Hch : chain_from cl head (pre ++ index :: post).
Hypothesis Hnxt : cl !! Z.to_nat index = Some nxt.

Lemma erased_wf : wf (erased h bl cl key index nxt pre).
Proof.
  destruct Hwf as [Hbs Hcs Hg Hst]. rewrite Hb, Hc in Hst.
  destruct Hst as (Hlb & Hlc & Hlm & Hm & Hvb & Hvc).
  assert (Hvn : is_index_value nxt)
    by exact (Forall_lookup_1 is_index_value cl _ _ Hvc Hnxt).
  unfold erased.
  destruct pre as [|a pre']; split; simpl; try assumption; rewrite ?Hb.
  - rewrite !length_insert. do 4 (split; [assumption|]). split.
    + apply Forall_insert; assumption.
    + apply Forall_insert; [assumption|exact is_index_value_null].
  - rewrite !length_insert. do 4 (split; [assumption|]).
    split; [assumption|].
    apply Forall_insert; [|exact is_index_value_null].
    apply Forall_insert; assumption.
Qed.

(** The chain of the bucket of [key] no longer has [index]. *)
Lemma erased_chain :
  exists bl' cl' head',
    m_hash_buckets (erased h bl cl key index nxt pre) = Heap bl'
    /\ m_index_chain (erased h bl cl key index nxt pre) = Heap cl'
    /\ bl' !! Z.to_nat (Z.land key (m_hash_mask h)) = Some head'
    /\ chain_from cl' head' (pre ++ post)
    /\ (forall j : nat,
          j <> Z.to_nat (Z.land key (m_hash_mask h)) -> bl' !! j = bl !! j)
    /\ (forall (i : Z) (l : list Z),
          chain_from cl i l -> ~ In index l ->
          (forall q, In q pre -> ~ In q l) ->
          chain_from cl' i l).
Proof.
  pose proof (chain_from_In cl head index _ Hch
                ltac:(apply in_or_app; right; left; reflexivity))
    as (_ & Hidx0 & _).
  unfold erased. destruct pre as [|a pre'] eqn:Hpre.
  - eexists _, _, nxt. simpl.
    split; [reflexivity|]. split; [reflexivity|].
    split; [apply list_lookup_insert_eq; eapply lookup_lt_Some; eassumption|].
    simpl in Hch.
    assert (head = index) by (inversion Hch; reflexivity). subst head.
    destruct (chain_from_unlink_head cl index post Hch) as (nxt' & Hn' & Hrest).
    rewrite Hnxt in Hn'. injection Hn' as <-.
    split; [assumption|].
    split; [intros j Hj; apply list_lookup_insert_ne; congruence|].
    intros i l Hl Hnin _. apply chain_from_insert; assumption.
  - exists bl,
      (<[Z.to_nat index := null_index]>
         (<[Z.to_nat (List.last (a :: pre') 0) := nxt]> cl)),
      head.
    split; [exact Hb|]. split; [reflexivity|].
    split; [assumption|].
    split; [apply (chain_from_unlink cl head index nxt (a :: pre') post);
            [assumption|discriminate|assumption]|].
    split; [reflexivity|].
    intros i l Hl Hnin Hq.
    apply chain_from_insert; [|assumption|assumption].
    apply chain_from_insert; [assumption| |apply Hq, last_In].
    eapply (chain_from_In cl head _ _ Hch).
    apply in_or_app. left. apply last_In.
Qed.

End Erased.

(** ** C3: [erase] of a position that the bucket does not hold *)

(** C3 (as the code has it): on an allocated object, when the traversal of
    the bucket of [hash] ends at the sentinel without meeting [position]
    (a position within the chain capacity), [erase(hash, position)] returns
    and changes nothing but the chain slot of [position], which it sets to
    [null_index]; the object is unchanged exactly when that slot already
    held [null_index]. *)
Theorem C3_erase_absent_resets_slot
    (fuel : nat) (h : hash_index) (hash position : Z) (l : list Z) :
  wf h -> is_allocated h = true ->
  0 <= position < index_chain_size h -> position <> null_index ->
  positions fuel h hash = Ok l -> ~ In position l ->
  exists cl,
    m_index_chain h = Heap cl
    /\ erase fuel h hash position =
       Ok (set_index_chain h
             (Heap (<[Z.to_nat position := null_index]> cl)))
    /\ (erase fuel h hash position = Ok h <->
        next h position = Ok null_index).
Proof.
  intros Hwf Ha Hpos Hn Hl Hnin.
  destruct (wf_allocated h Hwf Ha) as (bl & cl & Hb & Hc & Hlb & Hlc & Hlm & _).
  destruct (first_allocated h bl cl Hwf Hb Hc hash) as (head & Hhead & Hfirst & Hv).
  unfold positions in Hl. rewrite Hfirst in Hl. simpl in Hl.
  destruct (positions_from_chain h bl cl Hwf Hb Hc fuel head l Hv Hl)
    as [Hch Hlen].
  pose proof (erase_absent h bl cl hash position head Hwf Hb Hc Hhead
                fuel l Hpos Hn Hch Hnin Hlen) as Herase.
  exists cl. split; [assumption|]. split; [assumption|].
  unfold index_chain_size in Hpos. rewrite Herase. split.
  - intros [= Heq]. apply (f_equal m_index_chain) in Heq.
    simpl in Heq. rewrite Hc in Heq. injection Heq as Heq.
    apply (next_chain h bl cl Hwf Hb Hc); [lia|].
    assert (Hset : <[Z.to_nat position := null_index]> cl
                     !! Z.to_nat position = Some null_index)
      by (apply list_lookup_insert_eq; lia).
    congruence.
  - intros Hnext. f_equal.
    apply (next_inv h cl) in Hnext;
      [|assumption|assumption|destruct Hwf as [_ Hcs _ _]; lia].
    rewrite list_insert_id by assumption.
    unfold set_index_chain. rewrite <- Hc. destruct h; reflexivity.
Qed.
Lemma C3_erase_absent_resets_slot_witness :
  exists h cl,
    (let* h0 := hash_index_sized 4 4 in run 0 h0 [Insert 0 0; Insert 5 1]) = Ok h
    /\ m_index_chain h = Heap cl
    /\ erase 3 h 0 1 =
       Ok (set_index_chain h (Heap (<[Z.to_nat 1 := null_index]> cl)))
    /\ (erase 3 h 0 1 = Ok h <-> next h 1 = Ok null_index).
Proof.
  eexists.
  match goal with
  | |- exists cl, ?run = Ok ?h /\ _ =>
      let r := eval vm_compute in run in
      match r with
      | Ok ?s =>
          unify h s;
          destruct (C3_erase_absent_resets_slot 3 s 0 1 [0]) as (cl & H)
      end
  end.
  - wf_concrete.
  - reflexivity.
  - vm_compute. intuition congruence.
  - vm_compute. congruence.
  - vm_compute. reflexivity.
  - simpl. intros [H|[]]. discriminate H.
  - exists cl. split; [vm_compute; reflexivity|exact H].
Defined.

(** C3, as announced, fails: on [hash_index(4, 4)] after [insert(0, 0)] and
    [insert(0, 1)], position 1 is not in the (empty) chain of bucket 1, yet
    [erase(1, 1)] changes slot 1 from 0 to [null_index], after which the
    traversal of bucket 0 no longer reaches position 0. *)
Lemma C3_counterexample :
  exists h h',
    (let* h0 := hash_index_sized 4 4 in run 0 h0 [Insert 0 0; Insert 0 1]) = Ok h
    /\ is_allocated h = true
    /\ 1 < index_chain_size h
    /\ positions 3 h 1 = Ok []
    /\ erase 3 h 1 1 = Ok h'
    /\ h' <> h
    /\ next h 1 = Ok 0 /\ next h' 1 = Ok null_index
    /\ reaches 3 h 0 0 /\ never_reaches 3 h' 0 0.
Proof.
  eexists _, _.
  split; [vm_compute; reflexivity|].
  split; [reflexivity|]. split; [reflexivity|]. split; [reflexivity|].
  split; [vm_compute; reflexivity|].
  split; [discriminate|].
  repeat split.
Qed.

(** ** C8: [erase] of a position that the bucket holds *)

(** C8 (as the code has it): on an allocated object, when the traversal of
    the bucket of [hash] ends at the sentinel (the chain is not cyclic) and
    meets [position], [erase(hash, position)] returns, and afterwards the
    traversal visits the same positions without [position] and ends at the
    sentinel: it never reaches [position]. *)
Theorem C8_erase_unlinks_position
    (fuel : nat) (h : hash_index) (hash position : Z) (l : list Z) :
  wf h -> is_allocated h = true ->
  positions fuel h hash = Ok l -> In position l ->
  exists h',
    erase fuel h hash position = Ok h'
    /\ positions fuel h' hash = Ok (List.remove Z.eq_dec position l)
    /\ never_reaches fuel h' hash position.
Proof.
  intros Hwf Ha Hl Hin.
  destruct (wf_allocated h Hwf Ha) as (bl & cl & Hb & Hc & _).
  destruct (first_allocated h bl cl Hwf Hb Hc hash) as (head & Hhead & Hfirst & Hv).
  unfold positions in Hl. rewrite Hfirst in Hl. simpl in Hl.
  destruct (positions_from_chain h bl cl Hwf Hb Hc fuel head l Hv Hl)
    as [Hch Hlen].
  destruct (in_split _ _ Hin) as (pre & post & ->).
  destruct (NoDup_middle _ _ _ (chain_from_NoDup _ _ _ Hch)) as [Hpre Hpost].
  rewrite length_app in Hlen. simpl in Hlen.
  destruct (erase_present h bl cl hash position head Hwf Hb Hc Hhead
              fuel pre post Hch ltac:(lia)) as (nxt & Hnxt & Herase).
  pose proof (erased_wf h bl cl hash position head nxt pre post
                Hwf Hb Hc Hch Hnxt) as Hwf'.
  destruct (erased_chain h bl cl hash position head nxt pre post
              Hb Hhead Hch Hnxt)
    as (bl' & cl' & head' & Hb' & Hc' & Hhead' & Hch' & _).
  set (h' := erased h bl cl hash position nxt pre) in *.
  assert (Hmask : m_hash_mask h' = m_hash_mask h)
    by (unfold h', erased; destruct pre; reflexivity).
  rewrite <- Hmask in Hhead'.
  assert (Hlen' : (length (pre ++ post) < fuel)%nat)
    by (rewrite length_app; lia).
  exists h'. split; [assumption|]. split.
  - destruct (first_allocated h' bl' cl' Hwf' Hb' Hc' hash)
      as (head'' & Hh'' & Hfirst' & _).
    rewrite Hhead' in Hh''. injection Hh'' as <-.
    unfold positions. rewrite Hfirst'. simpl.
    rewrite remove_middle by assumption.
    apply (chain_positions_from h' bl' cl' Hwf' Hb' Hc'); assumption.
  - apply (never_reaches_chain h' bl' cl' fuel hash position head' (pre ++ post));
      try assumption.
    rewrite in_app_iff. tauto.
Qed.

Lemma C8_erase_unlinks_position_witness :
  exists h h',
    (let* h0 := hash_index_sized 4 4 in
     run 0 h0 [Insert 0 0; Insert 4 1; Insert 8 2]) = Ok h
    /\ erase 4 h 4 1 = Ok h'
    /\ positions 4 h' 4 = Ok (List.remove Z.eq_dec 1 [2; 1; 0])
    /\ never_reaches 4 h' 4 1.
Proof.
  eexists.
  match goal with
  | |- exists h', ?run = Ok ?h /\ _ =>
      let r := eval vm_compute in run in
      match r with
      | Ok ?s =>
          unify h s;
          destruct (C8_erase_unlinks_position 4 s 4 1 [2; 1; 0]) as (h' & H)
      end
  end.
  - wf_concrete.
  - reflexivity.
  - vm_compute. reflexivity.
  - simpl. tauto.
  - exists h'. split; [vm_compute; reflexivity|exact H].
Defined.

(** C8, as announced, fails: on [hash_index(4, 4)] after [insert(0, 0)]
    twice, slot 0 points to itself; position 0 is in the chain of bucket 0,
    and after [erase(0, 0)] the head of bucket 0 is still 0, so that the
    traversal reaches position 0 at once. *)
Lemma C8_counterexample :
  exists h h',
    (let* h0 := hash_index_sized 4 4 in run 0 h0 [Insert 0 0; Insert 0 0]) = Ok h
    /\ is_allocated h = true
    /\ first h 0 = Ok 0 /\ next h 0 = Ok 0
    /\ (forall fuel : nat, reaches (S fuel) h 0 0)
    /\ (forall fuel : nat, erase fuel h 0 0 = Ok h')
    /\ first h' 0 = Ok 0
    /\ (forall fuel : nat, reaches (S fuel) h' 0 0)
    /\ (forall fuel : nat, ~ never_reaches fuel h' 0 0).
Proof.
  eexists _, _.
  split; [vm_compute; reflexivity|].
  split; [reflexivity|]. split; [reflexivity|]. split; [reflexivity|].
  split; [intros fuel; reflexivity|].
  split; [intros fuel; vm_compute; reflexivity|].
  split; [reflexivity|].
  split; [intros fuel; reflexivity|].
  intros [|fuel]; discriminate.
Qed.
(** ** Objects used with discipline *)

Lemma stored_key_unique (stored : list (Z * Z)) (k1 k2 p : Z) :
  List.NoDup (map snd stored) ->
  In (k1, p) stored -> In (k2, p) stored -> k1 = k2.
Proof.
  induction stored as [|[k q] stored IH]; intros Hnd H1 H2; [destruct H1|].
  simpl in Hnd. apply List.NoDup_cons_iff in Hnd as [Hnin Hnd].
  destruct H1 as [[= -> ->]|H1], H2 as [[= <-]|H2].
  - reflexivity.
  - exfalso. apply Hnin. apply (in_map snd) in H2. exact H2.
  - subst. exfalso. apply Hnin. apply (in_map snd) in H1. exact H1.
  - auto.
Qed.

Lemma consistent_init (b c : Z) (h : hash_index) :
  b < size_modulus -> 0 <= c < size_modulus ->
  hash_index_sized b c = Ok h -> consistent h [].
Proof.
  intros Hb Hc Hinit.
  pose proof (wf_internal_init b c h Hb Hc Hinit) as Hwf.
  unfold hash_index_sized, internal_init, assert in Hinit.
  destruct (is_power_of_two b) eqn:Hp; simpl in Hinit; [|discriminate].
  injection Hinit as <-. apply is_power_of_two_pos in Hp.
  split; [assumption|]. simpl.
  split; [vm_compute; discriminate|].
  split; [apply wrap_size_small; lia|].
  split; [constructor|]. split; [intros ? ? []|reflexivity].
Qed.

Lemma consistent_insert (h : hash_index) (stored : list (Z * Z))
    (key index : Z) :
  consistent h stored ->
  0 <= index < null_index -> ~ In index (map snd stored) ->
  exists h',
    insert h key index = Ok h' /\ consistent h' ((key, index) :: stored).
Proof.
  intros (Hwf & Hg & Hmask & Hnd & Hrange & Hchains) Hidx Hfresh.
  assert (Hnd' : List.NoDup (map snd ((key, index) :: stored))).
  { simpl. constructor; assumption. }
  assert (Hrange' : forall k p, In (k, p) ((key, index) :: stored) ->
                                0 <= p < null_index).
  { intros k p [[= <- <-]|Hin]; [assumption|eauto]. }
  destruct (is_allocated h) eqn:Ha.
  - (* already allocated *)
    destruct (wf_allocated h Hwf Ha)
      as (bl & cl & Hb & Hc & Hlb & Hlc & Hlm & _ & Hvb & Hvc).
    rewrite Hb, Hc in Hchains.
    assert (Hov : index + 1 + m_granularity h < size_modulus)
      by (unfold null_index in Hidx; lia).
    destruct (insert_allocated h bl cl key index Hwf Hb Hc Hidx Hov)
      as (head & Hhead & Hins).
    destruct (insert_allocated_wf h _ key index Hwf Ha Hidx Hov Hins)
      as [Hwf' _].
    pose proof (capacity_after_insert_bounds h index Hwf ltac:(lia) Hov)
      as [Hcap Hlt].
    eexists. split; [exact Hins|].
    split; [exact Hwf'|]. simpl.
    do 2 (split; [assumption|]). do 2 (split; [assumption|]).
    set (cl' := <[Z.to_nat index := head]> (cl ++ _)).
    assert (Hframe : forall i l, chain_from cl i l -> ~ In index l ->
                                 chain_from cl' i l).
    { intros i l Hl Hnin. apply chain_from_insert; [|lia|assumption].
      apply chain_from_app. assumption. }
    intros j head' Hj.
    destruct (Nat.eq_dec j (Z.to_nat (Z.land key (m_hash_mask h)))) as [->|Hne].
    + rewrite list_lookup_insert_eq in Hj by (eapply lookup_lt_Some; eassumption).
      injection Hj as <-.
      destruct (Hchains _ _ Hhead) as (l & Hl & Hmem).
      assert (Hnin : ~ In index l).
      { intros Hin. apply Hmem in Hin as (k & Hin & _).
        apply Hfresh. apply (in_map snd) in Hin. exact Hin. }
      exists (index :: l). split.
      * apply (chain_from_step _ index head); [unfold null_index in *; lia|lia| |auto].
        apply list_lookup_insert_eq.
        rewrite length_app, length_replicate. lia.
      * intros p. simpl. rewrite Hmem. unfold bucket_of. simpl. split.
        -- intros [<-|(k & Hin & Hk)]; eauto.
        -- intros (k & [[= <- <-]|Hin] & Hk); eauto.
    + rewrite list_lookup_insert_ne in Hj by congruence.
      destruct (Hchains _ _ Hj) as (l & Hl & Hmem).
      assert (Hnin : ~ In index l).
      { intros Hin. apply Hmem in Hin as (k & Hin & _).
        apply Hfresh. apply (in_map snd) in Hin. exact Hin. }
      exists l. split; [auto|].
      intros p. rewrite Hmem. unfold bucket_of. simpl. split.
      * intros (k & Hin & Hk); eauto.
      * intros (k & [[= <- <-]|Hin] & Hk); [congruence|eauto].
  - (* first insertion *)
    assert (Hempty : stored = []).
    { unfold is_allocated in Ha. destruct (m_hash_buckets h); [|discriminate].
      assumption. }
    subst stored.
    pose proof (insert_unallocated h key index Hwf Ha Hidx) as Hins.
    destruct (insert_unallocated_wf h _ key index Hwf Ha Hidx Hins) as [Hwf' _].
    destruct Hwf as [[Hp Hbs] Hcs _ _].
    pose proof (is_power_of_two_pos _ Hp) as Hpos.
    pose proof (land_mask_bound key (m_hash_buckets_size h - 1) ltac:(lia)) as Hk.
    eexists. split; [exact Hins|].
    split; [exact Hwf'|]. simpl.
    split; [assumption|]. split; [reflexivity|]. do 2 (split; [assumption|]).
    intros j head' Hj.
    destruct (Nat.eq_dec j (Z.to_nat (Z.land key (m_hash_buckets_size h - 1))))
      as [->|Hne].
    + rewrite list_lookup_insert_eq in Hj by (rewrite length_replicate; lia).
      injection Hj as <-.
      exists [index]. split.
      * apply (chain_from_step _ index null_index);
          [unfold null_index in *; lia|lia| |constructor].
        apply list_lookup_insert_eq. rewrite length_replicate.
        destruct (Z.geb_spec index (m_index_chain_size h)); lia.
      * intros p. unfold bucket_of. simpl. split.
        -- intros [<-|[]]. eauto.
        -- intros (k & [[= <- <-]|[]] & _). auto.
    + rewrite list_lookup_insert_ne in Hj by congruence.
      apply lookup_replicate in Hj as [-> _].
      exists []. split; [constructor|].
      intros p. unfold bucket_of. simpl. split; [intros []|].
      intros (k & [[= <- <-]|[]] & Hbk). congruence.
Qed.

Lemma same_pair_true (a b : Z * Z) : same_pair a b = true <-> a = b.
Proof.
  destruct a as [a1 a2], b as [b1 b2]. unfold same_pair. simpl.
  rewrite andb_true_iff, !Z.eqb_eq. split; [intros [-> ->]|intros [= -> ->]]; auto.
Qed.

Lemma In_without (stored : list (Z * Z)) (key index k p : Z) :
  List.NoDup (map snd stored) -> In (key, index) stored ->
  In (k, p) (List.filter (fun q => negb (same_pair q (key, index))) stored)
  <-> In (k, p) stored /\ p <> index.
Proof.
  intros Hnd Hin. rewrite filter_In, negb_true_iff.
  split; intros [H1 H2]; (split; [assumption|]).
  - intros ->.
    assert (k = key) by (eapply stored_key_unique; eassumption). subst.
    assert (same_pair (key, index) (key, index) = true)
      by (apply same_pair_true; reflexivity).
    congruence.
  - destruct (same_pair (k, p) (key, index)) eqn:E; [|reflexivity].
    apply same_pair_true in E. congruence.
Qed.

Lemma NoDup_map_snd_filter (f : Z * Z -> bool) (stored : list (Z * Z)) :
  List.NoDup (map snd stored) ->
  List.NoDup (map snd (List.filter f stored)).
Proof.
  induction stored as [|a stored IH]; intros Hnd; [assumption|].
  simpl in *. apply List.NoDup_cons_iff in Hnd as [Hnin Hnd].
  destruct (f a); simpl; [|auto].
  constructor; [|auto].
  intros Hin. apply Hnin.
  apply in_map_iff in Hin as (x & Hx & Hin).
  apply filter_In in Hin as [Hin _].
  apply in_map_iff. eauto.
Qed.

Lemma chain_length_stored (stored : list (Z * Z)) (l : list Z) :
  List.NoDup l -> (forall p, In p l -> exists key, In (key, p) stored) ->
  (length l <= length stored)%nat.
Proof.
  intros Hnd Hsub. rewrite <- (length_map snd stored).
  apply List.NoDup_incl_length; [assumption|].
  intros p Hp. destruct (Hsub p Hp) as (key & Hin).
  apply (in_map snd) in Hin. exact Hin.
Qed.

Lemma consistent_erase (fuel : nat) (h : hash_index)
    (stored : list (Z * Z)) (key index : Z) :
  consistent h stored -> In (key, index) stored ->
  (length stored <= fuel)%nat ->
  exists h',
    erase fuel h key index = Ok h'
    /\ consistent h'
         (List.filter (fun q => negb (same_pair q (key, index))) stored).
Proof.
  intros (Hwf & Hg & Hmask & Hnd & Hrange & Hchains) Hin Hfuel.
  assert (Ha : is_allocated h = true).
  { unfold is_allocated. destruct (m_hash_buckets h); [|reflexivity].
    rewrite Hchains in Hin. destruct Hin. }
  destruct (wf_allocated h Hwf Ha) as (bl & cl & Hb & Hc & _).
  rewrite Hb, Hc in Hchains.
  destruct (first_allocated h bl cl Hwf Hb Hc key) as (head & Hhead & _ & _).
  destruct (Hchains _ _ Hhead) as (l & Hl & Hmem).
  assert (Hinl : In index l) by (apply Hmem; eauto).
  destruct (in_split _ _ Hinl) as (pre & post & ->).
  pose proof (chain_from_NoDup _ _ _ Hl) as Hndl.
  destruct (NoDup_middle _ _ _ Hndl) as [Hpre Hpost].
  assert (Hlen : (length (pre ++ index :: post) <= length stored)%nat).
  { apply chain_length_stored; [assumption|].
    intros p Hp. apply Hmem in Hp as (k & Hk & _). eauto. }
  rewrite length_app in Hlen. simpl in Hlen.
  destruct (erase_present h bl cl key index head Hwf Hb Hc Hhead
              fuel pre post Hl ltac:(lia)) as (nxt & Hnxt & Herase).
  pose proof (erased_wf h bl cl key index head nxt pre post
                Hwf Hb Hc Hl Hnxt) as Hwf'.
  destruct (erased_chain h bl cl key index head nxt pre post
              Hb Hhead Hl Hnxt)
    as (bl' & cl' & head' & Hb' & Hc' & Hhead' & Hch' & Hother & Hframe).
  set (h' := erased h bl cl key index nxt pre) in *.
  assert (Hfields : m_hash_mask h' = m_hash_mask h
                    /\ m_granularity h' = m_granularity h
                    /\ m_hash_buckets_size h' = m_hash_buckets_size h)
    by (unfold h', erased; destruct pre; repeat split).
  destruct Hfields as (Hm' & Hg' & Hs').
  exists h'. split; [assumption|].
  split; [assumption|]. rewrite Hm', Hg', Hs', Hb', Hc'.
  do 2 (split; [assumption|]).
  split; [apply NoDup_map_snd_filter; assumption|].
  split; [intros k p [Hk _]%filter_In; eauto|].
  intros j hd Hj. unfold bucket_of. rewrite Hm'.
  destruct (Nat.eq_dec j (Z.to_nat (Z.land key (m_hash_mask h)))) as [->|Hne].
  - rewrite Hhead' in Hj. injection Hj as <-.
    exists (pre ++ post). split; [assumption|].
    intros p. split.
    + intros Hp.
      assert (Hp' : In p (pre ++ index :: post) /\ p <> index).
      { rewrite in_app_iff in *. simpl. split; [tauto|]. intros ->. tauto. }
      destruct Hp' as [Hp' Hpi]. apply Hmem in Hp' as (k & Hk & Hbk).
      exists k. split; [|exact Hbk]. apply In_without; auto.
    + intros (k & Hk & Hbk). apply In_without in Hk as [Hk Hpi]; [|assumption..].
      assert (Hp : In p (pre ++ index :: post)) by (apply Hmem; eauto).
      rewrite in_app_iff in *. simpl in Hp. destruct Hp as [?|[?|?]]; auto.
      congruence.
  - rewrite Hother in Hj by assumption.
    destruct (Hchains _ _ Hj) as (l' & Hl' & Hmem').
    assert (Hdisj : forall q, In q (pre ++ index :: post) -> ~ In q l').
    { intros q Hq Hq'. apply Hmem in Hq as (k1 & Hk1 & Hb1).
      apply Hmem' in Hq' as (k2 & Hk2 & Hb2).
      assert (k1 = k2) by (eapply stored_key_unique; eassumption). subst k2.
      unfold bucket_of in *. congruence. }
    exists l'. split.
    + apply Hframe; [assumption| |].
      * apply Hdisj. apply in_or_app. right. left. reflexivity.
      * intros q Hq. apply Hdisj. apply in_or_app. left. assumption.
    + intros p. rewrite Hmem'. unfold bucket_of. split.
      * intros (k & Hk & Hbk). exists k. split; [|exact Hbk].
        apply In_without; auto. split; [assumption|].
        intros ->.
        assert (k = key) by (eapply stored_key_unique; eassumption). subst k.
        congruence.
      * intros (k & Hk & Hbk). apply In_without in Hk as [Hk _]; eauto.
Qed.

Lemma consistent_run (fuel : nat) (ops : list operation)
    (h : hash_index) (stored : list (Z * Z)) :
  consistent h stored -> disciplined stored ops ->
  (length stored + length ops <= fuel)%nat ->
  exists h',
    run fuel h ops = Ok h' /\ consistent h' (stored_after stored ops).
Proof.
  revert h stored. induction ops as [|op ops IH]; intros h stored Hcons Hd Hlen.
  - exists h. split; [reflexivity|assumption].
  - destruct op as [key index|key index]; simpl in Hd, Hlen.
    + destruct Hd as (Hidx & Hfresh & Hd).
      destruct (consistent_insert h stored key index Hcons Hidx Hfresh)
        as (h1 & Hins & Hcons1).
      destruct (IH h1 _ Hcons1 Hd) as (h' & Hrun & Hcons');
        [simpl; lia|].
      exists h'. simpl. rewrite Hins. simpl. auto.
    + destruct Hd as (Hin & Hd).
      destruct (consistent_erase fuel h stored key index Hcons Hin ltac:(lia))
        as (h1 & Herase & Hcons1).
      destruct (IH h1 _ Hcons1 Hd) as (h' & Hrun & Hcons').
      { pose proof (filter_length_le
                      (fun q => negb (same_pair q (key, index))) stored).
        lia. }
      exists h'. simpl. rewrite Herase. simpl. auto.
Qed.

Lemma consistent_reaches (fuel : nat) (h : hash_index)
    (stored : list (Z * Z)) (hash position : Z) :
  consistent h stored -> (length stored < fuel)%nat ->
  In (hash, position) stored -> reaches fuel h hash position.
Proof.
  intros (Hwf & Hg & Hmask & Hnd & Hrange & Hchains) Hfuel Hin.
  assert (Ha : is_allocated h = true).
  { unfold is_allocated. destruct (m_hash_buckets h); [|reflexivity].
    rewrite Hchains in Hin. destruct Hin. }
  destruct (wf_allocated h Hwf Ha) as (bl & cl & Hb & Hc & _).
  rewrite Hb, Hc in Hchains.
  destruct (first_allocated h bl cl Hwf Hb Hc hash) as (head & Hhead & _ & _).
  destruct (Hchains _ _ Hhead) as (l & Hl & Hmem).
  assert (Hlen : (length l <= length stored)%nat).
  { apply chain_length_stored;
      [eapply chain_from_NoDup; eassumption|].
    intros p Hp. apply Hmem in Hp as (k & Hk & _). eauto. }
  apply (reaches_chain h bl cl fuel hash position head l); try assumption.
  - lia.
  - apply Hmem. eauto.
Qed.
Lemma stored_after_length (ops : list operation) (stored : list (Z * Z)) :
  (length (stored_after stored ops) <= length stored + length ops)%nat.
Proof.
  revert stored. induction ops as [|[key index|key index] ops IH];
    intros stored; simpl.
  - lia.
  - specialize (IH ((key, index) :: stored)). simpl in IH. lia.
  - specialize (IH (List.filter
                      (fun q => negb (same_pair q (key, index))) stored)).
    pose proof (filter_length_le
                  (fun q => negb (same_pair q (key, index))) stored).
    lia.
Qed.

(** ** C1: stored pairs are reached *)

(** C1 (as the code has it): start from [hash_index(b, c)] and apply
    insertions and erasures such that a position is inserted only while it
    is not stored and every [erase] names a stored pair.  All the calls
    return, and for every pair (hash, position) inserted and not erased
    afterwards the traversal from [first(hash)] along [next] reaches
    [position] before the sentinel. *)
Theorem C1_stored_pairs_are_reached
    (b c : Z) (h0 : hash_index) (ops : list operation) (fuel : nat) :
  hash_index_sized b c = Ok h0 ->
  b < size_modulus -> 0 <= c < size_modulus ->
  disciplined [] ops -> (length ops < fuel)%nat ->
  exists h,
    run fuel h0 ops = Ok h
    /\ forall hash position,
         In (hash, position) (stored_after [] ops) ->
         reaches fuel h hash position.
Proof.
  intros Hinit Hb Hc Hd Hfuel.
  pose proof (consistent_init b c h0 Hb Hc Hinit) as Hcons.
  destruct (consistent_run fuel ops h0 [] Hcons Hd ltac:(simpl; lia))
    as (h & Hrun & Hcons').
  exists h. split; [assumption|].
  intros hash position Hin.
  apply (consistent_reaches fuel h (stored_after [] ops)); try assumption.
  pose proof (stored_after_length ops []). simpl in *. lia.
Qed.

Lemma C1_stored_pairs_are_reached_witness :
  exists h0 h,
    hash_index_sized 4 2 = Ok h0
    /\ run 6 h0
         [Insert 0 0; Insert 4 1; Insert 7 2; Erase 4 1; Insert 8 1] = Ok h
    /\ forall hash position,
         In (hash, position)
           (stored_after []
              [Insert 0 0; Insert 4 1; Insert 7 2; Erase 4 1; Insert 8 1]) ->
         reaches 6 h hash position.
Proof.
  eexists.
  destruct (C1_stored_pairs_are_reached 4 2 _
              [Insert 0 0; Insert 4 1; Insert 7 2; Erase 4 1; Insert 8 1] 6
              eq_refl) as (h & Hrun & Hreach).
  - vm_compute. reflexivity.
  - vm_compute. intuition congruence.
  - simpl. unfold null_index, index_modulus.
    repeat split; try lia; intuition (try discriminate; try lia).
  - simpl. lia.
  - exists h. split; [reflexivity|]. split; [exact Hrun|exact Hreach].
Defined.

(** C1, as announced, fails: on [hash_index(4, 4)], after [insert(0, 0)],
    [insert(0, 1)] and [insert(1, 1)], the pair (0, 0) has been inserted and
    never erased, but the second insertion of position 1 has cut the chain
    of bucket 0 after position 1: the traversal from [first(0)] meets the
    sentinel without reaching position 0. *)
Lemma C1_counterexample :
  exists h0 h,
    hash_index_sized 4 4 = Ok h0
    /\ run 0 h0 [Insert 0 0; Insert 0 1; Insert 1 1] = Ok h
    /\ In (0, 0) (stored_after [] [Insert 0 0; Insert 0 1; Insert 1 1])
    /\ first h 0 = Ok 1 /\ next h 1 = Ok null_index
    /\ (forall fuel : nat, never_reaches (2 + fuel) h 0 0)
    /\ (forall fuel : nat, ~ reaches fuel h 0 0).
Proof.
  eexists _, _.
  split; [reflexivity|].
  split; [vm_compute; reflexivity|].
  split; [simpl; tauto|].
  split; [reflexivity|]. split; [reflexivity|].
  split; [intros fuel; reflexivity|].
  intros [|[|fuel]]; discriminate.
Qed.

(** * Further properties of the class *)

(** ** Power-of-two bucket counts and the hash mask *)

Lemma is_power_of_two_spec (n : Z) :
  is_power_of_two n = true <-> exists k, 0 <= k /\ n = 2 ^ k.
Proof.
  unfold is_power_of_two. rewrite andb_true_iff, Z.ltb_lt, Z.eqb_eq. split.
  - intros [Hpos Hland].
    exists (Z.log2 n). split; [apply Z.log2_nonneg|].
    destruct (Z.log2_spec n Hpos) as [Hlo Hhi].
    destruct (Z.eq_dec n (2 ^ Z.log2 n)) as [|Hne]; [assumption|exfalso].
    assert (Hlog : Z.log2 (n - 1) = Z.log2 n).
    { apply Z.log2_unique; [apply Z.log2_nonneg|].
      rewrite <- Z.add_1_r. lia. }
    assert (Hbit : Z.testbit (Z.land n (n - 1)) (Z.log2 n) = true).
    { rewrite Z.land_spec, Z.bit_log2 by assumption.
      rewrite <- Hlog.
      rewrite Z.bit_log2; [reflexivity|].
      pose proof (Z.pow_pos_nonneg 2 (Z.log2 n) ltac:(lia) (Z.log2_nonneg n)).
      lia. }
    rewrite Hland, Z.bits_0 in Hbit. discriminate.
  - intros (k & Hk & ->).
    pose proof (Z.pow_pos_nonneg 2 k ltac:(lia) Hk) as Hpos.
    split; [assumption|].
    replace (2 ^ k - 1) with (Z.ones k) by (rewrite Z.ones_equiv; lia).
    rewrite Z.land_ones by assumption. apply Z_mod_same_full.
Qed.

(** X1: the constructor [hash_index(b, c)] returns exactly when the bucket
    count [b] is a power of two; otherwise its assertion fails. *)
Theorem constructor_requires_power_of_two (b c : Z) :
  ((exists h, hash_index_sized b c = Ok h) <-> exists k, 0 <= k /\ b = 2 ^ k)
  /\ ((forall k, 0 <= k -> b <> 2 ^ k) ->
      hash_index_sized b c = Fault AssertionFailed).
Proof.
  unfold hash_index_sized, internal_init, assert.
  pose proof (is_power_of_two_spec b) as Hspec.
  destruct (is_power_of_two b); simpl.
  - split.
    + split; [intros _; apply Hspec; reflexivity|eauto].
    + intros Hno. destruct (proj1 Hspec eq_refl) as (k & Hk & Hb).
      exfalso. exact (Hno k Hk Hb).
  - split; [|reflexivity].
    split; [intros [h Hh]; discriminate|].
    intros Hk. apply Hspec in Hk. discriminate.
Qed.

Lemma land_mask_mod (key n : Z) :
  is_power_of_two n = true -> Z.land key (n - 1) = key mod n.
Proof.
  intros (k & Hk & ->)%is_power_of_two_spec.
  replace (2 ^ k - 1) with (Z.ones k) by (rewrite Z.ones_equiv; lia).
  apply Z.land_ones. assumption.
Qed.

(** X2: on an allocated object, [first(key)] reads the bucket number
    [key mod hash_buckets_size()]: the mask is the modulo that the comment
    in [first] announces. *)
Theorem first_reads_bucket_key_mod_size (h : hash_index) (key : Z) :
  wf h -> is_allocated h = true ->
  Z.land key (m_hash_mask h) = key mod hash_buckets_size h
  /\ 0 <= key mod hash_buckets_size h < hash_buckets_size h
  /\ first h key = buf_read (m_hash_buckets h) (key mod hash_buckets_size h).
Proof.
  intros Hwf Ha. unfold hash_buckets_size.
  destruct (wf_allocated h Hwf Ha)
    as (bl & cl & Hb & Hc & Hlb & Hlc & Hlm & Hm & _).
  destruct Hwf as [[Hp Hbs] _ _ _].
  pose proof (is_power_of_two_pos _ Hp) as Hpos.
  assert (Heq : Z.land key (m_hash_mask h) = key mod m_hash_buckets_size h)
    by (rewrite Hm; apply land_mask_mod; assumption).
  pose proof (Z.mod_pos_bound key (m_hash_buckets_size h) Hpos) as Hbound.
  split; [assumption|]. split; [assumption|].
  unfold first. rewrite Heq, Hlm, land_lookup_mask by lia. reflexivity.
Qed.

Lemma first_reads_bucket_key_mod_size_witness :
  exists h,
    (let* h0 := hash_index_sized 4 4 in insert h0 6 1) = Ok h
    /\ Z.land 6 (m_hash_mask h) = 6 mod hash_buckets_size h
    /\ 0 <= 6 mod hash_buckets_size h < hash_buckets_size h
    /\ first h 6 = buf_read (m_hash_buckets h) (6 mod hash_buckets_size h).
Proof.
  eexists.
  match goal with
  | |- ?run = Ok ?h /\ _ =>
      let r := eval vm_compute in run in
      match r with
      | Ok ?s =>
          unify h s;
          split; [vm_compute; reflexivity|];
          apply (first_reads_bucket_key_mod_size s 6)
      end
  end.
  - wf_concrete.
  - reflexivity.
Defined.

(** ** The empty state *)

Lemma wf_unallocated (h : hash_index) :
  wf h -> is_allocated h = false ->
  m_hash_buckets h = Dummy /\ m_index_chain h = Dummy /\ m_lookup_mask h = 0.
Proof.
  intros [_ _ _ Hst] Ha. unfold is_allocated in Ha.
  destruct (m_hash_buckets h); [|discriminate].
  destruct (m_index_chain h); [auto|contradiction].
Qed.

(** X3: on an object that holds no arrays (never allocated, or freed), every
    lookup ends at the sentinel without a test of the state: [first] gives
    [null_index] for every key, [next] gives [null_index] for every position
    below the recorded capacity, [find] finds nothing, and the queries report
    0 bytes and a distribution of 100. *)
Theorem unallocated_lookups_give_null_index
    (h : hash_index) (key : Z) :
  wf h -> is_allocated h = false ->
  first h key = Ok null_index
  /\ (forall index, 0 <= index < index_chain_size h ->
                    next h index = Ok null_index)
  /\ (forall fuel pred, find (S fuel) h key pred = Ok null_index)
  /\ (forall fuel, positions (S fuel) h key = Ok [])
  /\ allocated_bytes h = 0
  /\ (forall fuel, compute_distribution_percentage fuel h = Ok 100).
Proof.
  intros Hwf Ha. destruct (wf_unallocated h Hwf Ha) as (Hb & Hc & Hlm).
  assert (Hfirst : first h key = Ok null_index).
  { unfold first. rewrite Hb, Hlm, Z.land_0_r. reflexivity. }
  split; [assumption|]. split; [|split; [|split; [|split]]].
  - intros index Hidx. unfold next, assert, index_chain_size in *.
    destruct (Z.ltb_spec index (m_index_chain_size h)); [|lia]. simpl.
    rewrite Hc, Hlm, Z.land_0_r. reflexivity.
  - intros fuel pred. unfold find. rewrite Hfirst. reflexivity.
  - intros fuel. unfold positions. rewrite Hfirst. reflexivity.
  - unfold allocated_bytes. rewrite Ha. reflexivity.
  - intros fuel. unfold compute_distribution_percentage. rewrite Ha. reflexivity.
Qed.

Lemma unallocated_lookups_give_null_index_witness :
  exists h,
    hash_index_default = Ok h
    /\ first h 77 = Ok null_index
    /\ (forall index, 0 <= index < index_chain_size h ->
                      next h index = Ok null_index)
    /\ (forall fuel pred, find (S fuel) h 77 pred = Ok null_index)
    /\ (forall fuel, positions (S fuel) h 77 = Ok [])
    /\ allocated_bytes h = 0
    /\ (forall fuel, compute_distribution_percentage fuel h = Ok 100).
Proof.
  eexists. split; [reflexivity|].
  apply unallocated_lookups_give_null_index.
  - apply (wf_internal_init default_initial_size default_initial_size);
      [vm_compute; reflexivity | vm_compute; intuition congruence | reflexivity].
  - reflexivity.
Defined.

(** ** [find] *)

(** X4: when the traversal of the bucket of [key] visits the positions [l]
    and ends at the sentinel, [find] returns the first position of [l], in
    traversal order, that satisfies the predicate, and [null_index] when
    none does. *)
Theorem find_returns_first_match
    (fuel : nat) (h : hash_index) (key : Z) (pred : Z -> bool) (l : list Z) :
  wf h -> positions fuel h key = Ok l ->
  find fuel h key pred =
    Ok (match List.find pred l with Some p => p | None => null_index end).
Proof.
  intros Hwf Hl.
  destruct (is_allocated h) eqn:Ha.
  - destruct (wf_allocated h Hwf Ha) as (bl & cl & Hb & Hc & _).
    destruct (first_allocated h bl cl Hwf Hb Hc key)
      as (head & Hhead & Hfirst & Hv).
    unfold positions in Hl. unfold find. rewrite Hfirst in *. simpl in *.
    destruct (positions_from_chain h bl cl Hwf Hb Hc fuel head l Hv Hl)
      as [Hch Hlen].
    apply (find_from_chain h bl cl Hwf Hb Hc); assumption.
  - destruct (wf_unallocated h Hwf Ha) as (Hb & Hc & Hlm).
    assert (Hfirst : first h key = Ok null_index).
    { unfold first. rewrite Hb, Hlm, Z.land_0_r. reflexivity. }
    unfold positions in Hl. unfold find. rewrite Hfirst in *. simpl in *.
    destruct fuel as [|fuel]; [discriminate|].
    simpl in Hl. injection Hl as <-. reflexivity.
Qed.

Lemma find_returns_first_match_witness :
  exists h,
    (let* h0 := hash_index_sized 4 4 in
     run 0 h0 [Insert 0 0; Insert 4 1; Insert 8 2]) = Ok h
    /\ find 4 h 0 (fun p => p <? 2) = Ok 1.
Proof.
  eexists.
  match goal with
  | |- ?run = Ok ?h /\ _ =>
      let r := eval vm_compute in run in
      match r with
      | Ok ?s =>
          unify h s;
          split; [vm_compute; reflexivity|];
          apply (find_returns_first_match 4 s 0 (fun p => p <? 2) [2; 1; 0])
      end
  end.
  - wf_concrete.
  - vm_compute. reflexivity.
Defined.

(** ** [insert] *)

(** X5: [insert(key, index)] on a well-formed object, with a position other
    than [null_index] (and a granularity that cannot wrap the capacity),
    returns a well-formed, allocated object; the bucket count and the
    granularity are kept, the chain capacity does not shrink and exceeds
    [index]. *)
Theorem insert_returns_well_formed (h : hash_index) (key index : Z) :
  wf h -> 0 <= index < null_index ->
  index + 1 + granularity h < size_modulus ->
  exists h',
    insert h key index = Ok h'
    /\ wf h' /\ is_allocated h' = true
    /\ hash_buckets_size h' = hash_buckets_size h
    /\ granularity h' = granularity h
    /\ index_chain_size h <= index_chain_size h'
    /\ index < index_chain_size h'.
Proof.
  unfold granularity, hash_buckets_size, index_chain_size.
  intros Hwf Hidx Hov. destruct (is_allocated h) eqn:Ha.
  - destruct (wf_allocated h Hwf Ha) as (bl & cl & Hb & Hc & _).
    destruct (insert_allocated h bl cl key index Hwf Hb Hc Hidx Hov)
      as (head & _ & Hins).
    destruct (insert_allocated_wf h _ key index Hwf Ha Hidx Hov Hins)
      as [Hwf' Ha'].
    pose proof (capacity_after_insert_bounds h index Hwf ltac:(lia) Hov)
      as [Hcap Hlt].
    eexists. split; [exact Hins|].
    split; [assumption|]. split; [assumption|]. simpl. repeat split; lia.
  - pose proof (insert_unallocated h key index Hwf Ha Hidx) as Hins.
    destruct (insert_unallocated_wf h _ key index Hwf Ha Hidx Hins)
      as [Hwf' Ha'].
    eexists. split; [exact Hins|].
    split; [assumption|]. split; [assumption|]. simpl.
    destruct (Z.geb_spec index (m_index_chain_size h)); repeat split; lia.
Qed.

Lemma insert_returns_well_formed_witness :
  exists h0 h',
    hash_index_sized 8 2 = Ok h0
    /\ insert h0 13 5 = Ok h'
    /\ wf h' /\ is_allocated h' = true
    /\ hash_buckets_size h' = hash_buckets_size h0
    /\ granularity h' = granularity h0
    /\ index_chain_size h0 <= index_chain_size h'
    /\ 5 < index_chain_size h'.
Proof.
  eexists.
  destruct (insert_returns_well_formed
              {| m_hash_buckets := Dummy; m_index_chain := Dummy;
                 m_hash_buckets_size := 8; m_index_chain_size := 2;
                 m_hash_mask := 7; m_lookup_mask := 0;
                 m_granularity := 1024 |} 13 5) as (h' & H).
  - apply (wf_internal_init 8 2);
      [vm_compute; reflexivity | vm_compute; intuition congruence | reflexivity].
  - vm_compute. intuition congruence.
  - vm_compute. reflexivity.
  - exists h'. split; [reflexivity|exact H].
Defined.

(** X6: [insert(key, index)] puts [index] at the head of the bucket of
    [key]: afterwards [first(key)] is [index], [next(index)] is the former
    [first(key)], and [find] with a predicate that accepts [index] returns
    [index]. *)
Theorem insert_prepends (h : hash_index) (key index : Z) :
  wf h -> 0 <= index < null_index ->
  index + 1 + granularity h < size_modulus ->
  exists h' old,
    insert h key index = Ok h'
    /\ first h key = Ok old
    /\ first h' key = Ok index
    /\ next h' index = Ok old
    /\ forall fuel pred,
         pred index = true -> find (S fuel) h' key pred = Ok index.
Proof.
  unfold granularity. intros Hwf Hidx Hov.
  assert (Hfind : forall h', first h' key = Ok index ->
            forall fuel pred, pred index = true ->
                              find (S fuel) h' key pred = Ok index).
  { intros h' Hf fuel pred Hp. unfold find. rewrite Hf. simpl.
    destruct (Z.eqb_spec index null_index); [lia|]. rewrite Hp. reflexivity. }
  destruct (is_allocated h) eqn:Ha.
  - destruct (wf_allocated h Hwf Ha)
      as (bl & cl & Hb & Hc & Hlb & Hlc & Hlm & Hm & _).
    destruct (first_allocated h bl cl Hwf Hb Hc key)
      as (old & Hold & Hfirst & _).
    destruct (insert_allocated h bl cl key index Hwf Hb Hc Hidx Hov)
      as (head & Hhead & Hins).
    rewrite Hold in Hhead. injection Hhead as <-.
    pose proof (capacity_after_insert_bounds h index Hwf ltac:(lia) Hov)
      as [Hcap Hlt].
    pose proof (bucket_index_bound h bl key Hwf Hb) as Hk.
    destruct Hwf as [[Hp Hbs] Hcs _ _].
    pose proof (is_power_of_two_pos _ Hp) as Hpos.
    eexists _, old. split; [exact Hins|]. split; [assumption|].
    match goal with |- first ?s _ = _ /\ _ =>
      assert (Hf : first s key = Ok index) end.
    { eapply first_Heap; [reflexivity|exact Hlm|simpl; lia|].
      simpl. apply list_lookup_insert_eq. lia. }
    split; [assumption|]. split; [|auto].
    eapply next_Heap; [reflexivity|exact Hlm|simpl; lia|simpl; lia|].
    apply list_lookup_insert_eq.
    rewrite length_app, length_replicate. lia.
  - destruct (wf_unallocated h Hwf Ha) as (Hb & Hc & Hlm).
    pose proof (insert_unallocated h key index Hwf Ha Hidx) as Hins.
    destruct Hwf as [[Hp Hbs] Hcs _ _].
    pose proof (is_power_of_two_pos _ Hp) as Hpos.
    pose proof (land_mask_bound key (m_hash_buckets_size h - 1) ltac:(lia)) as Hk.
    eexists _, null_index. split; [exact Hins|].
    split; [unfold first; rewrite Hb, Hlm, Z.land_0_r; reflexivity|].
    match goal with |- first ?s _ = _ /\ _ =>
      assert (Hf : first s key = Ok index) end.
    { eapply first_Heap; [reflexivity|reflexivity|simpl; lia|].
      simpl. apply list_lookup_insert_eq. rewrite length_replicate. lia. }
    split; [assumption|]. split; [|auto].
    eapply next_Heap; [reflexivity|reflexivity| | |].
    + simpl. destruct (Z.geb_spec index (m_index_chain_size h)); lia.
    + simpl. unfold null_index, index_modulus, size_modulus in *.
      destruct (Z.geb_spec index (m_index_chain_size h)); lia.
    + apply list_lookup_insert_eq. rewrite length_replicate.
      destruct (Z.geb_spec index (m_index_chain_size h)); lia.
Qed.

Lemma insert_prepends_witness :
  exists h h' old,
    (let* h0 := hash_index_sized 4 4 in insert h0 3 0) = Ok h
    /\ insert h 7 2 = Ok h'
    /\ first h 7 = Ok old
    /\ first h' 7 = Ok 2
    /\ next h' 2 = Ok old
    /\ forall fuel pred,
         pred 2 = true -> find (S fuel) h' 7 pred = Ok 2.
Proof.
  eexists.
  match goal with
  | |- exists h' old, ?run = Ok ?h /\ _ =>
      let r := eval vm_compute in run in
      match r with
      | Ok ?s =>
          unify h s;
          destruct (insert_prepends s 7 2) as (h' & old & H)
      end
  end.
  - wf_concrete.
  - vm_compute. intuition congruence.
  - vm_compute. reflexivity.
  - exists h', old. split; [vm_compute; reflexivity|exact H].
Defined.

(** X7: [insert(key, index)] on an allocated object touches one bucket and
    one chain slot: the head of every bucket other than that of [key] and
    every chain slot other than [index] are as before, and the slots added
    by a growth of the chain hold [null_index]. *)
Theorem insert_leaves_the_rest (h : hash_index) (key index : Z) :
  wf h -> is_allocated h = true -> 0 <= index < null_index ->
  index + 1 + granularity h < size_modulus ->
  exists h',
    insert h key index = Ok h'
    /\ (forall key',
          key' mod hash_buckets_size h <> key mod hash_buckets_size h ->
          first h' key' = first h key')
    /\ (forall i, 0 <= i < index_chain_size h -> i <> index ->
                  next h' i = next h i)
    /\ (forall i, index_chain_size h <= i < index_chain_size h' ->
                  i <> index -> next h' i = Ok null_index).
Proof.
  unfold granularity, hash_buckets_size, index_chain_size.
  intros Hwf Ha Hidx Hov.
  destruct (wf_allocated h Hwf Ha)
    as (bl & cl & Hb & Hc & Hlb & Hlc & Hlm & Hm & _).
  destruct (insert_allocated h bl cl key index Hwf Hb Hc Hidx Hov)
    as (head & Hhead & Hins).
  pose proof (capacity_after_insert_bounds h index Hwf ltac:(lia) Hov)
    as [Hcap Hlt].
  pose proof Hwf as [[Hp Hbs] Hcs _ _].
  pose proof (is_power_of_two_pos _ Hp) as Hpos.
  eexists. split; [exact Hins|]. split; [|split].
  - intros key' Hne.
    rewrite <- !(land_mask_mod _ _ Hp), <- Hm in Hne.
    pose proof (bucket_index_bound h bl key Hwf Hb) as Hk.
    pose proof (bucket_index_bound h bl key' Hwf Hb) as Hk'.
    destruct (first_allocated h bl cl Hwf Hb Hc key')
      as (head' & Hhead' & Hfirst' & _).
    rewrite Hfirst'.
    eapply first_Heap; [reflexivity|exact Hlm|simpl; lia|].
    simpl. rewrite list_lookup_insert_ne by lia. assumption.
  - intros i Hi Hne.
    destruct (lookup_lt_is_Some_2 cl (Z.to_nat i)) as [v Hv]; [lia|].
    rewrite (next_chain h bl cl Hwf Hb Hc i v ltac:(lia) Hv).
    eapply next_Heap; [reflexivity|exact Hlm|simpl; lia|simpl; lia|].
    rewrite list_lookup_insert_ne by lia.
    apply lookup_app_l_Some. assumption.
  - simpl. intros i Hi Hne.
    eapply next_Heap; [reflexivity|exact Hlm|simpl; lia|simpl; lia|].
    rewrite list_lookup_insert_ne by lia.
    rewrite lookup_app_r by lia.
    apply lookup_replicate_2. lia.
Qed.

Lemma insert_leaves_the_rest_witness :
  exists h h',
    (let* h0 := hash_index_sized 4 2 in
     let* h0 := set_granularity h0 4 in
     run 0 h0 [Insert 1 0; Insert 2 1]) = Ok h
    /\ insert h 5 3 = Ok h'
    /\ (forall key',
          key' mod hash_buckets_size h <> 5 mod hash_buckets_size h ->
          first h' key' = first h key')
    /\ (forall i, 0 <= i < index_chain_size h -> i <> 3 ->
                  next h' i = next h i)
    /\ (forall i, index_chain_size h <= i < index_chain_size h' ->
                  i <> 3 -> next h' i = Ok null_index).
Proof.
  eexists.
  match goal with
  | |- exists h', ?run = Ok ?h /\ _ =>
      let r := eval vm_compute in run in
      match r with
      | Ok ?s =>
          unify h s;
          destruct (insert_leaves_the_rest s 5 3) as (h' & H)
      end
  end.
  - wf_concrete.
  - reflexivity.
  - vm_compute. intuition congruence.
  - vm_compute. reflexivity.
  - exists h'. split; [vm_compute; reflexivity|exact H].
Defined.

(** X8: on an allocated object, when the slot of [index] is unused (it is
    within the capacity and holds [null_index]), [insert(key, index)]
    followed by [erase(key, index)] gives back the object as it was. *)
Theorem insert_then_erase_is_identity (h : hash_index) (key index : Z) :
  wf h -> is_allocated h = true ->
  0 <= index < index_chain_size h -> index <> null_index ->
  next h index = Ok null_index ->
  exists h',
    insert h key index = Ok h'
    /\ forall fuel, erase fuel h' key index = Ok h.
Proof.
  unfold index_chain_size. intros Hwf Ha Hidx Hn Hnext.
  destruct (wf_allocated h Hwf Ha)
    as (bl & cl & Hb & Hc & Hlb & Hlc & Hlm & Hm & Hvb & Hvc).
  pose proof Hwf as [_ Hcs _ _].
  pose proof (bucket_index_bound h bl key Hwf Hb) as Hk.
  apply (next_inv h cl) in Hnext; [|assumption|assumption|lia].
  destruct (lookup_lt_is_Some_2 bl (Z.to_nat (Z.land key (m_hash_mask h))))
    as [head Hhead]; [lia|].
  assert (Hins : insert h key index =
            Ok (set_hash_buckets
                  (set_index_chain h (Heap (<[Z.to_nat index := head]> cl)))
                  (Heap (<[Z.to_nat (Z.land key (m_hash_mask h)) := index]> bl)))).
  { unfold insert, is_allocated. rewrite Hb. simpl negb. cbv iota.
    destruct (Z.geb_spec index (m_index_chain_size h)); [lia|].
    simpl. rewrite Hb, Hc.
    rewrite (buf_read_Heap bl _ head (proj1 Hk) Hhead). simpl.
    rewrite buf_write_Heap by lia. simpl.
    rewrite buf_write_Heap by lia. reflexivity. }
  eexists. split; [exact Hins|].
  intros fuel. unfold erase, assert, is_allocated. simpl.
  destruct (Z.ltb_spec index (m_index_chain_size h)); [|lia]. simpl.
  rewrite (buf_read_Heap _ _ index (proj1 Hk))
    by (apply list_lookup_insert_eq; lia).
  simpl. rewrite Z.eqb_refl.
  rewrite (buf_read_Heap _ _ head (proj1 Hidx))
    by (apply list_lookup_insert_eq; lia).
  simpl. rewrite buf_write_Heap by (rewrite length_insert; lia). simpl.
  rewrite buf_write_Heap by (rewrite length_insert; lia).
  rewrite !list_insert_insert_eq.
  rewrite (list_insert_id bl _ head) by assumption.
  rewrite (list_insert_id cl _ null_index) by assumption.
  unfold set_index_chain, set_hash_buckets. simpl.
  rewrite <- Hb, <- Hc. destruct h; reflexivity.
Qed.

Lemma insert_then_erase_is_identity_witness :
  exists h h',
    (let* h0 := hash_index_sized 4 4 in
     run 0 h0 [Insert 1 0; Insert 5 1]) = Ok h
    /\ insert h 9 3 = Ok h'
    /\ forall fuel, erase fuel h' 9 3 = Ok h.
Proof.
  eexists.
  match goal with
  | |- exists h', ?run = Ok ?h /\ _ =>
      let r := eval vm_compute in run in
      match r with
      | Ok ?s =>
          unify h s;
          destruct (insert_then_erase_is_identity s 9 3) as (h' & H)
      end
  end.
  - wf_concrete.
  - reflexivity.
  - vm_compute. intuition congruence.
  - vm_compute. congruence.
  - vm_compute. reflexivity.
  - exists h'. split; [vm_compute; reflexivity|exact H].
Defined.

(** ** [erase] *)

Lemma buf_read_Heap_inv (l : list Z) (i v : Z) :
  buf_read (Heap l) i = Ok v -> 0 <= i /\ l !! Z.to_nat i = Some v.
Proof.
  unfold buf_read. destruct (Z.ltb_spec i 0); [discriminate|].
  destruct (l !! Z.to_nat i); [|discriminate]. intros [= ->]. auto.
Qed.

Lemma buf_write_Heap_inv (l : list Z) (i v : Z) (b : buffer) :
  buf_write (Heap l) i v = Ok b -> b = Heap (<[Z.to_nat i := v]> l).
Proof.
  unfold buf_write. destruct (i <? 0); [discriminate|].
  destruct (Z.to_nat i <? length l)%nat; [|discriminate]. congruence.
Qed.

Lemma erase_walk_shape (fuel : nat) (cl : list Z) (i index : Z) (c : buffer) :
  Forall is_index_value cl ->
  erase_walk fuel (Heap cl) i index = Ok c ->
  exists cl',
    c = Heap cl' /\ length cl' = length cl /\ Forall is_index_value cl'.
Proof.
  intros Hv. revert i. induction fuel as [|fuel IH]; intros i; simpl;
    [discriminate|].
  destruct (i =? null_index); [intros [= <-]; eauto|].
  destruct (buf_read (Heap cl) i) as [ci|] eqn:Hci; simpl; [|discriminate].
  destruct (ci =? index); [|apply IH].
  destruct (buf_read (Heap cl) index) as [v|] eqn:Hr; simpl; [|discriminate].
  intros Hw%buf_write_Heap_inv. subst c.
  apply buf_read_Heap_inv in Hr as [_ Hr].
  eexists. split; [reflexivity|]. split; [apply length_insert|].
  apply Forall_insert; [assumption|].
  exact (Forall_lookup_1 is_index_value cl _ _ Hv Hr).
Qed.

Lemma erase_shape
    (fuel : nat) (h h' : hash_index) (key index : Z) :
  wf h -> erase fuel h key index = Ok h' ->
  wf h'
  /\ is_allocated h' = is_allocated h
  /\ hash_buckets_size h' = hash_buckets_size h
  /\ index_chain_size h' = index_chain_size h
  /\ m_hash_mask h' = m_hash_mask h
  /\ m_lookup_mask h' = m_lookup_mask h
  /\ granularity h' = granularity h
  /\ allocated_bytes h' = allocated_bytes h.
Proof.
  unfold hash_buckets_size, index_chain_size, granularity.
  intros Hwf. unfold erase, assert.
  destruct (index <? m_index_chain_size h); simpl; [|discriminate].
  destruct (is_allocated h) eqn:Ha; simpl; [|intros [= <-]; tauto].
  destruct (wf_allocated h Hwf Ha)
    as (bl & cl & Hb & Hc & Hlb & Hlc & Hlm & Hm & Hvb & Hvc).
  rewrite Hb, Hc.
  assert (Hgoal : forall bl' cl',
            length bl' = length bl -> length cl' = length cl ->
            Forall is_index_value bl' -> Forall is_index_value cl' ->
            let h1 := set_index_chain (set_hash_buckets h (Heap bl')) (Heap cl') in
            wf h1
            /\ is_allocated h1 = true
            /\ m_hash_buckets_size h1 = m_hash_buckets_size h
            /\ m_index_chain_size h1 = m_index_chain_size h
            /\ m_hash_mask h1 = m_hash_mask h
            /\ m_lookup_mask h1 = m_lookup_mask h
            /\ m_granularity h1 = m_granularity h
            /\ allocated_bytes h1 = allocated_bytes h).
  { intros bl' cl' Hlb' Hlc' Hvb' Hvc'. simpl.
    split; [|unfold allocated_bytes, is_allocated; simpl; rewrite Hb; tauto].
    destruct Hwf as [Hbs Hcs Hg _]. split; simpl; auto.
    rewrite Hlb', Hlc'. tauto. }
  destruct (buf_read (Heap bl) (Z.land key (m_hash_mask h))) as [head|] eqn:Hhead;
    simpl; [|discriminate].
  destruct (head =? index).
  - destruct (buf_read (Heap cl) index) as [v|] eqn:Hr; simpl; [|discriminate].
    destruct (buf_write (Heap bl) (Z.land key (m_hash_mask h)) v)
      as [b|] eqn:Hw; simpl; [|discriminate].
    apply buf_write_Heap_inv in Hw. subst b. rewrite Hc.
    destruct (buf_write (Heap cl) index null_index) as [c|] eqn:Hw2; simpl;
      [|discriminate].
    apply buf_write_Heap_inv in Hw2. subst c. intros [= <-].
    apply buf_read_Heap_inv in Hr as [_ Hr].
    apply (Hgoal (<[_ := v]> bl) (<[_ := null_index]> cl));
      rewrite ?length_insert; auto.
    + apply Forall_insert; [assumption|].
      exact (Forall_lookup_1 is_index_value cl _ _ Hvc Hr).
    + apply Forall_insert; [assumption|exact is_index_value_null].
  - destruct (erase_walk fuel (Heap cl) head index) as [c|] eqn:Hwalk; simpl;
      [|discriminate].
    destruct (erase_walk_shape fuel cl head index c Hvc Hwalk)
      as (cl1 & -> & Hl1 & Hv1).
    destruct (buf_write (Heap cl1) index null_index) as [c|] eqn:Hw2; simpl;
      [|discriminate].
    apply buf_write_Heap_inv in Hw2. subst c. intros [= <-].
    replace (set_index_chain (set_index_chain h (Heap cl1))
               (Heap (<[Z.to_nat index := null_index]> cl1)))
      with (set_index_chain (set_hash_buckets h (Heap bl))
              (Heap (<[Z.to_nat index := null_index]> cl1)))
      by (unfold set_index_chain, set_hash_buckets; simpl; rewrite Hb;
          reflexivity).
    apply Hgoal; rewrite ?length_insert; auto.
    apply Forall_insert; [assumption|exact is_index_value_null].
Qed.

(** X9: whenever [erase] returns, on a well-formed object, the object is
    still well formed, and nothing but array contents has changed: the
    bucket count, the chain capacity, the masks, the granularity and the
    allocated bytes are as before ([erase] never reallocates or shrinks). *)
Theorem erase_keeps_shape
    (fuel : nat) (h h' : hash_index) (key index : Z) :
  wf h -> erase fuel h key index = Ok h' ->
  wf h'
  /\ is_allocated h' = is_allocated h
  /\ hash_buckets_size h' = hash_buckets_size h
  /\ index_chain_size h' = index_chain_size h
  /\ m_hash_mask h' = m_hash_mask h
  /\ m_lookup_mask h' = m_lookup_mask h
  /\ granularity h' = granularity h
  /\ allocated_bytes h' = allocated_bytes h.
Proof. apply erase_shape. Qed.

Lemma erase_keeps_shape_witness :
  exists h h',
    (let* h0 := hash_index_sized 4 4 in
     run 0 h0 [Insert 0 0; Insert 4 1; Insert 8 2]) = Ok h
    /\ erase 5 h 0 0 = Ok h'
    /\ wf h'
    /\ is_allocated h' = is_allocated h
    /\ hash_buckets_size h' = hash_buckets_size h
    /\ index_chain_size h' = index_chain_size h
    /\ m_hash_mask h' = m_hash_mask h
    /\ m_lookup_mask h' = m_lookup_mask h
    /\ granularity h' = granularity h
    /\ allocated_bytes h' = allocated_bytes h.
Proof.
  eexists _, _.
  match goal with
  | |- ?run = Ok ?h /\ ?er = Ok ?h' /\ _ =>
      let r := eval vm_compute in run in
      match r with
      | Ok ?s =>
          unify h s;
          split; [vm_compute; reflexivity|];
          let r' := eval vm_compute in (erase 5 s 0 0) in
          match r' with
          | Ok ?s' =>
              unify h' s';
              split; [vm_compute; reflexivity|];
              apply (erase_keeps_shape 5 s s' 0 0)
          end
      end
  end.
  - wf_concrete.
  - vm_compute. reflexivity.
Defined.

(** ** [resize_index_chain] *)

Lemma round_up_multiple (n g : Z) : 0 < g -> round_up n g mod g = 0.
Proof.
  intros Hg. unfold round_up.
  destruct (Z.eqb_spec (n mod g) 0) as [H0|Hne]; [assumption|].
  replace (n + g - n mod g) with ((n / g + 1) * g)
    by (pose proof (Z.div_mod n g ltac:(lia)); lia).
  apply Z_mod_mult.
Qed.

(** X10: on an allocated object, [resize_index_chain(n)] returns a
    well-formed object whose capacity is the former one when [n] does not
    exceed it, and otherwise the least multiple of the granularity that is
    at least [n]; the buckets and the former chain slots are kept and the
    added slots hold [null_index]. *)
Theorem resize_index_chain_keeps_contents (h : hash_index) (n : Z) :
  wf h -> is_allocated h = true ->
  n + granularity h < size_modulus ->
  exists h',
    resize_index_chain h n = Ok h'
    /\ wf h'
    /\ (n <= index_chain_size h -> h' = h)
    /\ (index_chain_size h < n ->
        n <= index_chain_size h' < n + granularity h
        /\ index_chain_size h' mod granularity h = 0)
    /\ (forall key, first h' key = first h key)
    /\ (forall i, 0 <= i < index_chain_size h -> next h' i = next h i)
    /\ (forall i, index_chain_size h <= i < index_chain_size h' ->
                  next h' i = Ok null_index).
Proof.
  unfold granularity, index_chain_size. intros Hwf Ha Hov.
  destruct (Z.le_gt_cases n (m_index_chain_size h)) as [Hle|Hgt].
  - exists h. unfold resize_index_chain.
    destruct (Z.leb_spec n (m_index_chain_size h)); [|lia].
    split; [reflexivity|]. split; [assumption|]. split; [reflexivity|].
    split; [intros; lia|]. split; [reflexivity|].
    split; [reflexivity|intros; lia].
  - destruct (wf_allocated h Hwf Ha)
      as (bl & cl & Hb & Hc & Hlb & Hlc & Hlm & Hm & Hvb & Hvc).
    pose proof Hwf as [Hbs Hcs Hg _].
    pose proof (round_up_bounds n (m_granularity h) ltac:(lia) ltac:(lia))
      as Hr.
    pose proof (round_up_multiple n (m_granularity h) ltac:(lia)) as Hmul.
    eexists. split; [apply (resize_index_chain_grow h cl); assumption|].
    match goal with |- wf ?s /\ _ => assert (Hwf' : wf s) end.
    { split; simpl; auto; [lia|]. rewrite Hb.
      rewrite length_app, length_replicate.
      split; [assumption|]. split; [lia|]. do 3 (split; [assumption|]).
      apply Forall_app. split; [assumption|].
      apply Forall_replicate. exact is_index_value_null. }
    split; [assumption|]. simpl.
    split; [lia|]. split; [intros _; split; [lia|assumption]|].
    split; [reflexivity|]. split.
    + intros i Hi.
      destruct (lookup_lt_is_Some_2 cl (Z.to_nat i)) as [v Hv]; [lia|].
      rewrite (next_chain h bl cl Hwf Hb Hc i v ltac:(lia) Hv).
      eapply next_Heap; [reflexivity|exact Hlm|simpl; lia|simpl; lia|].
      apply lookup_app_l_Some. assumption.
    + intros i Hi.
      eapply next_Heap; [reflexivity|exact Hlm|simpl; lia|simpl; lia|].
      rewrite lookup_app_r by lia. apply lookup_replicate_2. lia.
Qed.

Lemma resize_index_chain_keeps_contents_witness :
  exists h h',
    (let* h0 := hash_index_sized 4 3 in
     let* h0 := set_granularity h0 4 in
     run 0 h0 [Insert 1 0; Insert 5 2]) = Ok h
    /\ resize_index_chain h 6 = Ok h'
    /\ wf h'
    /\ (6 <= index_chain_size h -> h' = h)
    /\ (index_chain_size h < 6 ->
        6 <= index_chain_size h' < 6 + granularity h
        /\ index_chain_size h' mod granularity h = 0)
    /\ (forall key, first h' key = first h key)
    /\ (forall i, 0 <= i < index_chain_size h -> next h' i = next h i)
    /\ (forall i, index_chain_size h <= i < index_chain_size h' ->
                  next h' i = Ok null_index).
Proof.
  eexists.
  match goal with
  | |- exists h', ?run = Ok ?h /\ _ =>
      let r := eval vm_compute in run in
      match r with
      | Ok ?s =>
          unify h s;
          destruct (resize_index_chain_keeps_contents s 6) as (h' & H)
      end
  end.
  - wf_concrete.
  - reflexivity.
  - vm_compute. reflexivity.
  - exists h'. split; [vm_compute; reflexivity|exact H].
Defined.

(** X11: on an object that holds no arrays, [resize_index_chain(n)] with
    [n] above the recorded capacity allocates nothing: it records [n]
    rounded up to a multiple of the granularity, and the first [insert] of
    a position below that capacity allocates a chain of exactly that
    capacity. *)
Theorem resize_index_chain_is_deferred (h : hash_index) (n : Z) :
  wf h -> is_allocated h = false ->
  index_chain_size h < n -> n + granularity h < size_modulus ->
  exists h1,
    resize_index_chain h n = Ok h1
    /\ is_allocated h1 = false
    /\ allocated_bytes h1 = 0
    /\ n <= index_chain_size h1 < n + granularity h
    /\ index_chain_size h1 mod granularity h = 0
    /\ forall key index,
         0 <= index < index_chain_size h1 -> index < null_index ->
         exists h2,
           insert h1 key index = Ok h2
           /\ is_allocated h2 = true
           /\ index_chain_size h2 = index_chain_size h1.
Proof.
  unfold granularity, index_chain_size. intros Hwf Ha Hgt Hov.
  destruct (wf_unallocated h Hwf Ha) as (Hb & Hc & Hlm).
  pose proof Hwf as [Hbs Hcs Hg _].
  pose proof (round_up_bounds n (m_granularity h) ltac:(lia) ltac:(lia)) as Hr.
  pose proof (round_up_multiple n (m_granularity h) ltac:(lia)) as Hmul.
  assert (Hres : resize_index_chain h n =
            Ok {| m_hash_buckets := m_hash_buckets h;
                  m_index_chain := Dummy;
                  m_hash_buckets_size := m_hash_buckets_size h;
                  m_index_chain_size := round_up n (m_granularity h);
                  m_hash_mask := m_hash_mask h;
                  m_lookup_mask := m_lookup_mask h;
                  m_granularity := m_granularity h |}).
  { unfold resize_index_chain. rewrite Hc.
    destruct (Z.leb_spec n (m_index_chain_size h)); [lia|].
    destruct (Z.eqb_spec (m_granularity h) 0); [lia|].
    unfold round_up in *.
    destruct (Z.eqb_spec (n mod m_granularity h) 0); [reflexivity|].
    rewrite wrap_size_small by lia. reflexivity. }
  eexists. split; [exact Hres|].
  match goal with |- is_allocated ?s = _ /\ _ =>
    assert (Ha1 : is_allocated s = false)
      by (unfold is_allocated; simpl; rewrite Hb; reflexivity);
    assert (Hwf1 : wf s)
  end.
  { split; simpl; auto; [lia|]. rewrite Hb. assumption. }
  split; [assumption|].
  split; [unfold allocated_bytes; rewrite Ha1; reflexivity|].
  simpl. split; [lia|]. split; [assumption|].
  intros key index Hidx Hn.
  eexists. split; [apply insert_unallocated; [assumption|assumption|lia]|].
  split; [reflexivity|]. simpl.
  destruct (Z.geb_spec index (round_up n (m_granularity h))); [lia|reflexivity].
Qed.

Lemma resize_index_chain_is_deferred_witness :
  exists h h1,
    hash_index_sized 4 4 = Ok h
    /\ resize_index_chain h 1500 = Ok h1
    /\ is_allocated h1 = false
    /\ allocated_bytes h1 = 0
    /\ 1500 <= index_chain_size h1 < 1500 + granularity h
    /\ index_chain_size h1 mod granularity h = 0
    /\ forall key index,
         0 <= index < index_chain_size h1 -> index < null_index ->
         exists h2,
           insert h1 key index = Ok h2
           /\ is_allocated h2 = true
           /\ index_chain_size h2 = index_chain_size h1.
Proof.
  eexists.
  destruct (resize_index_chain_is_deferred
              {| m_hash_buckets := Dummy; m_index_chain := Dummy;
                 m_hash_buckets_size := 4; m_index_chain_size := 4;
                 m_hash_mask := 3; m_lookup_mask := 0;
                 m_granularity := 1024 |} 1500) as (h1 & H).
  - apply (wf_internal_init 4 4);
      [vm_compute; reflexivity | vm_compute; intuition congruence | reflexivity].
  - reflexivity.
  - vm_compute. reflexivity.
  - vm_compute. reflexivity.
  - exists h1. split; [reflexivity|exact H].
Defined.

(** ** [compute_distribution_percentage] *)

Lemma count_chain_length (cl : list Z) (fuel : nat) (i count : Z)
    (l : list Z) :
  chain_from cl i l -> (length l < fuel)%nat ->
  count_chain fuel (Heap cl) i count = Ok (count + Z.of_nat (length l)).
Proof.
  intros Hch. revert fuel count.
  induction Hch as [|i i' l Hn Hi Hl H IH]; intros fuel count Hlen;
    (destruct fuel as [|fuel]; [simpl in Hlen; lia|]); simpl count_chain.
  - rewrite ?Z.eqb_refl. f_equal. simpl. lia.
  - destruct (Z.eqb_spec i null_index); [contradiction|].
    rewrite (buf_read_Heap cl i i' Hi Hl). simpl bind.
    rewrite IH by (simpl in Hlen; lia). f_equal. simpl length. lia.
Qed.

Lemma sumZ_app (l1 l2 : list Z) : sumZ (l1 ++ l2) = sumZ l1 + sumZ l2.
Proof. induction l1 as [|a l1 IH]; simpl; [reflexivity|]. rewrite IH. lia. Qed.

Lemma excess_nonneg (average count : Z) : 0 <= excess average count.
Proof.
  unfold excess.
  destruct (Z.ltb_spec (count - average) 0);
    match goal with |- context [?e >? 1] => destruct (Z.gtb_spec e 1) end;
    lia.
Qed.

Lemma sumZ_excess_nonneg (average : Z) (counts : list Z) :
  0 <= sumZ (map (excess average) counts).
Proof.
  induction counts as [|c counts IH]; simpl; [lia|].
  pose proof (excess_nonneg average c). lia.
Qed.

Section Distribution.

Variables (fuel : nat) (bl cl : list Z).

Lemma count_loop (counts acc : list Z) (off : nat) (total : Z) :
  (forall j c, counts !! j = Some c ->
     exists head,
       bl !! (off + j)%nat = Some head
       /\ count_chain fuel (Heap cl) head 0 = Ok c) ->
  for_up (length counts) (Z.of_nat off)
    (fun i (s : list Z * Z) =>
       let (hash_items_count, total_items) := s in
       let* head := buf_read (Heap bl) i in
       let* c := count_chain fuel (Heap cl) head 0 in
       Ok (hash_items_count ++ [c], total_items + c))
    (acc, total)
  = Ok (acc ++ counts, total + sumZ counts).
Proof.
  revert acc off total.
  induction counts as [|c counts IH]; intros acc off total Hc.
  - simpl. rewrite app_nil_r, Z.add_0_r. reflexivity.
  - destruct (Hc 0%nat c eq_refl) as (head & Hhead & Hcount).
    rewrite Nat.add_0_r in Hhead.
    simpl for_up.
    rewrite (buf_read_Heap bl (Z.of_nat off) head ltac:(lia))
      by (rewrite Nat2Z.id; assumption).
    simpl bind. rewrite Hcount. simpl bind.
    replace (Z.of_nat off + 1) with (Z.of_nat (S off)) by lia.
    rewrite IH.
    + rewrite <- app_assoc. simpl. f_equal. f_equal. lia.
    + intros j c' Hj. destruct (Hc (S j) c' Hj) as (head' & Hh' & Hc').
      exists head'. split; [|assumption].
      replace (S off + j)%nat with (off + S j)%nat by lia. assumption.
Qed.

Lemma error_loop (average : Z) (all counts : list Z) (off : nat) (error : Z) :
  (forall j c, counts !! j = Some c -> all !! (off + j)%nat = Some c) ->
  for_up (length counts) (Z.of_nat off)
    (fun i error =>
       match all !! Z.to_nat i with
       | None => Fault OutOfBounds
       | Some c =>
           let e := c - average in
           let e := if e <? 0 then - e else e in
           Ok (if e >? 1 then error + (e - 1) else error)
       end)
    error
  = Ok (error + sumZ (map (excess average) counts)).
Proof.
  revert off error.
  induction counts as [|c counts IH]; intros off error Hc.
  - simpl. rewrite Z.add_0_r. reflexivity.
  - pose proof (Hc 0%nat c eq_refl) as Hhead.
    rewrite Nat.add_0_r in Hhead.
    simpl for_up. rewrite Nat2Z.id, Hhead. simpl bind.
    replace (Z.of_nat off + 1) with (Z.of_nat (S off)) by lia.
    rewrite IH.
    + f_equal. simpl. unfold excess at 2.
      destruct (c - average <? 0);
        match goal with |- context [?e >? 1] => destruct (e >? 1) end; lia.
    + intros j c' Hj.
      replace (S off + j)%nat with (off + S j)%nat by lia. apply Hc, Hj.
Qed.

End Distribution.

(** The score that [compute_distribution_percentage] returns, from the
    lengths of the chains of the buckets. *)
Lemma distribution_formula
    (fuel : nat) (h : hash_index) (chains : list (list Z)) :
  wf h -> is_allocated h = true ->
  Z.of_nat (length chains) = hash_buckets_size h ->
  (forall j l, chains !! j = Some l ->
               positions fuel h (Z.of_nat j) = Ok l) ->
  sumZ (chain_lengths chains) < 2 ^ 63 ->
  compute_distribution_percentage fuel h =
    Ok (distribution_score (chain_lengths chains)).
Proof.
  unfold hash_buckets_size. intros Hwf Ha Hn Hpos Hsmall.
  destruct (wf_allocated h Hwf Ha)
    as (bl & cl & Hb & Hc & Hlb & Hlc & Hlm & Hm & Hvb & Hvc).
  pose proof Hwf as [[Hp Hbs] _ _ _].
  pose proof (is_power_of_two_pos _ Hp) as Hnpos.
  assert (Hlen : length (chain_lengths chains) = Z.to_nat (m_hash_buckets_size h))
    by (unfold chain_lengths; rewrite length_map; lia).
  assert (Hnonneg : 0 <= sumZ (chain_lengths chains)).
  { clear. induction chains as [|l chains IH]; simpl; lia. }
  unfold compute_distribution_percentage. rewrite Ha. simpl negb. cbv iota.
  rewrite Hb, Hc, <- Hlen.
  pose proof (count_loop fuel bl cl (chain_lengths chains) [] 0 0) as Hloop.
  change (Z.of_nat 0) with 0 in Hloop. rewrite Hloop; clear Hloop.
  2:{ intros j c Hj. unfold chain_lengths in Hj.
      rewrite list_lookup_fmap in Hj.
      destruct (chains !! j) as [l|] eqn:Hl; [|discriminate].
      injection Hj as <-.
      pose proof (lookup_lt_Some _ _ _ Hl) as Hjlt.
      specialize (Hpos j l Hl).
      destruct (first_allocated h bl cl Hwf Hb Hc (Z.of_nat j))
        as (head & Hhead & Hfirst & Hv).
      unfold positions in Hpos. rewrite Hfirst in Hpos. simpl in Hpos.
      destruct (positions_from_chain h bl cl Hwf Hb Hc fuel head l Hv Hpos)
        as [Hch Hl'].
      exists head. split.
      - rewrite Hm, (land_mask_mod _ _ Hp), Z.mod_small, Nat2Z.id in Hhead
          by lia.
        exact Hhead.
      - apply (count_chain_length cl fuel head 0 l); assumption. }
  simpl bind. simpl app. rewrite Z.add_0_l.
  unfold distribution_score.
  destruct (Z.leb_spec (sumZ (chain_lengths chains)) 1); [reflexivity|].
  assert (Havg : to_long (sumZ (chain_lengths chains) ÷ m_hash_buckets_size h)
                 = sumZ (chain_lengths chains)
                   / Z.of_nat (length (chain_lengths chains))).
  { rewrite Hlen, Z2Nat.id by lia.
    rewrite Z.quot_div_nonneg by lia.
    pose proof (Z.div_pos (sumZ (chain_lengths chains))
                  (m_hash_buckets_size h) Hnonneg Hnpos).
    pose proof (Z.div_le_upper_bound (sumZ (chain_lengths chains))
                  (m_hash_buckets_size h) (sumZ (chain_lengths chains))
                  Hnpos ltac:(nia)).
    unfold to_long, size_modulus.
    rewrite Z.mod_small by lia.
    destruct (Z.ltb_spec (sumZ (chain_lengths chains) / m_hash_buckets_size h)
                (2 ^ 63)); lia. }
  rewrite Havg. cbv zeta.
  match goal with |- context [for_up _ _ ?body 0] =>
    pose proof (error_loop
                  (sumZ (chain_lengths chains)
                   / Z.of_nat (length (chain_lengths chains)))
                  (chain_lengths chains) (chain_lengths chains) 0 0)
      as Hloop
  end.
  change (Z.of_nat 0) with 0 in Hloop. cbv zeta in Hloop.
  rewrite Hloop by (intros j c Hj; exact Hj); clear Hloop.
  simpl bind. rewrite Z.add_0_l. f_equal. f_equal. f_equal.
  apply Z.quot_div_nonneg; [|lia].
  apply Z.mul_nonneg_nonneg; [apply sumZ_excess_nonneg|lia].
Qed.

(** X12: on an allocated object whose buckets have the traversals [chains]
    (each ending at the sentinel), [compute_distribution_percentage] returns
    100 when at most one position is stored, and otherwise
    [100 - error * 100 / total] converted to [size_type], where [total] is
    the number of stored positions, [average] is [total] divided by the
    bucket count, and [error] adds, over the buckets, the amount by which
    the distance of the chain length from [average] exceeds 1. *)
Theorem distribution_percentage_formula
    (fuel : nat) (h : hash_index) (chains : list (list Z)) :
  wf h -> is_allocated h = true ->
  Z.of_nat (length chains) = hash_buckets_size h ->
  (forall j l, chains !! j = Some l ->
               positions fuel h (Z.of_nat j) = Ok l) ->
  sumZ (chain_lengths chains) < 2 ^ 63 ->
  let counts := chain_lengths chains in
  let total := sumZ counts in
  let average := total / hash_buckets_size h in
  let error :=
    sumZ (map (fun count =>
                 if Z.abs (count - average) >? 1
                 then Z.abs (count - average) - 1 else 0) counts) in
  compute_distribution_percentage fuel h =
    Ok (if total <=? 1 then 100
        else (100 - error * 100 / total) mod 2 ^ 64).
Proof.
  intros Hwf Ha Hn Hpos Hsmall. cbv zeta.
  rewrite (distribution_formula fuel h chains Hwf Ha Hn Hpos Hsmall).
  assert (Hlen : length (chain_lengths chains) = length chains)
    by (unfold chain_lengths; apply length_map).
  unfold distribution_score, wrap_size, size_modulus. rewrite <- Hn, Hlen.
  destruct (sumZ (chain_lengths chains) <=? 1); [reflexivity|].
  erewrite map_ext; [reflexivity|].
  intros c. unfold excess. cbv zeta.
  destruct (Z.ltb_spec (c - sumZ (chain_lengths chains)
                            / Z.of_nat (length chains)) 0);
    [rewrite Z.abs_neq by lia|rewrite Z.abs_eq by lia]; reflexivity.
Qed.

Lemma distribution_percentage_formula_witness :
  exists h,
    (let* h0 := hash_index_sized 4 4 in
     run 0 h0 [Insert 0 0; Insert 1 1; Insert 5 2]) = Ok h
    /\ compute_distribution_percentage 3 h = Ok 67.
Proof.
  eexists.
  match goal with
  | |- ?run = Ok ?h /\ _ =>
      let r := eval vm_compute in run in
      match r with
      | Ok ?s =>
          unify h s;
          split; [vm_compute; reflexivity|];
          apply (distribution_percentage_formula 3 s [[0]; [2; 1]; []; []])
      end
  end.
  - wf_concrete.
  - reflexivity.
  - reflexivity.
  - intros [|[|[|[|j]]]] l Hl; try discriminate;
      injection Hl as <-; vm_compute; reflexivity.
  - vm_compute. reflexivity.
Defined.

Lemma sumZ_all_zero (f : Z -> Z) (l : list Z) :
  (forall c, In c l -> f c = 0) -> sumZ (map f l) = 0.
Proof.
  induction l as [|a l IH]; intros H; simpl; [reflexivity|].
  rewrite (H a) by (left; reflexivity).
  rewrite IH; [reflexivity|]. intros c Hc. apply H. right. assumption.
Qed.

(** X13: when the length of every chain is within 1 of the average length
    (the number of stored positions divided by the bucket count, rounded
    down), [compute_distribution_percentage] returns 100. *)
Theorem even_distribution_scores_100
    (fuel : nat) (h : hash_index) (chains : list (list Z)) :
  wf h -> is_allocated h = true ->
  Z.of_nat (length chains) = hash_buckets_size h ->
  (forall j l, chains !! j = Some l ->
               positions fuel h (Z.of_nat j) = Ok l) ->
  sumZ (chain_lengths chains) < 2 ^ 63 ->
  (forall l, In l chains ->
     Z.abs (Z.of_nat (length l)
            - sumZ (chain_lengths chains) / hash_buckets_size h) <= 1) ->
  compute_distribution_percentage fuel h = Ok 100.
Proof.
  intros Hwf Ha Hn Hpos Hsmall Heven.
  rewrite (distribution_formula fuel h chains Hwf Ha Hn Hpos Hsmall).
  unfold distribution_score.
  destruct (sumZ (chain_lengths chains) <=? 1); [reflexivity|].
  rewrite sumZ_all_zero; [reflexivity|].
  intros c Hc. unfold chain_lengths in Hc.
  apply in_map_iff in Hc as (l & <- & Hl).
  specialize (Heven l Hl). rewrite <- Hn in Heven.
  assert (Hlen : length (chain_lengths chains) = length chains)
    by (unfold chain_lengths; apply length_map).
  rewrite Hlen. unfold excess.
  match goal with |- context [?e <? 0] => destruct (Z.ltb_spec e 0) end;
    match goal with |- context [?e >? 1] => destruct (Z.gtb_spec e 1) end;
    lia.
Qed.

Lemma even_distribution_scores_100_witness :
  exists h,
    (let* h0 := hash_index_sized 4 8 in
     run 0 h0 [Insert 0 0; Insert 1 1; Insert 2 2; Insert 3 3; Insert 4 4])
    = Ok h
    /\ compute_distribution_percentage 3 h = Ok 100.
Proof.
  eexists.
  match goal with
  | |- ?run = Ok ?h /\ _ =>
      let r := eval vm_compute in run in
      match r with
      | Ok ?s =>
          unify h s;
          split; [vm_compute; reflexivity|];
          apply (even_distribution_scores_100 3 s [[4; 0]; [1]; [2]; [3]])
      end
  end.
  - wf_concrete.
  - reflexivity.
  - reflexivity.
  - intros [|[|[|[|j]]]] l Hl; try discriminate;
      injection Hl as <-; vm_compute; reflexivity.
  - vm_compute. reflexivity.
  - intros l [<-|[<-|[<-|[<-|[]]]]]; vm_compute; discriminate.
Defined.

(** ** [clear], [clear_and_free] and [clear_and_resize] *)

Lemma clear_allocated (h : hash_index) (bl : list Z) :
  wf h -> m_hash_buckets h = Heap bl ->
  clear h =
    set_hash_buckets h
      (Heap (replicate (Z.to_nat (m_hash_buckets_size h)) null_index)).
Proof.
  intros [_ _ _ Hst] Hb. unfold clear. rewrite Hb in *.
  destruct (m_index_chain h); [contradiction|].
  destruct Hst as (Hlb & _).
  rewrite drop_ge by lia. rewrite app_nil_r. reflexivity.
Qed.

Lemma chain_lengths_empty (n : nat) :
  sumZ (chain_lengths (replicate n [])) = 0.
Proof.
  induction n as [|n IH]; [reflexivity|].
  unfold chain_lengths in *. simpl. exact IH.
Qed.

(** X14: [clear] empties every bucket and keeps everything else: the object
    stays well formed, with the same allocation state, sizes and index
    chain; afterwards [first] gives [null_index] for every key, [find]
    finds nothing, and the distribution is 100. *)
Theorem clear_empties_every_bucket (h : hash_index) :
  wf h ->
  wf (clear h)
  /\ is_allocated (clear h) = is_allocated h
  /\ m_index_chain (clear h) = m_index_chain h
  /\ hash_buckets_size (clear h) = hash_buckets_size h
  /\ index_chain_size (clear h) = index_chain_size h
  /\ allocated_bytes (clear h) = allocated_bytes h
  /\ (forall key, first (clear h) key = Ok null_index)
  /\ (forall fuel key pred, find (S fuel) (clear h) key pred = Ok null_index)
  /\ (forall fuel,
        compute_distribution_percentage (S fuel) (clear h) = Ok 100).
Proof.
  intros Hwf. destruct (is_allocated h) eqn:Ha.
  - destruct (wf_allocated h Hwf Ha)
      as (bl & cl & Hb & Hc & Hlb & Hlc & Hlm & Hm & Hvb & Hvc).
    rewrite (clear_allocated h bl Hwf Hb).
    pose proof Hwf as [[Hp Hbs] Hcs Hg _].
    pose proof (is_power_of_two_pos _ Hp) as Hpos.
    set (h' := set_hash_buckets h _).
    assert (Hwf' : wf h').
    { split; simpl; auto. rewrite Hc, length_replicate.
      split; [lia|]. do 3 (split; [assumption|]).
      split; [|assumption].
      apply Forall_replicate. exact is_index_value_null. }
    assert (Hfirst : forall key, first h' key = Ok null_index).
    { intros key.
      pose proof (land_mask_bound key (m_hash_mask h) ltac:(lia)) as Hk.
      eapply first_Heap; [reflexivity|exact Hlm|simpl; lia|].
      apply lookup_replicate_2. simpl. lia. }
    split; [assumption|]. split; [reflexivity|]. split; [reflexivity|].
    split; [reflexivity|]. split; [reflexivity|].
    split; [unfold allocated_bytes, is_allocated; simpl; rewrite Hb;
            reflexivity|].
    split; [assumption|]. split.
    + intros fuel key pred. unfold find. rewrite Hfirst. reflexivity.
    + intros fuel.
      rewrite (distribution_formula (S fuel) h'
                 (replicate (Z.to_nat (m_hash_buckets_size h)) [])).
      * unfold distribution_score.
        rewrite chain_lengths_empty. reflexivity.
      * assumption.
      * reflexivity.
      * rewrite length_replicate. unfold hash_buckets_size. simpl. lia.
      * intros j l [-> _]%lookup_replicate.
        unfold positions. rewrite Hfirst. reflexivity.
      * rewrite chain_lengths_empty. reflexivity.
  - destruct (wf_unallocated h Hwf Ha) as (Hb & Hc & Hlm).
    assert (Hclear : clear h = h) by (unfold clear; rewrite Hb; reflexivity).
    rewrite Hclear.
    assert (Hfirst : forall key, first h key = Ok null_index).
    { intros key. unfold first. rewrite Hb, Hlm, Z.land_0_r. reflexivity. }
    repeat (split; [first [assumption|reflexivity]|]). split.
    + intros fuel key pred. unfold find. rewrite Hfirst. reflexivity.
    + intros fuel. unfold compute_distribution_percentage. rewrite Ha.
      reflexivity.
Qed.

Lemma clear_empties_every_bucket_witness :
  exists h,
    (let* h0 := hash_index_sized 4 4 in
     run 0 h0 [Insert 0 0; Insert 4 1; Insert 3 2]) = Ok h
    /\ first h 0 = Ok 1
    /\ wf (clear h)
    /\ is_allocated (clear h) = is_allocated h
    /\ m_index_chain (clear h) = m_index_chain h
    /\ hash_buckets_size (clear h) = hash_buckets_size h
    /\ index_chain_size (clear h) = index_chain_size h
    /\ allocated_bytes (clear h) = allocated_bytes h
    /\ (forall key, first (clear h) key = Ok null_index)
    /\ (forall fuel key pred, find (S fuel) (clear h) key pred = Ok null_index)
    /\ (forall fuel,
          compute_distribution_percentage (S fuel) (clear h) = Ok 100).
Proof.
  eexists.
  match goal with
  | |- ?run = Ok ?h /\ _ =>
      let r := eval vm_compute in run in
      match r with
      | Ok ?s =>
          unify h s;
          split; [vm_compute; reflexivity|];
          split; [vm_compute; reflexivity|];
          apply (clear_empties_every_bucket s)
      end
  end.
  wf_concrete.
Defined.

(** X15: [clear_and_resize(b, c)] with a power of two [b] releases the
    arrays and records the new sizes; the next [insert] allocates [b]
    buckets with the hash mask [b - 1] and a chain of capacity [c] (or
    [index + 1] if that is larger), and holds the inserted pair alone. *)
Theorem clear_and_resize_then_insert (h : hash_index) (b c : Z) :
  wf h -> is_power_of_two b = true -> b < size_modulus ->
  0 <= c < size_modulus ->
  exists h1,
    clear_and_resize h b c = Ok h1
    /\ wf h1
    /\ is_allocated h1 = false /\ allocated_bytes h1 = 0
    /\ hash_buckets_size h1 = b /\ index_chain_size h1 = c
    /\ granularity h1 = granularity h
    /\ forall key index,
         0 <= index < null_index ->
         exists h2,
           insert h1 key index = Ok h2
           /\ wf h2 /\ is_allocated h2 = true
           /\ hash_buckets_size h2 = b
           /\ m_hash_mask h2 = b - 1
           /\ index_chain_size h2 = Z.max c (index + 1)
           /\ (forall fuel, positions (2 + fuel) h2 key = Ok [index])
           /\ (forall key', key' mod b <> key mod b ->
                            first h2 key' = Ok null_index).
Proof.
  intros Hwf Hp Hb Hc.
  pose proof Hwf as [_ _ Hg _].
  pose proof (is_power_of_two_pos _ Hp) as Hpos.
  unfold clear_and_resize, assert. rewrite Hp. simpl bind.
  eexists. split; [reflexivity|].
  match goal with |- wf ?s /\ _ => set (h1 := s) end.
  assert (Hb1 : m_hash_buckets h1 = Dummy)
    by (simpl; destruct (m_hash_buckets h); reflexivity).
  assert (Hc1 : m_index_chain h1 = Dummy)
    by (simpl; destruct (m_index_chain h); reflexivity).
  assert (Ha1 : is_allocated h1 = false)
    by (unfold is_allocated; rewrite Hb1; reflexivity).
  assert (Hwf1 : wf h1).
  { split; [simpl; auto..|]. rewrite Hb1, Hc1. reflexivity. }
  split; [assumption|]. split; [assumption|].
  split; [unfold allocated_bytes; rewrite Ha1; reflexivity|].
  do 3 (split; [reflexivity|]).
  intros key index Hidx.
  pose proof (insert_unallocated h1 key index Hwf1 Ha1 Hidx) as Hins.
  destruct (insert_unallocated_wf h1 _ key index Hwf1 Ha1 Hidx Hins)
    as [Hwf2 Ha2].
  pose proof (land_mask_bound key (b - 1) ltac:(lia)) as Hk.
  unfold null_index, index_modulus in Hidx.
  eexists. split; [exact Hins|].
  split; [assumption|]. split; [assumption|].
  change (m_hash_buckets_size h1) with b in *.
  change (m_index_chain_size h1) with c in *.
  match goal with |- hash_buckets_size ?s = _ /\ _ => set (h2 := s) in * end.
  split; [reflexivity|]. split; [reflexivity|].
  split; [simpl; destruct (Z.geb_spec index c); lia|].
  assert (Hlen : (Z.to_nat index <
                  Z.to_nat (if index >=? c then index + 1 else c))%nat)
    by (destruct (Z.geb_spec index c); lia).
  assert (Hcap : index < (if index >=? c then index + 1 else c)
                 /\ (if index >=? c then index + 1 else c) <= size_modulus)
    by (unfold size_modulus in *; destruct (Z.geb_spec index c); lia).
  split.
  - intros fuel. unfold positions.
    assert (Hfirst : first h2 key = Ok index).
    { eapply first_Heap; [reflexivity|reflexivity|simpl; lia|].
      simpl. apply list_lookup_insert_eq. rewrite length_replicate. lia. }
    assert (Hnext : next h2 index = Ok null_index).
    { eapply next_Heap; [reflexivity|reflexivity|simpl; lia|simpl; lia|].
      apply list_lookup_insert_eq. rewrite length_replicate. lia. }
    rewrite Hfirst. simpl.
    destruct (Z.eqb_spec index null_index);
      [unfold null_index, index_modulus in *; lia|].
    rewrite Hnext. reflexivity.
  - intros key' Hne.
    rewrite <- !(land_mask_mod _ _ Hp) in Hne.
    pose proof (land_mask_bound key' (b - 1) ltac:(lia)) as Hk'.
    eapply first_Heap; [reflexivity|reflexivity|simpl; lia|].
    simpl. rewrite list_lookup_insert_ne by lia.
    apply lookup_replicate_2. lia.
Qed.

Lemma clear_and_resize_then_insert_witness :
  exists h h1,
    (let* h0 := hash_index_sized 4 4 in
     run 0 h0 [Insert 0 0; Insert 4 1]) = Ok h
    /\ clear_and_resize h 8 2 = Ok h1
    /\ wf h1
    /\ is_allocated h1 = false /\ allocated_bytes h1 = 0
    /\ hash_buckets_size h1 = 8 /\ index_chain_size h1 = 2
    /\ granularity h1 = granularity h
    /\ forall key index,
         0 <= index < null_index ->
         exists h2,
           insert h1 key index = Ok h2
           /\ wf h2 /\ is_allocated h2 = true
           /\ hash_buckets_size h2 = 8
           /\ m_hash_mask h2 = 8 - 1
           /\ index_chain_size h2 = Z.max 2 (index + 1)
           /\ (forall fuel, positions (2 + fuel) h2 key = Ok [index])
           /\ (forall key', key' mod 8 <> key mod 8 ->
                            first h2 key' = Ok null_index).
Proof.
  eexists.
  match goal with
  | |- exists h1, ?run = Ok ?h /\ _ =>
      let r := eval vm_compute in run in
      match r with
      | Ok ?s =>
          unify h s;
          destruct (clear_and_resize_then_insert s 8 2) as (h1 & H)
      end
  end.
  - wf_concrete.
  - reflexivity.
  - vm_compute. reflexivity.
  - vm_compute. intuition congruence.
  - exists h1. split; [vm_compute; reflexivity|exact H].
Defined.

(** ** Deep comparison, copy and assignment *)

Lemma same_cells_refl_Heap (l : list Z) (n : nat) (i : Z) :
  0 <= i -> i + Z.of_nat n <= Z.of_nat (length l) ->
  same_cells n i (Heap l) (Heap l) = Ok true.
Proof.
  revert i. induction n as [|n IH]; intros i Hi Hn; [reflexivity|].
  destruct (lookup_lt_is_Some_2 l (Z.to_nat i)) as [v Hv]; [lia|].
  simpl. unfold cell_differs. rewrite (buf_read_Heap l i v Hi Hv). simpl.
  rewrite Z.eqb_refl. simpl. apply IH; lia.
Qed.

(** The comparison loop on two pointers to the dummy array: cell 0 is
    there, cell 1 is not. *)
Lemma same_cells_Dummy (n : nat) :
  same_cells n 0 Dummy Dummy =
    if (n <=? 1)%nat then Ok true else Fault OutOfBounds.
Proof.
  destruct n as [|[|n]]; reflexivity.
Qed.

Lemma operator_eq_refl (h : hash_index) :
  wf h -> is_allocated h = true -> operator_eq false h h = Ok true.
Proof.
  intros Hwf Ha.
  destruct (wf_allocated h Hwf Ha) as (bl & cl & Hb & Hc & Hlb & Hlc & _).
  unfold operator_eq. rewrite !Z.eqb_refl, Ha, Hb, Hc. simpl.
  rewrite !same_cells_refl_Heap by lia. reflexivity.
Qed.

(** Two objects that hold no arrays and agree on the sizes, the hash mask
    and the granularity. *)
Lemma operator_eq_unallocated (a b : hash_index) :
  wf a -> wf b -> is_allocated a = false -> is_allocated b = false ->
  a = b ->
  operator_eq false a b =
    if (m_hash_buckets_size a =? 1) && (m_index_chain_size a <=? 1)
    then Ok true else Fault OutOfBounds.
Proof.
  intros Hwfa _ Ha _ <-.
  destruct (wf_unallocated a Hwfa Ha) as (Hb & Hc & _).
  destruct Hwfa as [[Hp _] Hcs _ _].
  apply is_power_of_two_pos in Hp.
  unfold operator_eq. rewrite !Z.eqb_refl, Ha, Hb, Hc. simpl.
  rewrite !same_cells_Dummy.
  destruct (Z.eqb_spec (m_hash_buckets_size a) 1) as [H1|H1].
  - rewrite H1. simpl.
    destruct (Z.leb_spec (m_index_chain_size a) 1);
      destruct (Nat.leb_spec (Z.to_nat (m_index_chain_size a)) 1);
      try lia; reflexivity.
  - destruct (Nat.leb_spec (Z.to_nat (m_hash_buckets_size a)) 1);
      [lia|reflexivity].
Qed.

Lemma same_cells_spec (l1 l2 : list Z) (n : nat) (i : nat) :
  (i + n <= length l1)%nat -> (i + n <= length l2)%nat ->
  exists r,
    same_cells n (Z.of_nat i) (Heap l1) (Heap l2) = Ok r
    /\ (r = true <->
        forall j, (i <= j < i + n)%nat -> l1 !! j = l2 !! j).
Proof.
  revert i. induction n as [|n IH]; intros i H1 H2.
  - exists true. split; [reflexivity|]. split; [intros _ j Hj; lia|reflexivity].
  - destruct (lookup_lt_is_Some_2 l1 i) as [x Hx]; [lia|].
    destruct (lookup_lt_is_Some_2 l2 i) as [y Hy]; [lia|].
    simpl same_cells. unfold cell_differs.
    rewrite (buf_read_Heap l1 (Z.of_nat i) x) by (rewrite ?Nat2Z.id; auto; lia).
    rewrite (buf_read_Heap l2 (Z.of_nat i) y) by (rewrite ?Nat2Z.id; auto; lia).
    simpl bind.
    destruct (Z.eqb_spec x y) as [->|Hne]; simpl.
    + replace (Z.of_nat i + 1) with (Z.of_nat (S i)) by lia.
      destruct (IH (S i) ltac:(lia) ltac:(lia)) as (r & Hr & Hiff).
      exists r. split; [assumption|]. rewrite Hiff. split.
      * intros H j Hj. destruct (Nat.eq_dec j i) as [->|]; [congruence|].
        apply H. lia.
      * intros H j Hj. apply H. lia.
    + exists false. split; [reflexivity|].
      split; [discriminate|]. intros H. exfalso.
      specialize (H i ltac:(lia)). congruence.
Qed.

Lemma same_cells_whole (l1 l2 : list Z) :
  length l1 = length l2 ->
  exists r,
    same_cells (length l1) 0 (Heap l1) (Heap l2) = Ok r
    /\ (r = true <-> l1 = l2).
Proof.
  intros Hlen.
  destruct (same_cells_spec l1 l2 (length l1) 0 ltac:(lia) ltac:(lia))
    as (r & Hr & Hiff).
  exists r. split; [exact Hr|]. rewrite Hiff. split.
  - intros H. apply list_eq. intros j.
    destruct (Nat.lt_ge_cases j (length l1)) as [Hlt|Hge]; [apply H; lia|].
    rewrite !lookup_ge_None_2 by lia. reflexivity.
  - intros -> j _. reflexivity.
Qed.

Ltac compare_fields a b Hno :=
  destruct (Z.eqb_spec (m_hash_buckets_size a) (m_hash_buckets_size b))
    as [Hbs|Hne]; simpl; [|apply (Hno True); congruence];
  destruct (Z.eqb_spec (m_index_chain_size a) (m_index_chain_size b))
    as [Hcs|Hne]; simpl; [|apply (Hno True); congruence];
  destruct (Z.eqb_spec (m_hash_mask a) (m_hash_mask b))
    as [Hhm|Hne]; simpl; [|apply (Hno True); congruence];
  destruct (Z.eqb_spec (m_lookup_mask a) (m_lookup_mask b))
    as [Hlm|Hne]; simpl; [|apply (Hno True); congruence];
  destruct (Z.eqb_spec (m_granularity a) (m_granularity b))
    as [Hg|Hne]; simpl; [|apply (Hno True); congruence].

(** X16: on two distinct well-formed objects of which one at least holds
    arrays, or which differ in a field, or which record one bucket and at
    most one chain slot, [operator==] returns, and its result is [true]
    exactly when the two objects have the same sizes, masks and
    granularity, the same allocation state and the same array contents;
    [operator!=] is its negation. *)
Theorem operator_eq_is_deep_equality (a b : hash_index) :
  wf a -> wf b ->
  is_allocated a = true \/ is_allocated b = true \/ a <> b
  \/ (hash_buckets_size a = 1 /\ index_chain_size a <= 1) ->
  exists r,
    operator_eq false a b = Ok r
    /\ operator_ne false a b = Ok (negb r)
    /\ (r = true <-> a = b).
Proof.
  intros Hwfa Hwfb Hcase.
  assert (Hgoal : exists r, operator_eq false a b = Ok r
                            /\ (r = true <-> a = b)).
  2:{ destruct Hgoal as (r & Hr & Hiff). exists r.
      split; [assumption|]. split; [|assumption].
      unfold operator_ne. rewrite Hr. reflexivity. }
  assert (Hno : forall P : Prop, ~ a = b -> exists r,
            Ok false = Ok r /\ (r = true <-> a = b)).
  { intros _ Hne. exists false. split; [reflexivity|].
    split; [discriminate|contradiction]. }
  destruct (is_allocated a) eqn:Ha, (is_allocated b) eqn:Hb.
  - clear Hcase. unfold operator_eq. rewrite Ha, Hb.
    compare_fields a b Hno.
    destruct (wf_allocated a Hwfa Ha)
      as (bla & cla & Hba & Hca & Hlba & Hlca & _).
    destruct (wf_allocated b Hwfb Hb)
      as (blb & clb & Hbb & Hcb & Hlbb & Hlcb & _).
    rewrite Hba, Hca, Hbb, Hcb.
    replace (Z.to_nat (m_hash_buckets_size a)) with (length bla) by lia.
    replace (Z.to_nat (m_index_chain_size a)) with (length cla) by lia.
    destruct (same_cells_whole bla blb ltac:(lia)) as (r1 & Hr1 & Hiff1).
    destruct (same_cells_whole cla clb ltac:(lia)) as (r2 & Hr2 & Hiff2).
    rewrite Hr1. simpl bind. destruct r1; simpl.
    + rewrite Hr2. simpl bind.
      assert (bla = blb) by (apply Hiff1; reflexivity). subst blb.
      destruct r2; simpl.
      * exists true. split; [reflexivity|]. split; [intros _|reflexivity].
        assert (cla = clb) by (apply Hiff2; reflexivity). subst clb.
        destruct a, b; simpl in *; congruence.
      * apply (Hno True). intros ->. rewrite Hca in Hcb.
        injection Hcb as ->. destruct Hiff2 as [_ H].
        specialize (H eq_refl). discriminate.
    + apply (Hno True). intros ->. rewrite Hba in Hbb.
      injection Hbb as ->. destruct Hiff1 as [_ H].
      specialize (H eq_refl). discriminate.
  - clear Hcase. unfold operator_eq. rewrite Ha, Hb.
    compare_fields a b Hno. apply (Hno True). intros ->. congruence.
  - clear Hcase. unfold operator_eq. rewrite Ha, Hb.
    compare_fields a b Hno. apply (Hno True). intros ->. congruence.
  - destruct (wf_unallocated a Hwfa Ha) as (Hba & Hca & Hla).
    destruct (wf_unallocated b Hwfb Hb) as (Hbb & Hcb & Hlb).
    assert (Hsame : m_hash_buckets_size a = m_hash_buckets_size b ->
                    m_index_chain_size a = m_index_chain_size b ->
                    m_hash_mask a = m_hash_mask b ->
                    m_granularity a = m_granularity b -> a = b).
    { destruct a, b; simpl in *; congruence. }
    destruct Hcase as [H|[H|[Hdiff|[H1 H2]]]]; try discriminate.
    + unfold operator_eq. rewrite Ha, Hb.
      compare_fields a b Hno. exfalso. auto.
    + unfold operator_eq. rewrite Ha, Hb.
      compare_fields a b Hno.
      unfold hash_buckets_size in H1. unfold index_chain_size in H2.
      rewrite Hba, Hca, Hbb, Hcb, !same_cells_Dummy, H1.
      destruct (Nat.leb_spec (Z.to_nat (m_index_chain_size a)) 1); [|lia].
      simpl. exists true. split; [reflexivity|]. split; auto.
Qed.

(** X19: on two distinct well-formed objects that hold no arrays and agree
    on the sizes, the hash mask and the granularity (two default-constructed
    objects, an unallocated object and its copy), [operator==] and
    [operator!=] read cell 1 of the one-element dummy array, past its end,
    as soon as more than one bucket or more than one chain slot is
    recorded. *)
Theorem operator_eq_unallocated_reads_past_dummy (a b : hash_index) :
  wf a -> wf b -> is_allocated a = false -> is_allocated b = false ->
  a = b ->
  1 < hash_buckets_size a \/ 1 < index_chain_size a ->
  operator_eq false a b = Fault OutOfBounds
  /\ operator_ne false a b = Fault OutOfBounds.
Proof.
  intros Hwfa Hwfb Ha Hb Hab Hsize.
  assert (Heq : operator_eq false a b = Fault OutOfBounds).
  { rewrite (operator_eq_unallocated a b Hwfa Hwfb Ha Hb Hab).
    unfold hash_buckets_size, index_chain_size in Hsize.
    destruct (Z.eqb_spec (m_hash_buckets_size a) 1) as [H1|H1];
      [|reflexivity].
    destruct (Z.leb_spec (m_index_chain_size a) 1); [lia|reflexivity]. }
  split; [assumption|]. unfold operator_ne. rewrite Heq. reflexivity.
Qed.

Lemma operator_eq_unallocated_reads_past_dummy_witness :
  exists a b,
    hash_index_default = Ok a
    /\ hash_index_sized 1024 1024 = Ok b
    /\ operator_eq false a b = Fault OutOfBounds
    /\ operator_ne false a b = Fault OutOfBounds.
Proof.
  eexists _, _. split; [reflexivity|]. split; [reflexivity|].
  apply operator_eq_unallocated_reads_past_dummy.
  - wf_concrete.
  - wf_concrete.
  - reflexivity.
  - reflexivity.
  - reflexivity.
  - left. vm_compute. reflexivity.
Defined.

Lemma operator_eq_is_deep_equality_witness :
  exists a b r,
    (let* h0 := hash_index_sized 4 4 in run 0 h0 [Insert 0 0; Insert 4 1])
    = Ok a
    /\ (let* h0 := hash_index_sized 4 4 in run 0 h0 [Insert 4 1; Insert 0 0])
       = Ok b
    /\ operator_eq false a b = Ok r
    /\ operator_ne false a b = Ok (negb r)
    /\ (r = true <-> a = b).
Proof.
  eexists _, _.
  match goal with
  | |- exists r, ?runa = Ok ?a /\ ?runb = Ok ?b /\ _ =>
      let ra := eval vm_compute in runa in
      let rb := eval vm_compute in runb in
      match ra with
      | Ok ?sa =>
          match rb with
          | Ok ?sb =>
              unify a sa; unify b sb;
              destruct (operator_eq_is_deep_equality sa sb) as (r & H)
          end
      end
  end.
  - wf_concrete.
  - wf_concrete.
  - left. reflexivity.
  - exists r. split; [vm_compute; reflexivity|].
    split; [vm_compute; reflexivity|exact H].
Defined.

(** X17: the copy constructor, on a well-formed object, returns an object
    with the same fields and array contents, which [operator==] reports
    equal to the original when it holds arrays; copy assignment gives the
    assigned object the value of its argument, whatever it held before. *)
Theorem copy_is_deep (source this : hash_index) :
  wf source ->
  hash_index_copy source = Ok source
  /\ operator_assign this source = Ok source
  /\ (is_allocated source = true ->
      operator_eq false source source = Ok true).
Proof.
  intros Hwf.
  assert (Hcopy : hash_index_copy source = Ok source).
  { unfold hash_index_copy. destruct (is_allocated source) eqn:Ha.
    - destruct (wf_allocated source Hwf Ha)
        as (bl & cl & Hb & Hc & Hlb & Hlc & Hlm & _).
      destruct Hwf as [[Hp _] _ _ _].
      rewrite Hlm. change (size_modulus - 1 =? 0) with false. cbv iota.
      unfold assert, is_allocated. rewrite Hp, Hb, Hc. simpl.
      destruct (Z.ltb_spec (Z.of_nat (length bl)) (m_hash_buckets_size source));
        [lia|].
      destruct (Z.ltb_spec (Z.of_nat (length cl)) (m_index_chain_size source));
        [lia|].
      simpl. rewrite !take_ge by lia.
      rewrite <- Hb, <- Hc, <- Hlm. destruct source; reflexivity.
    - destruct (wf_unallocated source Hwf Ha) as (Hb & Hc & Hlm).
      rewrite Hlm. simpl. rewrite <- Hb, <- Hc at 1.
      rewrite <- Hlm at 1. destruct source; reflexivity. }
  split; [assumption|]. split; [|apply operator_eq_refl; assumption].
  unfold operator_assign. rewrite Hcopy. simpl. destruct source; reflexivity.
Qed.

Lemma copy_is_deep_witness :
  exists source this,
    (let* h0 := hash_index_sized 4 4 in run 0 h0 [Insert 0 0; Insert 4 1])
    = Ok source
    /\ hash_index_default = Ok this
    /\ hash_index_copy source = Ok source
    /\ operator_assign this source = Ok source
    /\ operator_eq false source source = Ok true.
Proof.
  eexists _, _.
  match goal with
  | |- ?run = Ok ?h /\ _ =>
      let r := eval vm_compute in run in
      match r with
      | Ok ?s =>
          unify h s;
          split; [vm_compute; reflexivity|];
          split; [reflexivity|];
          match goal with
          | |- _ /\ operator_assign ?t _ = _ /\ _ =>
              destruct (copy_is_deep s t) as (Hcopy & Hassign & Heq)
          end
      end
  end.
  - wf_concrete.
  - split; [exact Hcopy|]. split; [exact Hassign|].
    apply Heq. reflexivity.
Defined.

(** X20: move construction from a well-formed [source] returns; the new
    object has the fields and the array contents that [source] had, and
    [source] is left as a default-constructed object, with
    [is_allocated() == false] and [allocated_bytes() == 0]; when [source]
    held arrays, [operator==] between the new object and the former value
    gives [true]. *)
Theorem move_constructor_transfers (source : hash_index) :
  wf source ->
  exists destination source',
    hash_index_move source = Ok (destination, source')
    /\ destination = source
    /\ hash_index_default = Ok source'
    /\ is_allocated source' = false
    /\ allocated_bytes source' = 0
    /\ (is_allocated source = true ->
        operator_eq false destination source = Ok true).
Proof.
  intros Hwf. exists source. eexists.
  split; [|split; [|split; [|split; [|split]]]].
  - unfold hash_index_move. simpl. destruct source. reflexivity.
  - reflexivity.
  - reflexivity.
  - reflexivity.
  - reflexivity.
  - apply operator_eq_refl. exact Hwf.
Qed.

Lemma move_constructor_transfers_witness :
  exists source destination source',
    (let* h := hash_index_sized 4 4 in
     let* h := insert h 0 0 in
     let* h := insert h 4 1 in insert h 8 2) = Ok source
    /\ hash_index_move source = Ok (destination, source')
    /\ destination = source
    /\ hash_index_default = Ok source'
    /\ is_allocated source' = false
    /\ allocated_bytes source' = 0
    /\ operator_eq false destination source = Ok true.
Proof.
  eexists.
  match goal with
  | |- exists d s', ?run = Ok ?h /\ _ =>
      let r := eval vm_compute in run in
      match r with
      | Ok ?s =>
          unify h s;
          destruct (move_constructor_transfers s)
            as (dst & src' & Hm & Hd & Hdef & Hal & Hby & Heq)
      end
  end.
  - wf_concrete.
  - exists dst, src'. split; [vm_compute; reflexivity|].
    repeat (split; [assumption|]).
    apply Heq. reflexivity.
Defined.

Lemma In_stored_in_bucket (b key p : Z) (stored : list (Z * Z)) :
  In p (stored_in_bucket b key stored) <->
  exists k, In (k, p) stored /\ k mod b = key mod b.
Proof.
  unfold stored_in_bucket. rewrite in_map_iff. split.
  - intros ([k q] & Hq & Hin). simpl in Hq. subst q.
    apply filter_In in Hin as [Hin Hb]. simpl in Hb.
    exists k. split; [assumption|]. apply Z.eqb_eq. assumption.
  - intros (k & Hin & Hb). exists (k, p). split; [reflexivity|].
    apply filter_In. split; [assumption|]. simpl. apply Z.eqb_eq. assumption.
Qed.

Lemma stored_in_bucket_without (b key' key index : Z)
    (stored : list (Z * Z)) :
  (forall k, In (k, index) stored -> k = key) ->
  stored_in_bucket b key'
    (List.filter (fun q => negb (same_pair q (key, index))) stored)
  = List.remove Z.eq_dec index (stored_in_bucket b key' stored).
Proof.
  unfold stored_in_bucket.
  induction stored as [|[k p] stored IH]; intros Hkey; [reflexivity|].
  assert (IH' := IH (fun k0 H => Hkey k0 (or_intror H))). clear IH.
  simpl List.filter at 2 3.
  destruct (same_pair (k, p) (key, index)) eqn:Hsame; simpl negb; cbv iota.
  - apply same_pair_true in Hsame. injection Hsame as -> ->.
    simpl fst. destruct (key mod b =? key' mod b); simpl.
    + destruct (Z.eq_dec index index); [|contradiction]. exact IH'.
    + exact IH'.
  - assert (Hne : index <> p).
    { intros <-. assert (k = key) by (apply Hkey; left; reflexivity).
      subst k. assert (same_pair (key, index) (key, index) = true)
        by (apply same_pair_true; reflexivity). congruence. }
    simpl List.filter. simpl fst.
    destruct (k mod b =? key' mod b); simpl; [|exact IH'].
    destruct (Z.eq_dec index p); [contradiction|]. f_equal. exact IH'.
Qed.

Lemma bucket_of_same (h : hash_index) (k1 k2 : Z) :
  wf h -> m_hash_mask h = m_hash_buckets_size h - 1 ->
  bucket_of h k1 = bucket_of h k2 <->
  k1 mod m_hash_buckets_size h = k2 mod m_hash_buckets_size h.
Proof.
  intros [[Hp _] _ _ _] Hm. unfold bucket_of.
  rewrite Hm, !(land_mask_mod _ _ Hp).
  pose proof (is_power_of_two_pos _ Hp) as Hpos.
  pose proof (Z.mod_pos_bound k1 _ Hpos). pose proof (Z.mod_pos_bound k2 _ Hpos).
  split; lia.
Qed.

Lemma ordered_insert (h h' : hash_index) (stored : list (Z * Z))
    (key index : Z) :
  consistent h stored -> ordered h stored ->
  0 <= index < null_index -> ~ In index (map snd stored) ->
  insert h key index = Ok h' ->
  ordered h' ((key, index) :: stored).
Proof.
  intros (Hwf & Hg & Hmask & Hnd & Hrange & Hchains) Hord Hidx Hfresh Hins.
  assert (Hnotin : forall k, ~ In index
            (stored_in_bucket (m_hash_buckets_size h) k stored)).
  { intros k Hin. apply In_stored_in_bucket in Hin as (k0 & Hin & _).
    apply Hfresh. apply (in_map snd) in Hin. exact Hin. }
  destruct (is_allocated h) eqn:Ha.
  - destruct (wf_allocated h Hwf Ha)
      as (bl & cl & Hb & Hc & Hlb & Hlc & Hlm & _).
    assert (Hov : index + 1 + m_granularity h < size_modulus)
      by (unfold null_index in Hidx; lia).
    destruct (insert_allocated h bl cl key index Hwf Hb Hc Hidx Hov)
      as (head & Hhead & Hins').
    rewrite Hins' in Hins. injection Hins as <-.
    pose proof (capacity_after_insert_bounds h index Hwf ltac:(lia) Hov)
      as [Hcap Hlt].
    intros bl' cl' [= <-] [= <-] key' head'.
    unfold bucket_of, stored_in_bucket. simpl m_hash_mask.
    simpl m_hash_buckets_size. simpl List.filter. simpl fst.
    intros Hj.
    assert (Hframe : forall i l, chain_from cl i l -> ~ In index l ->
              chain_from
                (<[Z.to_nat index := head]>
                   (cl ++ replicate
                      (Z.to_nat (capacity_after_insert h index
                                 - m_index_chain_size h)) null_index)) i l).
    { intros i l Hl Hnin. apply chain_from_insert; [|lia|assumption].
      apply chain_from_app. assumption. }
    pose proof (bucket_of_same h key key' Hwf Hmask) as Hsame.
    unfold bucket_of in Hsame.
    destruct (Z.eqb_spec (key mod m_hash_buckets_size h)
                (key' mod m_hash_buckets_size h)) as [Heq|Hne].
    + apply Hsame in Heq. rewrite <- Heq in Hj.
      rewrite list_lookup_insert_eq in Hj
        by (eapply lookup_lt_Some; eassumption).
      injection Hj as <-. simpl map.
      apply (chain_from_step _ index head);
        [unfold null_index in *; lia|lia| |].
      * apply list_lookup_insert_eq.
        rewrite length_app, length_replicate. lia.
      * apply Hframe; [|apply Hnotin].
        apply (Hord bl cl Hb Hc key'). unfold bucket_of.
        rewrite <- Heq. assumption.
    + rewrite list_lookup_insert_ne in Hj
        by (intros Heq; apply Hne, Hsame; assumption).
      apply Hframe; [|apply Hnotin].
      apply (Hord bl cl Hb Hc key'). assumption.
  - destruct (wf_unallocated h Hwf Ha) as (Hb & Hc & Hlm).
    rewrite Hb in Hchains. subst stored.
    pose proof (insert_unallocated h key index Hwf Ha Hidx) as Hins'.
    rewrite Hins' in Hins. injection Hins as <-.
    pose proof Hwf as [[Hp Hbs] Hcs _ _].
    pose proof (is_power_of_two_pos _ Hp) as Hpos.
    intros bl' cl' [= <-] [= <-] key' head'.
    unfold bucket_of, stored_in_bucket. simpl m_hash_mask.
    simpl m_hash_buckets_size. simpl List.filter. simpl fst.
    rewrite !(land_mask_mod _ _ Hp).
    pose proof (Z.mod_pos_bound key _ Hpos).
    pose proof (Z.mod_pos_bound key' _ Hpos).
    intros Hj.
    destruct (Z.eqb_spec (key mod m_hash_buckets_size h)
                (key' mod m_hash_buckets_size h)) as [Heq|Hne].
    + rewrite <- Heq in Hj.
      rewrite list_lookup_insert_eq in Hj by (rewrite length_replicate; lia).
      injection Hj as <-. simpl map.
      apply (chain_from_step _ index null_index);
        [unfold null_index in *; lia|lia| |constructor].
      apply list_lookup_insert_eq. rewrite length_replicate.
      destruct (Z.geb_spec index (m_index_chain_size h)); lia.
    + rewrite list_lookup_insert_ne in Hj by lia.
      apply lookup_replicate in Hj as [-> _]. constructor.
Qed.

Lemma ordered_erase (fuel : nat) (h h' : hash_index)
    (stored : list (Z * Z)) (key index : Z) :
  consistent h stored -> ordered h stored ->
  In (key, index) stored -> (length stored <= fuel)%nat ->
  erase fuel h key index = Ok h' ->
  ordered h'
    (List.filter (fun q => negb (same_pair q (key, index))) stored).
Proof.
  intros (Hwf & Hg & Hmask & Hnd & Hrange & Hchains) Hord Hin Hfuel Herase.
  assert (Ha : is_allocated h = true).
  { unfold is_allocated. destruct (m_hash_buckets h); [|reflexivity].
    rewrite Hchains in Hin. destruct Hin. }
  destruct (wf_allocated h Hwf Ha) as (bl & cl & Hb & Hc & _).
  destruct (first_allocated h bl cl Hwf Hb Hc key) as (head & Hhead & _ & _).
  pose proof (Hord bl cl Hb Hc key head Hhead) as Hl.
  set (b := m_hash_buckets_size h) in *.
  assert (Hinl : In index (stored_in_bucket b key stored))
    by (apply In_stored_in_bucket; eauto).
  destruct (in_split _ _ Hinl) as (pre & post & Hsplit).
  rewrite Hsplit in Hl.
  pose proof (chain_from_NoDup _ _ _ Hl) as Hndl.
  destruct (NoDup_middle _ _ _ Hndl) as [Hpre Hpost].
  assert (Hlen : (length (pre ++ index :: post) <= length stored)%nat).
  { apply chain_length_stored; [assumption|].
    intros p Hp. rewrite <- Hsplit in Hp.
    apply In_stored_in_bucket in Hp as (k & Hk & _). eauto. }
  rewrite length_app in Hlen. simpl in Hlen.
  destruct (erase_present h bl cl key index head Hwf Hb Hc Hhead
              fuel pre post Hl ltac:(lia)) as (nxt & Hnxt & Herase').
  rewrite Herase' in Herase. injection Herase as <-.
  destruct (erased_chain h bl cl key index head nxt pre post
              Hb Hhead Hl Hnxt)
    as (bl' & cl' & head' & Hb' & Hc' & Hhead' & Hch' & Hother & Hframe).
  set (h' := erased h bl cl key index nxt pre) in *.
  assert (Hfields : m_hash_mask h' = m_hash_mask h
                    /\ m_hash_buckets_size h' = b)
    by (unfold h', erased; destruct pre; split; reflexivity).
  destruct Hfields as (Hm' & Hs').
  assert (Hkey : forall k, In (k, index) stored -> k = key)
    by (intros k Hk; eapply stored_key_unique; eassumption).
  intros bl2 cl2 Hb2 Hc2 key' hd.
  rewrite Hb' in Hb2. injection Hb2 as <-.
  rewrite Hc' in Hc2. injection Hc2 as <-.
  unfold bucket_of. rewrite Hm', Hs'.
  rewrite (stored_in_bucket_without b key' key index stored Hkey).
  intros Hj.
  pose proof (bucket_of_same h key key' Hwf Hmask) as Hsame.
  unfold bucket_of in Hsame. fold b in Hsame.
  destruct (Z.eq_dec (key mod b) (key' mod b)) as [Heq|Hne].
  - assert (Hlist : stored_in_bucket b key' stored
                    = stored_in_bucket b key stored).
    { unfold stored_in_bucket. rewrite Heq. reflexivity. }
    rewrite Hlist, Hsplit, remove_middle by assumption.
    apply Hsame in Heq. rewrite <- Heq, Hhead' in Hj.
    injection Hj as <-. assumption.
  - assert (Hj' : bl !! Z.to_nat (Z.land key' (m_hash_mask h)) = Some hd).
    { rewrite <- Hj. symmetry. apply Hother.
      intros Heq. apply Hne, Hsame. symmetry. exact Heq. }
    pose proof (Hord bl cl Hb Hc key' hd Hj') as Hl'. fold b in Hl'.
    assert (Hdisj : forall q, In q (stored_in_bucket b key stored) ->
                              ~ In q (stored_in_bucket b key' stored)).
    { intros q Hq Hq'.
      apply In_stored_in_bucket in Hq as (k1 & Hk1 & Hb1).
      apply In_stored_in_bucket in Hq' as (k2 & Hk2 & Hb2).
      assert (k1 = k2) by (eapply stored_key_unique; eassumption).
      subst k2. congruence. }
    rewrite notin_remove by (apply Hdisj; assumption).
    apply Hframe; [assumption|apply Hdisj; assumption|].
    intros q Hq. apply Hdisj. rewrite Hsplit. apply in_or_app. left. assumption.
Qed.

Lemma insert_bucket_count (h h' : hash_index) (key index : Z) :
  insert h key index = Ok h' ->
  m_hash_buckets_size h' = m_hash_buckets_size h.
Proof.
  unfold insert.
  match goal with |- bind ?r _ = _ -> _ =>
    assert (Hfirst : forall h1, r = Ok h1 ->
              m_hash_buckets_size h1 = m_hash_buckets_size h);
    [|destruct r as [h1|]; simpl; [|discriminate]]
  end.
  { intros h1. destruct (negb (is_allocated h)).
    - unfold internal_allocate, assert.
      destruct (is_power_of_two (m_hash_buckets_size h)); simpl;
        [|discriminate]. intros [= <-]. reflexivity.
    - destruct (index >=? m_index_chain_size h); [|congruence].
      unfold resize_index_chain.
      destruct (_ <=? _); [congruence|].
      destruct (m_granularity h =? 0); [discriminate|].
      destruct (m_index_chain h); [intros [= <-]; reflexivity|].
      destruct (_ || _); [discriminate|]. intros [= <-]. reflexivity. }
  specialize (Hfirst h1 eq_refl).
  destruct (buf_read _ _); simpl; [|discriminate].
  destruct (buf_write _ _ _); simpl; [|discriminate].
  destruct (buf_write _ _ _); simpl; [|discriminate].
  intros [= <-]. simpl. assumption.
Qed.

Lemma ordered_run (fuel : nat) (ops : list operation)
    (h h' : hash_index) (stored : list (Z * Z)) :
  consistent h stored -> ordered h stored -> disciplined stored ops ->
  (length stored + length ops <= fuel)%nat ->
  run fuel h ops = Ok h' ->
  consistent h' (stored_after stored ops)
  /\ ordered h' (stored_after stored ops)
  /\ m_hash_buckets_size h' = m_hash_buckets_size h.
Proof.
  revert h stored.
  induction ops as [|op ops IH]; intros h stored Hcons Hord Hd Hlen Hrun.
  - injection Hrun as <-. auto.
  - destruct op as [key index|key index]; simpl in Hd, Hlen, Hrun.
    + destruct Hd as (Hidx & Hfresh & Hd).
      destruct (consistent_insert h stored key index Hcons Hidx Hfresh)
        as (h1 & Hins & Hcons1).
      rewrite Hins in Hrun. simpl in Hrun.
      rewrite <- (insert_bucket_count h h1 key index Hins).
      apply (IH h1 ((key, index) :: stored)); try assumption.
      * eapply ordered_insert; eassumption.
      * simpl. lia.
    + destruct Hd as (Hin & Hd).
      destruct (consistent_erase fuel h stored key index Hcons Hin ltac:(lia))
        as (h1 & Herase & Hcons1).
      rewrite Herase in Hrun. simpl in Hrun.
      destruct Hcons as (Hwf & Hrest).
      destruct (erase_shape fuel h h1 key index Hwf Herase)
        as (_ & _ & Hsize & _).
      unfold hash_buckets_size in Hsize. rewrite <- Hsize.
      apply (IH h1 (List.filter
                      (fun q => negb (same_pair q (key, index))) stored));
        try assumption.
      * eapply ordered_erase; try eassumption; [split; assumption|lia].
      * pose proof (filter_length_le
                      (fun q => negb (same_pair q (key, index))) stored).
        lia.
Qed.

Lemma ordered_positions (fuel : nat) (h : hash_index)
    (stored : list (Z * Z)) (key : Z) :
  consistent h stored -> ordered h stored -> (length stored < fuel)%nat ->
  positions fuel h key =
    Ok (stored_in_bucket (hash_buckets_size h) key stored).
Proof.
  intros (Hwf & Hg & Hmask & Hnd & Hrange & Hchains) Hord Hfuel.
  destruct (is_allocated h) eqn:Ha.
  - destruct (wf_allocated h Hwf Ha) as (bl & cl & Hb & Hc & _).
    destruct (first_allocated h bl cl Hwf Hb Hc key)
      as (head & Hhead & Hfirst & _).
    pose proof (Hord bl cl Hb Hc key head Hhead) as Hl.
    unfold positions, hash_buckets_size. rewrite Hfirst. simpl.
    apply (chain_positions_from h bl cl Hwf Hb Hc); [assumption|].
    assert ((length (stored_in_bucket (m_hash_buckets_size h) key stored)
             <= length stored)%nat); [|lia].
    apply chain_length_stored; [eapply chain_from_NoDup; eassumption|].
    intros p Hp. apply In_stored_in_bucket in Hp as (k & Hk & _). eauto.
  - destruct (wf_unallocated h Hwf Ha) as (Hb & Hc & Hlm).
    rewrite Hb in Hchains. subst stored.
    unfold positions, first. rewrite Hb, Hlm, Z.land_0_r. simpl.
    destruct fuel; [lia|]. reflexivity.
Qed.

(** X18: from a [hash_index(b, c)], after insertions and erasures in which
    a position is inserted only while it is not stored and every [erase]
    names a stored pair, the traversal of the bucket of any key visits
    exactly the positions inserted and not erased whose key falls in that
    bucket (same remainder modulo [b]), the most recently inserted first. *)
Theorem traversal_is_most_recent_first
    (b c : Z) (h0 : hash_index) (ops : list operation) (fuel : nat) :
  hash_index_sized b c = Ok h0 ->
  b < size_modulus -> 0 <= c < size_modulus ->
  disciplined [] ops -> (length ops < fuel)%nat ->
  exists h,
    run fuel h0 ops = Ok h
    /\ forall key,
         positions fuel h key =
           Ok (stored_in_bucket b key (stored_after [] ops)).
Proof.
  intros Hinit Hb Hc Hd Hfuel.
  pose proof (consistent_init b c h0 Hb Hc Hinit) as Hcons.
  assert (Hord : ordered h0 []).
  { unfold hash_index_sized, internal_init, assert in Hinit.
    destruct (is_power_of_two b); simpl in Hinit; [|discriminate].
    injection Hinit as <-. intros bl cl Hbl. discriminate Hbl. }
  assert (Hsize : m_hash_buckets_size h0 = b).
  { unfold hash_index_sized, internal_init, assert in Hinit.
    destruct (is_power_of_two b); simpl in Hinit; [|discriminate].
    injection Hinit as <-. reflexivity. }
  destruct (consistent_run fuel ops h0 [] Hcons Hd ltac:(simpl; lia))
    as (h & Hrun & _).
  destruct (ordered_run fuel ops h0 h [] Hcons Hord Hd ltac:(simpl; lia) Hrun)
    as (Hcons' & Hord' & Hkeep).
  exists h. split; [assumption|]. intros key.
  rewrite <- Hsize, <- Hkeep.
  apply ordered_positions; try assumption.
  pose proof (stored_after_length ops []). simpl in *. lia.
Qed.

Lemma traversal_is_most_recent_first_witness :
  exists h0 h,
    hash_index_sized 4 2 = Ok h0
    /\ run 7 h0
         [Insert 0 0; Insert 4 1; Insert 7 2; Erase 4 1; Insert 8 1;
          Insert 12 3] = Ok h
    /\ forall key,
         positions 7 h key =
           Ok (stored_in_bucket 4 key
                 (stored_after []
                    [Insert 0 0; Insert 4 1; Insert 7 2; Erase 4 1;
                     Insert 8 1; Insert 12 3])).
Proof.
  eexists.
  destruct (traversal_is_most_recent_first 4 2 _
              [Insert 0 0; Insert 4 1; Insert 7 2; Erase 4 1; Insert 8 1;
               Insert 12 3] 7
              eq_refl) as (h & Hrun & Hpos).
  - vm_compute. reflexivity.
  - vm_compute. intuition congruence.
  - simpl. unfold null_index, index_modulus.
    repeat split; try lia; intuition (try discriminate; try lia).
  - simpl. lia.
  - exists h. split; [reflexivity|]. split; [exact Hrun|exact Hpos].
Defined.
